(** * The Milan parser (cmilan): recursive descent with inline code generation

    A shallow embedding of [parser.hpp] / [parser.cpp].  The parser object is
    a record, every method is a function on that record, and the mutually
    recursive grammar procedures are a mutual fixpoint on a fuel argument.
    The scanner and the code generator ([scanner.hpp], [codegen.hpp]) are
    not among the sources embedded here; they are modelled from the
    specification, at the interface the parser uses. *)

From Stdlib Require Import ZArith QArith Lia Bool.
From stdpp Require Import base option list strings gmap.

Open Scope Z_scope.
Open Scope string_scope.

(** ** Tokens *)

(** Modelled from the spec: the enumerations [Token], [Cmp] and
    [Arithmetic] are declared in the missing [scanner.hpp].  Their
    constructors are the ones [parser.cpp] names, with [T_ILLEGAL] for a
    token of no class and [A_DIVIDE] for the operator that [term] treats
    in its [else]. *)
Inductive Token :=
| T_EOF | T_ILLEGAL | T_IDENTIFIER | T_NUMBER | T_RNUMBER
| T_BEGIN | T_END | T_IF | T_THEN | T_ELSE | T_FI
| T_WHILE | T_DO | T_OD | T_WRITE | T_READ
| T_ASSIGN | T_ADDOP | T_MULOP | T_CMP
| T_LPAREN | T_RPAREN | T_SEMICOLON | T_INT | T_FLOAT.

Inductive Cmp := C_EQ | C_NE | C_LT | C_LE | C_GT | C_GE.

Inductive Arithmetic := A_PLUS | A_MINUS | A_MULTIPLY | A_DIVIDE.

#[global] Instance Token_eq_dec : EqDecision Token.
Proof. solve_decision. Defined.

#[global] Instance Arithmetic_eq_dec : EqDecision Arithmetic.
Proof. solve_decision. Defined.

(** ** Scanner *)

(** One element of the token stream, with the value the scanner decodes
    for it. *)
Inductive Lexeme :=
| LexPlain (t : Token)
| LexIdentifier (name : string)
| LexNumber (value : Z)
| LexRNumber (value : Q)
| LexAddop (op : Arithmetic)
| LexMulop (op : Arithmetic)
| LexCmp (c : Cmp).

(** Modelled from the spec: [scanner.hpp] is missing.  The token source
    holds one current token and advances on demand; it decodes a value for
    identifiers, numbers and operators and knows the current line.  The
    parser reads these values after it has advanced past the token
    ([getIntValue] after [next], [getStringValue] after [match]), so each
    value lives in a field of its own that changes only when a token of
    that class is read.  [input_] is what has not been read yet, each
    lexeme with the line it is on.  Floating-point values are modelled by
    rationals; rounding to the machine format is not modelled. *)
Record Scanner := mkScanner {
  input_ : list (nat * Lexeme);
  token_ : Token;
  lineNumber_ : nat;
  intValue_ : Z;
  floatValue_ : Q;
  stringValue_ : string;
  cmpValue_ : Cmp;
  arithmeticValue_ : Arithmetic
}.

(** Modelled from the spec: the accessors of the missing [Scanner] that
    the parser calls. *)
Definition token (s : Scanner) : Token := token_ s.
Definition getLineNumber (s : Scanner) : nat := lineNumber_ s.
Definition getIntValue (s : Scanner) : Z := intValue_ s.
Definition getFloatValue (s : Scanner) : Q := floatValue_ s.
Definition getStringValue (s : Scanner) : string := stringValue_ s.
Definition getCmpValue (s : Scanner) : Cmp := cmpValue_ s.
Definition getArithmeticValue (s : Scanner) : Arithmetic := arithmeticValue_ s.

(** Modelled from the spec: [Scanner::nextToken] is missing.  Reads the
    next lexeme; once the input is exhausted the current token is [T_EOF]
    and stays so. *)
Definition nextToken (s : Scanner) : Scanner :=
  match input_ s with
  | [] =>
      mkScanner [] T_EOF (lineNumber_ s) (intValue_ s) (floatValue_ s)
        (stringValue_ s) (cmpValue_ s) (arithmeticValue_ s)
  | (ln, lx) :: rest =>
      match lx with
      | LexPlain t =>
          mkScanner rest t ln (intValue_ s) (floatValue_ s)
            (stringValue_ s) (cmpValue_ s) (arithmeticValue_ s)
      | LexIdentifier name =>
          mkScanner rest T_IDENTIFIER ln (intValue_ s) (floatValue_ s)
            name (cmpValue_ s) (arithmeticValue_ s)
      | LexNumber v =>
          mkScanner rest T_NUMBER ln v (floatValue_ s)
            (stringValue_ s) (cmpValue_ s) (arithmeticValue_ s)
      | LexRNumber v =>
          mkScanner rest T_RNUMBER ln (intValue_ s) v
            (stringValue_ s) (cmpValue_ s) (arithmeticValue_ s)
      | LexAddop op =>
          mkScanner rest T_ADDOP ln (intValue_ s) (floatValue_ s)
            (stringValue_ s) (cmpValue_ s) op
      | LexMulop op =>
          mkScanner rest T_MULOP ln (intValue_ s) (floatValue_ s)
            (stringValue_ s) (cmpValue_ s) op
      | LexCmp c =>
          mkScanner rest T_CMP ln (intValue_ s) (floatValue_ s)
            (stringValue_ s) c (arithmeticValue_ s)
      end
  end.

(** Modelled from the spec: the scanner's constructor is missing.  A new
    scanner has read nothing; the fields a constructor may leave unset get
    fixed values here, and the general theorems below hold for any
    scanner the parser is built on. *)
Definition Scanner_new (input : list (nat * Lexeme)) : Scanner :=
  mkScanner input T_ILLEGAL 1%nat 0 (0 # 1) "" C_EQ A_PLUS.

(** Modelled from the spec: [tokenToString] is missing; it names a token
    in a diagnostic. *)
Definition tokenToString (t : Token) : string :=
  match t with
  | T_EOF => "end of file"
  | T_ILLEGAL => "illegal token"
  | T_IDENTIFIER => "identifier"
  | T_NUMBER => "number"
  | T_RNUMBER => "real number"
  | T_BEGIN => "'BEGIN'"
  | T_END => "'END'"
  | T_IF => "'IF'"
  | T_THEN => "'THEN'"
  | T_ELSE => "'ELSE'"
  | T_FI => "'FI'"
  | T_WHILE => "'WHILE'"
  | T_DO => "'DO'"
  | T_OD => "'OD'"
  | T_WRITE => "'WRITE'"
  | T_READ => "'READ'"
  | T_ASSIGN => "'='"
  | T_ADDOP => "'+' or '-'"
  | T_MULOP => "'*' or '/'"
  | T_CMP => "comparison operator"
  | T_LPAREN => "'('"
  | T_RPAREN => "')'"
  | T_SEMICOLON => "';'"
  | T_INT => "'INT'"
  | T_FLOAT => "'FLOAT'"
  end.

(** ** Code generator *)

(** Modelled from the spec: the enumeration [Instruction] is declared in
    the missing [codegen.hpp].  Its constructors are the opcodes
    [parser.cpp] emits, with [NOP] for a reserved slot. *)
Inductive Instruction :=
| NOP | STOP | LOAD | STORE | PUSH | ADD | SUB | MULT | DIV | INVERT
| COMPARE | JUMP | JUMP_NO | INPUT | PRINT.

(** The operand of an instruction.  [emit] is overloaded on the operand:
    none, an [int], or a [float].  [Unspecified] is a value the language
    does not define: the [int] a caller reads from a call of
    [findVariable] that ended without a [return], and the result of a
    [static_cast<int>] whose operand does not fit an [int]. *)
Inductive Arg :=
| NoArg
| IntArg (z : Z)
| FloatArg (q : Q)
| Unspecified.

Record Command := mkCommand { instruction : Instruction; arg : Arg }.

(** Modelled from the spec: [codegen.hpp] is missing.  The emitter keeps
    the instruction sequence as an index-addressable buffer; [flush]
    serializes the whole buffer to the output sink, so [output_] holds one
    listing per call of [flush]. *)
Record CodeGen := mkCodeGen {
  commandBuffer_ : list Command;
  output_ : list (list Command)
}.

(** Modelled from the spec: the constructor of the missing [CodeGen]; the
    buffer starts empty and nothing has been written. *)
Definition CodeGen_new : CodeGen := mkCodeGen [] [].

(** Modelled from the spec: [CodeGen::emit] is missing; it appends one
    instruction to the sequence. *)
Definition emit (i : Instruction) (a : Arg) (g : CodeGen) : CodeGen :=
  mkCodeGen (commandBuffer_ g ++ [mkCommand i a]) (output_ g).

(** Modelled from the spec: [CodeGen::getCurrentAddress] is missing; it
    returns the address the next emitted instruction will occupy. *)
Definition getCurrentAddress (g : CodeGen) : Z :=
  Z.of_nat (length (commandBuffer_ g)).

(** Modelled from the spec: [CodeGen::reserve] is missing; it appends a
    placeholder instruction and returns its address. *)
Definition reserve (g : CodeGen) : Z * CodeGen :=
  (getCurrentAddress g, emit NOP NoArg g).

(** Modelled from the spec: [CodeGen::emitAt] is missing; it overwrites
    the instruction at [address] in place.  The parser only passes
    addresses it got from [reserve]; for any other address the model leaves
    the buffer as it is. *)
Definition emitAt (address : Z) (i : Instruction) (a : Arg) (g : CodeGen) : CodeGen :=
  if (0 <=? address)%Z
  then mkCodeGen (<[Z.to_nat address := mkCommand i a]> (commandBuffer_ g)) (output_ g)
  else g.

(** Modelled from the spec: [CodeGen::flush] is missing; it writes the
    full instruction sequence to the output. *)
Definition flush (g : CodeGen) : CodeGen :=
  mkCodeGen (commandBuffer_ g) (output_ g ++ [commandBuffer_ g]).

(** ** Parser state *)

(** [typedef std::pair<int, bool> Variable]: address and float flag. *)
Abbreviation Variable_ := (Z * bool)%type.

(** The members of [class Parser].  An [int] is modelled by an integer of
    [Z]; overflow of [int], which C++ leaves undefined, is not modelled.
    [cerr_] is the error stream the diagnostics go to, one entry (line,
    message) per line written.  [addVariableCalls_] is a history variable,
    not a member of the class: the (name, isFloat) arguments of the
    [addVariable] calls made so far, oldest first.  No function reads it. *)
Record Parser := mkParser {
  scanner_ : Scanner;
  codegen_ : CodeGen;
  error_ : bool;
  recovered_ : bool;
  variables_ : gmap string Variable_;
  lastVar_ : Variable_;
  isFloatCast : list bool;
  lastToken_ : Token;
  cerr_ : list (nat * string);
  addVariableCalls_ : list (string * bool)
}.

Definition with_scanner (s : Scanner) (p : Parser) : Parser :=
  mkParser s (codegen_ p) (error_ p) (recovered_ p) (variables_ p) (lastVar_ p)
    (isFloatCast p) (lastToken_ p) (cerr_ p) (addVariableCalls_ p).

Definition with_codegen (g : CodeGen) (p : Parser) : Parser :=
  mkParser (scanner_ p) g (error_ p) (recovered_ p) (variables_ p) (lastVar_ p)
    (isFloatCast p) (lastToken_ p) (cerr_ p) (addVariableCalls_ p).

Definition with_error (e : bool) (p : Parser) : Parser :=
  mkParser (scanner_ p) (codegen_ p) e (recovered_ p) (variables_ p) (lastVar_ p)
    (isFloatCast p) (lastToken_ p) (cerr_ p) (addVariableCalls_ p).

Definition with_variables (m : gmap string Variable_) (p : Parser) : Parser :=
  mkParser (scanner_ p) (codegen_ p) (error_ p) (recovered_ p) m (lastVar_ p)
    (isFloatCast p) (lastToken_ p) (cerr_ p) (addVariableCalls_ p).

Definition with_lastVar (v : Variable_) (p : Parser) : Parser :=
  mkParser (scanner_ p) (codegen_ p) (error_ p) (recovered_ p) (variables_ p) v
    (isFloatCast p) (lastToken_ p) (cerr_ p) (addVariableCalls_ p).

Definition with_isFloatCast (l : list bool) (p : Parser) : Parser :=
  mkParser (scanner_ p) (codegen_ p) (error_ p) (recovered_ p) (variables_ p) (lastVar_ p)
    l (lastToken_ p) (cerr_ p) (addVariableCalls_ p).

Definition with_lastToken (t : Token) (p : Parser) : Parser :=
  mkParser (scanner_ p) (codegen_ p) (error_ p) (recovered_ p) (variables_ p) (lastVar_ p)
    (isFloatCast p) t (cerr_ p) (addVariableCalls_ p).

Definition with_cerr (c : list (nat * string)) (p : Parser) : Parser :=
  mkParser (scanner_ p) (codegen_ p) (error_ p) (recovered_ p) (variables_ p) (lastVar_ p)
    (isFloatCast p) (lastToken_ p) c (addVariableCalls_ p).

Definition with_addVariableCalls (l : list (string * bool)) (p : Parser) : Parser :=
  mkParser (scanner_ p) (codegen_ p) (error_ p) (recovered_ p) (variables_ p) (lastVar_ p)
    (isFloatCast p) (lastToken_ p) (cerr_ p) l.

(** ** Inline methods of [parser.hpp] *)

Definition see (t : Token) (p : Parser) : bool :=
  bool_decide (token (scanner_ p) = t).

Definition match_ (t : Token) (p : Parser) : bool * Parser :=
  if bool_decide (token (scanner_ p) = t)
  then (true, with_scanner (nextToken (scanner_ p)) p)
  else (false, p).

Definition next (p : Parser) : Parser :=
  with_scanner (nextToken (scanner_ p))
    (with_lastToken (token (scanner_ p)) p).

Definition reportError (message : string) (p : Parser) : Parser :=
  with_error true
    (with_cerr (cerr_ p ++ [(getLineNumber (scanner_ p), message)]) p).

(** The calls the parser makes on [codegen_]. *)
Definition cg_emit (i : Instruction) (a : Arg) (p : Parser) : Parser :=
  with_codegen (emit i a (codegen_ p)) p.

Definition cg_reserve (p : Parser) : Z * Parser :=
  (fst (reserve (codegen_ p)), with_codegen (snd (reserve (codegen_ p))) p).

Definition cg_emitAt (address : Z) (i : Instruction) (a : Arg) (p : Parser) : Parser :=
  with_codegen (emitAt address i a (codegen_ p)) p.

Definition cg_flush (p : Parser) : Parser :=
  with_codegen (flush (codegen_ p)) p.

(** The constructor: no error, [lastVar_] is (0, false), then one call of
    [next], which copies the token of the new scanner into [lastToken_]. *)
Definition Parser_new (s : Scanner) : Parser :=
  next (mkParser s CodeGen_new false true ∅ (0, false) [] T_EOF [] []).

(** ** [parser.cpp]: the methods without recursion *)

(** The loop of [recover]: [while (!see(t) && !see(T_EOF)) next();].  Every
    turn reads one lexeme, so the loop ends within as many turns as there
    are unread lexemes plus one; [n] counts the turns left. *)
Fixpoint recover_loop (n : nat) (t : Token) (p : Parser) : Parser :=
  match n with
  | O => p
  | S n' =>
      if negb (see t p) && negb (see T_EOF p)
      then recover_loop n' t (next p)
      else p
  end.

Definition recover (t : Token) (p : Parser) : Parser :=
  let p := recover_loop (S (length (input_ (scanner_ p)))) t p in
  if see t p then next p else p.

Definition mustBe (t : Token) (p : Parser) : Parser :=
  let (m, p) := match_ t p in
  if negb m then
    let p := with_error true p in
    let msg := tokenToString (token (scanner_ p)) ++ " found while "
               ++ tokenToString t ++ " expected." in
    let p := reportError msg p in
    recover t p
  else p.

(** The [int] a caller gets from [findVariable]: the value returned, or
    nothing when the function ran off its end. *)
Definition intArg (o : option Z) : Arg :=
  match o with
  | Some z => IntArg z
  | None => Unspecified
  end.

Definition findVariable (var : string) (p : Parser) : option Z * Parser :=
  match variables_ p !! var with
  | None =>
      (None, reportError ("Variable '" ++ var ++ "' has not been declared.") p)
  | Some v => (Some (fst v), p)
  end.

Definition addVariable (var : string) (isFloat : bool) (p : Parser) : Z * Parser :=
  let p := with_addVariableCalls (addVariableCalls_ p ++ [(var, isFloat)]) p in
  let p :=
    match variables_ p !! var with
    | None =>
        let p := with_lastVar (fst (lastVar_ p), isFloat) p in
        with_variables (<[var := lastVar_ p]> (variables_ p)) p
    | Some _ =>
        reportError ("Variable '" ++ var ++ "' has been already declared.") p
    end in
  (fst (lastVar_ p), with_lastVar (fst (lastVar_ p) + 1, snd (lastVar_ p)) p).

(** [static_cast<int>] of a floating-point value: the value truncated
    towards zero if that is an [int] (32 bits); if it is not, the
    conversion has no defined result. *)
Definition int_of_float (q : Q) : option Z :=
  let z := Z.quot (Qnum q) (Z.pos (Qden q)) in
  if (- 2 ^ 31 <=? z)%Z && (z <? 2 ^ 31)%Z then Some z else None.

(** [static_cast<float>] of an [int]: the nearest value with a significand
    of 24 bits, and of two nearest ones the one with an even significand
    (IEEE 754 single precision, round to nearest even).  Up to 2^24 in
    magnitude the value is kept; an [int] is never out of the range of
    [float]. *)
Definition float_of_int (z : Z) : Q :=
  let a := Z.abs z in
  if (a <? 2 ^ 24)%Z then inject_Z z
  else
    let e := (Z.log2 a - 23)%Z in
    let q := (a / 2 ^ e)%Z in
    let r := (a mod 2 ^ e)%Z in
    let half := (2 ^ (e - 1))%Z in
    let q' :=
      if (r <? half)%Z then q
      else if (half <? r)%Z then (q + 1)%Z
      else if Z.even q then q else (q + 1)%Z in
    inject_Z (Z.sgn z * (q' * 2 ^ e)).

(** The [float] pushed for a value that may be undefined. *)
Definition floatArg (o : option Q) : Arg :=
  match o with
  | Some q => FloatArg q
  | None => Unspecified
  end.

(** Is the current token an arithmetic or comparison operator? *)
Definition seeOperator (p : Parser) : bool :=
  see T_ADDOP p || see T_MULOP p || see T_CMP p.

(** The [COMPARE] operand chosen by the [switch] in [relation]. *)
Definition cmpCode (c : Cmp) : Z :=
  match c with
  | C_EQ => 0
  | C_NE => 1
  | C_LT => 2
  | C_GT => 3
  | C_LE => 4
  | C_GE => 5
  end.

(** ** [parser.cpp]: the grammar procedures *)

(** A grammar procedure returns [None] when it runs out of fuel. *)
Notation "'do' x <- e1 ; e2" :=
  (match e1 with Some x => e2 | None => None end)
  (at level 10, x name, e1 at level 100, e2 at level 200, only parsing).

(** The branch of [factor] for an integer-form literal, after [next]. *)
Definition factor_number (p : Parser) : Parser :=
  let p :=
    if seeOperator p then
      if negb (bool_decide (isFloatCast p = [])) then
        if default false (head (isFloatCast p))
        then cg_emit PUSH (FloatArg (float_of_int (getIntValue (scanner_ p)))) p
        else p
      else cg_emit PUSH (IntArg (getIntValue (scanner_ p))) p
    else if snd (lastVar_ p)
    then cg_emit PUSH (FloatArg (float_of_int (getIntValue (scanner_ p)))) p
    else cg_emit PUSH (IntArg (getIntValue (scanner_ p))) p in
  with_isFloatCast [] p.

(** [any_of(isFloatCast.begin(), isFloatCast.end(), [](bool s) { return !s; })] *)
Definition anyIntCast (p : Parser) : bool := existsb negb (isFloatCast p).

(** The branch of [factor] for a float-form literal read while
    [lastToken_] is no operator, after [next]. *)
Definition factor_rnumber (p : Parser) : Parser :=
  let p :=
    if seeOperator p then
      if negb (bool_decide (isFloatCast p = [])) then
        if anyIntCast p then
          let val := int_of_float (getFloatValue (scanner_ p)) in
          if default false (head (isFloatCast p))
          then cg_emit PUSH (floatArg (float_of_int <$> val)) p
          else cg_emit PUSH (intArg val) p
        else p
      else cg_emit PUSH (FloatArg (getFloatValue (scanner_ p))) p
    else if snd (lastVar_ p) then
      if anyIntCast p then
        let val := int_of_float (getFloatValue (scanner_ p)) in
        cg_emit PUSH (floatArg (float_of_int <$> val)) p
      else cg_emit PUSH (FloatArg (getFloatValue (scanner_ p))) p
    else cg_emit PUSH (intArg (int_of_float (getFloatValue (scanner_ p)))) p in
  with_isFloatCast [] p.

(** [lastToken_ == T_MULOP || lastToken_ == T_ADDOP || lastToken_ == T_CMP] *)
Definition afterOperator (p : Parser) : bool :=
  bool_decide (lastToken_ p = T_MULOP) || bool_decide (lastToken_ p = T_ADDOP)
  || bool_decide (lastToken_ p = T_CMP).

Fixpoint expression (fuel : nat) (p : Parser) {struct fuel} : option Parser :=
  match fuel with
  | O => None
  | S fuel =>
      do p <- term fuel p;
      expression_loop fuel p
  end

(** [while (see(T_ADDOP)) { ... }] in [expression] *)
with expression_loop (fuel : nat) (p : Parser) {struct fuel} : option Parser :=
  match fuel with
  | O => None
  | S fuel =>
      if see T_ADDOP p then
        let op := getArithmeticValue (scanner_ p) in
        let p := next p in
        do p <- term fuel p;
        let p := if bool_decide (op = A_PLUS)
                 then cg_emit ADD NoArg p
                 else cg_emit SUB NoArg p in
        expression_loop fuel p
      else Some p
  end

with term (fuel : nat) (p : Parser) {struct fuel} : option Parser :=
  match fuel with
  | O => None
  | S fuel =>
      do p <- factor fuel p;
      term_loop fuel p
  end

(** [while (see(T_MULOP)) { ... }] in [term] *)
with term_loop (fuel : nat) (p : Parser) {struct fuel} : option Parser :=
  match fuel with
  | O => None
  | S fuel =>
      if see T_MULOP p then
        let op := getArithmeticValue (scanner_ p) in
        let p := next p in
        do p <- factor fuel p;
        let p := if bool_decide (op = A_MULTIPLY)
                 then cg_emit MULT NoArg p
                 else cg_emit DIV NoArg p in
        term_loop fuel p
      else Some p
  end

with factor (fuel : nat) (p : Parser) {struct fuel} : option Parser :=
  match fuel with
  | O => None
  | S fuel =>
      if see T_NUMBER p then
        Some (factor_number (next p))
      else if see T_RNUMBER p then
        if afterOperator p then
          let p := cg_emit PUSH (FloatArg (getFloatValue (scanner_ p))) p in
          Some (next p)
        else
          Some (factor_rnumber (next p))
      else if see T_IDENTIFIER p then
        let (varAddress, p) := findVariable (getStringValue (scanner_ p)) p in
        let p := next p in
        Some (cg_emit LOAD (intArg varAddress) p)
      else if see T_ADDOP p
              && bool_decide (getArithmeticValue (scanner_ p) = A_MINUS) then
        let p := next p in
        do p <- factor fuel p;
        Some (cg_emit INVERT NoArg p)
      else
      let (m, p) := match_ T_LPAREN p in
      if m then
        if see T_INT p then
          let p := next p in
          let p := with_isFloatCast (isFloatCast p ++ [false]) p in
          let p := mustBe T_RPAREN p in
          expression fuel p
        else if see T_FLOAT p then
          let p := next p in
          let p := with_isFloatCast (isFloatCast p ++ [true]) p in
          let p := mustBe T_RPAREN p in
          expression fuel p
        else
          let p := with_isFloatCast [] p in
          do p <- expression fuel p;
          Some (mustBe T_RPAREN p)
      else
      let (m, p) := match_ T_READ p in
      if m then Some (cg_emit INPUT NoArg p)
      else Some (reportError "expression expected." p)
  end.

Definition relation (fuel : nat) (p : Parser) : option Parser :=
  do p <- expression fuel p;
  if see T_CMP p then
    let cmp := getCmpValue (scanner_ p) in
    let p := next p in
    do p <- expression fuel p;
    Some (cg_emit COMPARE (IntArg (cmpCode cmp)) p)
  else
    Some (reportError "comparison operator expected." p).

Fixpoint statementList (fuel : nat) (p : Parser) {struct fuel} : option Parser :=
  match fuel with
  | O => None
  | S fuel =>
      if see T_END p || see T_OD p || see T_ELSE p || see T_FI p
      then Some p
      else statementList_loop fuel p
  end

(** [while (more) { statement(); more = match(T_SEMICOLON); }] *)
with statementList_loop (fuel : nat) (p : Parser) {struct fuel} : option Parser :=
  match fuel with
  | O => None
  | S fuel =>
      do p <- statement fuel p;
      let (more, p) := match_ T_SEMICOLON p in
      if more then statementList_loop fuel p else Some p
  end

with statement (fuel : nat) (p : Parser) {struct fuel} : option Parser :=
  match fuel with
  | O => None
  | S fuel =>
      let (m, p) := match_ T_INT p in
      if m then
        let p := mustBe T_IDENTIFIER p in
        let (varAddress, p) := addVariable (getStringValue (scanner_ p)) false p in
        let p := mustBe T_ASSIGN p in
        do p <- expression fuel p;
        Some (cg_emit STORE (IntArg varAddress) p)
      else
      let (m, p) := match_ T_FLOAT p in
      if m then
        let p := mustBe T_IDENTIFIER p in
        let (varAddress, p) := addVariable (getStringValue (scanner_ p)) true p in
        let p := mustBe T_ASSIGN p in
        do p <- expression fuel p;
        Some (cg_emit STORE (IntArg varAddress) p)
      else
      let (m, p) := match_ T_IDENTIFIER p in
      if m then
        let (varAddress, p) := findVariable (getStringValue (scanner_ p)) p in
        let p := mustBe T_ASSIGN p in
        do p <- expression fuel p;
        Some (cg_emit STORE (intArg varAddress) p)
      else
      let (m, p) := match_ T_IF p in
      if m then
        do p <- relation fuel p;
        let (jumpNoAddress, p) := cg_reserve p in
        let p := mustBe T_THEN p in
        do p <- statementList fuel p;
        let (m, p) := match_ T_ELSE p in
        if m then
          let (jumpAddress, p) := cg_reserve p in
          let p := cg_emitAt jumpNoAddress JUMP_NO
                     (IntArg (getCurrentAddress (codegen_ p))) p in
          do p <- statementList fuel p;
          let p := cg_emitAt jumpAddress JUMP
                     (IntArg (getCurrentAddress (codegen_ p))) p in
          Some (mustBe T_FI p)
        else
          let p := cg_emitAt jumpNoAddress JUMP_NO
                     (IntArg (getCurrentAddress (codegen_ p))) p in
          Some (mustBe T_FI p)
      else
      let (m, p) := match_ T_WHILE p in
      if m then
        let conditionAddress := getCurrentAddress (codegen_ p) in
        do p <- relation fuel p;
        let (jumpNoAddress, p) := cg_reserve p in
        let p := mustBe T_DO p in
        do p <- statementList fuel p;
        let p := mustBe T_OD p in
        let p := cg_emit JUMP (IntArg conditionAddress) p in
        Some (cg_emitAt jumpNoAddress JUMP_NO
                (IntArg (getCurrentAddress (codegen_ p))) p)
      else
      let (m, p) := match_ T_WRITE p in
      if m then
        let p := mustBe T_LPAREN p in
        do p <- expression fuel p;
        let p := mustBe T_RPAREN p in
        Some (cg_emit PRINT NoArg p)
      else
        Some (reportError "statement expected." p)
  end.

Definition program (fuel : nat) (p : Parser) : option Parser :=
  let p := mustBe T_BEGIN p in
  do p <- statementList fuel p;
  let p := mustBe T_END p in
  Some (cg_emit STOP NoArg p).

Definition parse (fuel : nat) (p : Parser) : option Parser :=
  do p <- program fuel p;
  if negb (error_ p) then Some (cg_flush p) else Some p.

(** ** Running the parser on a source text *)

(** What the scanner has not consumed yet, the current token included. *)
Definition unread (s : Scanner) : nat :=
  (length (input_ s) + (if bool_decide (token s = T_EOF) then 0 else 1))%nat.

Definition pending (p : Parser) : nat := unread (scanner_ p).

(** Fuel that is enough for any grammar procedure on [p]. *)
Definition enough (p : Parser) : nat := (3 * pending p + 3)%nat.

(** A source text whose lexemes are all on line 1. *)
Definition source (l : list Lexeme) : list (nat * Lexeme) :=
  map (fun x => (1%nat, x)) l.

Definition compile (l : list Lexeme) : option Parser :=
  let p := Parser_new (Scanner_new (source l)) in
  parse (enough p) p.

Definition code (p : Parser) : list Command := commandBuffer_ (codegen_ p).

Definition kw : Token -> Lexeme := LexPlain.
Definition ident : string -> Lexeme := LexIdentifier.

Close Scope string_scope.

(** ** What the properties are stated with *)

(** The error flag is set exactly when a diagnostic has been written. *)
Definition error_recorded (p : Parser) : Prop :=
  error_ p = true <-> cerr_ p <> [].

(** The symbol table against the history of [addVariable] calls: the
    counter in [lastVar_] is the number of calls made, and a name is bound
    to (a, f) exactly when call number a was the first one for that name
    and asked for float flag f. *)
Definition vars_ok (p : Parser) : Prop :=
  fst (lastVar_ p) = Z.of_nat (length (addVariableCalls_ p)) /\
  forall v a f,
    variables_ p !! v = Some (a, f) <->
    exists i : nat,
      a = Z.of_nat i /\ addVariableCalls_ p !! i = Some (v, f) /\
      v ∉ (take i (addVariableCalls_ p)).*1.

(** [frame p p'] relates a state to a later one: nothing is put back into
    the token stream, the error flag is never cleared, diagnostics and
    [addVariable] calls only accumulate, nothing is flushed, the
    instructions already in the buffer stay as they are, and bindings are
    never changed or removed. *)
Record frame (p p' : Parser) : Prop := mkFrame {
  fr_pending : (pending p' <= pending p)%nat;
  fr_error : error_recorded p -> error_recorded p';
  fr_error_mono : error_ p = true -> error_ p' = true;
  fr_cerr : cerr_ p `prefix_of` cerr_ p';
  fr_output : output_ (codegen_ p') = output_ (codegen_ p);
  fr_length : (length (code p) <= length (code p'))%nat;
  fr_code : forall i : nat, (i < length (code p))%nat -> code p' !! i = code p !! i;
  fr_vars_ok : vars_ok p -> vars_ok p';
  fr_variables : variables_ p ⊆ variables_ p';
  fr_calls : addVariableCalls_ p `prefix_of` addVariableCalls_ p'
}.

(** The symbol table, the counter and the history change only in
    [addVariable]. *)
Definition same_table (p q : Parser) : Prop :=
  variables_ q = variables_ p /\ lastVar_ q = lastVar_ p /\
  addVariableCalls_ q = addVariableCalls_ p.

(** The addresses in use have no gap: below the address of a variable
    every address is the address of some variable. *)
Definition no_gaps (p : Parser) : Prop :=
  forall v a f,
    variables_ p !! v = Some (a, f) ->
    forall b, 0 <= b < a -> exists w g, variables_ p !! w = Some (b, g).

(** Among the calls for the names [l], made after calls for the names
    [seen]: the names declared for the first time, in order, and the number
    of calls that repeat a name. *)
Fixpoint first_declarations (seen l : list string) : list string :=
  match l with
  | [] => []
  | v :: l' =>
      (if bool_decide (v ∈ seen) then [] else [v])
      ++ first_declarations (v :: seen) l'
  end.

Fixpoint redeclarations (seen l : list string) : nat :=
  match l with
  | [] => 0
  | v :: l' =>
      ((if bool_decide (v ∈ seen) then 1 else 0) + redeclarations (v :: seen) l')%nat
  end.

(** ** Source texts and parser states of the examples *)

(** A parser in which "x" is declared as an [int] at address 0, and the
    same with the source text [int x = 2] to parse. *)
Definition declared_x : Parser :=
  snd (addVariable "x" false (Parser_new (Scanner_new []))).

Definition redeclare_x : Parser :=
  with_scanner
    (nextToken (Scanner_new (source [kw T_INT; ident "x"; kw T_ASSIGN; LexNumber 2])))
    declared_x.

(** "x" is declared and "y" is not; the source text is the single
    identifier "y", or the assignment [y = 1]. *)
Definition at_y : Parser :=
  with_variables (variables_ declared_x) (Parser_new (Scanner_new (source [ident "y"]))).

Definition assign_y : Parser :=
  with_variables (variables_ declared_x)
    (Parser_new (Scanner_new (source [ident "y"; kw T_ASSIGN; LexNumber 1]))).

(** [begin int x = (float) 3; write(x) end] *)
Definition prog_float_cast : list Lexeme :=
  [kw T_BEGIN; kw T_INT; ident "x"; kw T_ASSIGN;
   kw T_LPAREN; kw T_FLOAT; kw T_RPAREN; LexNumber 3; kw T_SEMICOLON;
   kw T_WRITE; kw T_LPAREN; ident "x"; kw T_RPAREN; kw T_END].

(** The parser at the literal of [(float) 3;] with the cast pending and an
    [int] variable declared last. *)
Definition at_cast_literal : Parser :=
  with_isFloatCast [true]
    (Parser_new (Scanner_new (source [LexNumber 3; kw T_SEMICOLON]))).

(** [begin if 1 = 2 then write(1) else write(2) fi end] *)
Definition prog_if_else : list Lexeme :=
  [kw T_BEGIN; kw T_IF; LexNumber 1; LexCmp C_EQ; LexNumber 2; kw T_THEN;
   kw T_WRITE; kw T_LPAREN; LexNumber 1; kw T_RPAREN; kw T_ELSE;
   kw T_WRITE; kw T_LPAREN; LexNumber 2; kw T_RPAREN; kw T_FI; kw T_END].

(** The parser of [prog_if_else] at the [if], after the condition and
    after the [then] branch. *)
Definition if_else_start : Parser :=
  mustBe T_BEGIN (Parser_new (Scanner_new (source prog_if_else))).

Definition if_else_cond : Parser :=
  default if_else_start
    (relation (enough if_else_start) (snd (match_ T_IF if_else_start))).

Definition if_else_then : Parser :=
  default if_else_start
    (statementList (enough if_else_start)
       (mustBe T_THEN (snd (cg_reserve if_else_cond)))).

(** [begin int x = 1; while x < 5 do x = x + 1 od; write(x) end] *)
Definition prog_while : list Lexeme :=
  [kw T_BEGIN; kw T_INT; ident "x"; kw T_ASSIGN; LexNumber 1; kw T_SEMICOLON;
   kw T_WHILE; ident "x"; LexCmp C_LT; LexNumber 5; kw T_DO;
   ident "x"; kw T_ASSIGN; ident "x"; LexAddop A_PLUS; LexNumber 1; kw T_OD;
   kw T_SEMICOLON;
   kw T_WRITE; kw T_LPAREN; ident "x"; kw T_RPAREN; kw T_END].

(** The parser of [prog_while] at the [while]. *)
Definition while_begin : Parser :=
  mustBe T_BEGIN (Parser_new (Scanner_new (source prog_while))).

Definition while_start : Parser :=
  snd (match_ T_SEMICOLON
         (default while_begin (statement (enough while_begin) while_begin))).

(** [begin int x = (int) read + 2.5 end] *)
Definition prog_pending_cast : list Lexeme :=
  [kw T_BEGIN; kw T_INT; ident "x"; kw T_ASSIGN;
   kw T_LPAREN; kw T_INT; kw T_RPAREN; kw T_READ; LexAddop A_PLUS;
   LexRNumber (5 # 2); kw T_END].

(** [begin int x = (int) read + 2.5; x = 3 + 1 end] *)
Definition prog_cast_leak : list Lexeme :=
  [kw T_BEGIN; kw T_INT; ident "x"; kw T_ASSIGN;
   kw T_LPAREN; kw T_INT; kw T_RPAREN; kw T_READ; LexAddop A_PLUS;
   LexRNumber (5 # 2); kw T_SEMICOLON;
   ident "x"; kw T_ASSIGN; LexNumber 3; LexAddop A_PLUS; LexNumber 1; kw T_END].





(** [begin int x = 1; int x = 2; float y = 3 end] *)
Definition prog_redeclare : list Lexeme :=
  [kw T_BEGIN; kw T_INT; ident "x"; kw T_ASSIGN; LexNumber 1; kw T_SEMICOLON;
   kw T_INT; ident "x"; kw T_ASSIGN; LexNumber 2; kw T_SEMICOLON;
   kw T_FLOAT; ident "y"; kw T_ASSIGN; LexNumber 3; kw T_END].

(** ** What the further properties are stated with *)

(** The instructions an expression compiles to. *)
Definition arithmetic (c : Command) : bool :=
  match instruction c with
  | PUSH | LOAD | ADD | SUB | MULT | DIV | INVERT | INPUT => true
  | _ => false
  end.

(** The address of a LOAD is that of a variable of the table [vars], or
    the operand is the unspecified value [findVariable] leaves for a name
    that is not declared. *)
Definition loads_from (vars : gmap string (Z * bool)) (c : Command) : Prop :=
  instruction c = LOAD ->
  arg c = Unspecified \/ exists x v, vars !! x = Some v /\ arg c = IntArg (fst v).

(** [appends p p'] relates a state to a later one when the steps between
    them only appended arithmetic instructions to the buffer, every LOAD
    with an address from the symbol table, and left the symbol table, the
    counter and the output alone. *)
Record appends (p p' : Parser) : Prop := mkAppends {
  ap_code : exists l, code p' = code p ++ l /\ forallb arithmetic l = true
                      /\ Forall (loads_from (variables_ p)) l;
  ap_table : same_table p p';
  ap_output : output_ (codegen_ p') = output_ (codegen_ p)
}.

(** A LOAD or STORE uses an address from 0 to [n - 1], if it has one. *)
Definition allocated (n : Z) (c : Command) : Prop :=
  instruction c = LOAD \/ instruction c = STORE ->
  arg c = Unspecified \/ exists a, arg c = IntArg a /\ 0 <= a < n.

(** The addresses of the table and of the buffer are below the counter of
    [lastVar_]. *)
Definition addresses_ok (p : Parser) : Prop :=
  0 <= fst (lastVar_ p) /\
  (forall x v, variables_ p !! x = Some v -> 0 <= fst v < fst (lastVar_ p)) /\
  Forall (allocated (fst (lastVar_ p))) (code p).

(** An instruction is in its final form for a buffer of [n] instructions:
    it is no placeholder, and if it is a jump its target is an address from
    0 to [n]. *)
Definition good (n : nat) (c : Command) : Prop :=
  instruction c <> NOP /\
  (instruction c = JUMP \/ instruction c = JUMP_NO ->
   exists t : nat, arg c = IntArg (Z.of_nat t) /\ (t <= n)%nat).

(** Every instruction of [l] is in its final form, but for the addresses of
    [holes], which are reserved and not patched yet. *)
Definition tidy (holes : nat -> Prop) (l : list Command) : Prop :=
  forall (i : nat) c, l !! i = Some c -> ~ holes i -> good (length l) c.

(** [settles p p']: the buffer did not shrink from [p] to [p'], and what
    was reserved in between has been patched: the placeholders left in [p']
    are among those of [p]. *)
Definition settles (p p' : Parser) : Prop :=
  (length (code p) <= length (code p'))%nat /\
  forall holes, tidy holes (code p) -> tidy holes (code p').

(** *** Expressions as trees *)

(** The grammar of [factor], [term] and [expression], without casts and
    floating-point literals: what follows the first factor of a term, or
    the first term of an expression, is a list of operators with their
    right operands. *)
Inductive AddOp := Plus | Minus.

Inductive MulOp := Times | Divide.

Inductive Factor : Type :=
| FNumber (n : Z)
| FIdentifier (x : string)
| FRead
| FMinus (f : Factor)
| FParen (e : Expression)
with Term : Type :=
| MkTerm (f : Factor) (fs : TermTail)
with TermTail : Type :=
| TNil
| TCons (op : MulOp) (f : Factor) (fs : TermTail)
with Expression : Type :=
| MkExpression (t : Term) (ts : ExpressionTail)
with ExpressionTail : Type :=
| ENil
| ECons (op : AddOp) (t : Term) (ts : ExpressionTail).

Definition addop_value (op : AddOp) : Arithmetic :=
  match op with Plus => A_PLUS | Minus => A_MINUS end.

Definition mulop_value (op : MulOp) : Arithmetic :=
  match op with Times => A_MULTIPLY | Divide => A_DIVIDE end.

(** The lexemes of a tree, all on line [ln]. *)
Fixpoint tokens_factor (ln : nat) (f : Factor) : list (nat * Lexeme) :=
  match f with
  | FNumber n => [(ln, LexNumber n)]
  | FIdentifier x => [(ln, LexIdentifier x)]
  | FRead => [(ln, LexPlain T_READ)]
  | FMinus f => (ln, LexAddop A_MINUS) :: tokens_factor ln f
  | FParen e =>
      (ln, LexPlain T_LPAREN) :: tokens_expression ln e ++ [(ln, LexPlain T_RPAREN)]
  end
with tokens_term (ln : nat) (t : Term) : list (nat * Lexeme) :=
  match t with
  | MkTerm f fs => tokens_factor ln f ++ tokens_termtail ln fs
  end
with tokens_termtail (ln : nat) (fs : TermTail) : list (nat * Lexeme) :=
  match fs with
  | TNil => []
  | TCons op f fs =>
      (ln, LexMulop (mulop_value op)) :: tokens_factor ln f ++ tokens_termtail ln fs
  end
with tokens_expression (ln : nat) (e : Expression) : list (nat * Lexeme) :=
  match e with
  | MkExpression t ts => tokens_term ln t ++ tokens_expressiontail ln ts
  end
with tokens_expressiontail (ln : nat) (ts : ExpressionTail) : list (nat * Lexeme) :=
  match ts with
  | ENil => []
  | ECons op t ts =>
      (ln, LexAddop (addop_value op)) :: tokens_term ln t ++ tokens_expressiontail ln ts
  end.

(** Does an operator follow a factor that is followed by [fs], or a term
    that is followed by [ts]?  [follow] tells it for what comes after. *)
Definition after_factor (fs : TermTail) (follow : bool) : bool :=
  match fs with TNil => follow | TCons _ _ _ => true end.

Definition after_term (ts : ExpressionTail) (follow : bool) : bool :=
  match ts with ENil => follow | ECons _ _ _ => true end.

(** The instructions for a tree, in the order of evaluation on the stack.
    [vars] is the symbol table, [ctx] the float flag of the variable
    declared last, and [follow] tells whether an operator follows the
    tree. *)
Fixpoint code_factor (vars : gmap string (Z * bool)) (ctx follow : bool)
    (f : Factor) : list Command :=
  match f with
  | FNumber n =>
      [mkCommand PUSH
         (if follow then IntArg n
          else if ctx then FloatArg (float_of_int n) else IntArg n)]
  | FIdentifier x => [mkCommand LOAD (intArg (fst <$> vars !! x))]
  | FRead => [mkCommand INPUT NoArg]
  | FMinus f => code_factor vars ctx follow f ++ [mkCommand INVERT NoArg]
  | FParen e => code_expression vars ctx false e
  end
with code_term (vars : gmap string (Z * bool)) (ctx follow : bool)
    (t : Term) : list Command :=
  match t with
  | MkTerm f fs =>
      code_factor vars ctx (after_factor fs follow) f
      ++ code_termtail vars ctx follow fs
  end
with code_termtail (vars : gmap string (Z * bool)) (ctx follow : bool)
    (fs : TermTail) : list Command :=
  match fs with
  | TNil => []
  | TCons op f fs =>
      code_factor vars ctx (after_factor fs follow) f
      ++ [mkCommand (match op with Times => MULT | Divide => DIV end) NoArg]
      ++ code_termtail vars ctx follow fs
  end
with code_expression (vars : gmap string (Z * bool)) (ctx follow : bool)
    (e : Expression) : list Command :=
  match e with
  | MkExpression t ts =>
      code_term vars ctx (after_term ts follow) t
      ++ code_expressiontail vars ctx follow ts
  end
with code_expressiontail (vars : gmap string (Z * bool)) (ctx follow : bool)
    (ts : ExpressionTail) : list Command :=
  match ts with
  | ENil => []
  | ECons op t ts =>
      code_term vars ctx (after_term ts follow) t
      ++ [mkCommand (match op with Plus => ADD | Minus => SUB end) NoArg]
      ++ code_expressiontail vars ctx follow ts
  end.

(** Every identifier of the tree is in the symbol table, and every
    literal is an [int] that is not negative: from 0 to 2^31 - 1. *)
Fixpoint wf_factor (vars : gmap string (Z * bool)) (f : Factor) : bool :=
  match f with
  | FNumber n => bool_decide (0 <= n <= 2147483647)
  | FRead => true
  | FIdentifier x => bool_decide (is_Some (vars !! x))
  | FMinus f => wf_factor vars f
  | FParen e => wf_expression vars e
  end
with wf_term (vars : gmap string (Z * bool)) (t : Term) : bool :=
  match t with
  | MkTerm f fs => wf_factor vars f && wf_termtail vars fs
  end
with wf_termtail (vars : gmap string (Z * bool)) (fs : TermTail) : bool :=
  match fs with
  | TNil => true
  | TCons _ f fs => wf_factor vars f && wf_termtail vars fs
  end
with wf_expression (vars : gmap string (Z * bool)) (e : Expression) : bool :=
  match e with
  | MkExpression t ts => wf_term vars t && wf_expressiontail vars ts
  end
with wf_expressiontail (vars : gmap string (Z * bool))
    (ts : ExpressionTail) : bool :=
  match ts with
  | ENil => true
  | ECons _ t ts => wf_term vars t && wf_expressiontail vars ts
  end.

(** The token of a lexeme, and the token the scanner shows when [l] is
    what it has to read. *)
Definition lexeme_token (lx : Lexeme) : Token :=
  match lx with
  | LexPlain t => t
  | LexIdentifier _ => T_IDENTIFIER
  | LexNumber _ => T_NUMBER
  | LexRNumber _ => T_RNUMBER
  | LexAddop _ => T_ADDOP
  | LexMulop _ => T_MULOP
  | LexCmp _ => T_CMP
  end.

Definition head_token (l : list (nat * Lexeme)) : Token :=
  match l with
  | [] => T_EOF
  | x :: _ => lexeme_token (snd x)
  end.

(** The parser is about to read [l]: its current token is the first lexeme
    of [l], read by [nextToken], and the rest of [l] is the unread input. *)
Definition reading (l : list (nat * Lexeme)) (p : Parser) : Prop :=
  exists s0, input_ s0 = l /\ scanner_ p = nextToken s0.

(** [l] starts with an arithmetic or comparison operator; [l] starts with
    an integer-form literal. *)
Definition operator_follows (l : list (nat * Lexeme)) : bool :=
  bool_decide (head_token l = T_ADDOP) || bool_decide (head_token l = T_MULOP)
  || bool_decide (head_token l = T_CMP).

Definition number_follows (l : list (nat * Lexeme)) : bool :=
  match l with
  | (_, LexNumber _) :: _ => true
  | _ => false
  end.

(** [parsed p p' rest cs]: from [p] the parser got to [p'] by reading up to
    [rest] and appending [cs], without a diagnostic, and with the coercion
    context empty at the end. *)
Record parsed (p p' : Parser) (rest : list (nat * Lexeme))
    (cs : list Command) : Prop := mkParsed {
  pa_reading : reading rest p';
  pa_code : code p' = code p ++ cs;
  pa_cerr : cerr_ p' = cerr_ p;
  pa_error : error_ p' = error_ p;
  pa_cast : isFloatCast p' = [];
  pa_table : same_table p p';
  pa_output : output_ (codegen_ p') = output_ (codegen_ p)
}.

(** What may come after an expression: no [+], [-], [*], [/] and no
    integer-form literal. *)
Definition ends_expression (rest : list (nat * Lexeme)) : bool :=
  negb (bool_decide (head_token rest = T_ADDOP))
  && negb (bool_decide (head_token rest = T_MULOP))
  && negb (number_follows rest).

(** [2 * (x + read) - -3], to be read with "x" declared and [;] after it. *)
Definition sample_expression : Expression :=
  MkExpression
    (MkTerm (FNumber 2)
       (TCons Times
          (FParen (MkExpression (MkTerm (FIdentifier "x") TNil)
                     (ECons Plus (MkTerm FRead TNil) ENil)))
          TNil))
    (ECons Minus (MkTerm (FMinus (FNumber 3)) TNil) ENil).

Definition at_sample_expression : Parser :=
  with_variables (variables_ declared_x)
    (Parser_new
       (Scanner_new (tokens_expression 1 sample_expression
                     ++ [(1%nat, LexPlain T_SEMICOLON)]))).

(** *** Statements as trees *)

(** The grammar of [statement] and [statementList], over the expressions
    above; an [if] comes with or without [else]. *)
Inductive Statement : Type :=
| SDeclare (isFloat : bool) (x : string) (e : Expression)
| SAssign (x : string) (e : Expression)
| SIf (l : Expression) (c : Cmp) (r : Expression) (body : StatementList)
| SIfElse (l : Expression) (c : Cmp) (r : Expression)
    (body : StatementList) (other : StatementList)
| SWhile (l : Expression) (c : Cmp) (r : Expression) (body : StatementList)
| SWrite (e : Expression)
with StatementList : Type :=
| SEmpty
| SSeq (s : Statement) (ss : StatementTail)
with StatementTail : Type :=
| SDone
| SMore (s : Statement) (ss : StatementTail).

Fixpoint tokens_statement (ln : nat) (s : Statement) : list (nat * Lexeme) :=
  match s with
  | SDeclare isFloat x e =>
      (ln, LexPlain (if isFloat then T_FLOAT else T_INT))
      :: (ln, LexIdentifier x) :: (ln, LexPlain T_ASSIGN) :: tokens_expression ln e
  | SAssign x e =>
      (ln, LexIdentifier x) :: (ln, LexPlain T_ASSIGN) :: tokens_expression ln e
  | SIf l c r body =>
      (ln, LexPlain T_IF) :: tokens_expression ln l
      ++ (ln, LexCmp c) :: tokens_expression ln r
      ++ (ln, LexPlain T_THEN) :: tokens_statementList ln body
      ++ [(ln, LexPlain T_FI)]
  | SIfElse l c r body other =>
      (ln, LexPlain T_IF) :: tokens_expression ln l
      ++ (ln, LexCmp c) :: tokens_expression ln r
      ++ (ln, LexPlain T_THEN) :: tokens_statementList ln body
      ++ (ln, LexPlain T_ELSE) :: tokens_statementList ln other
      ++ [(ln, LexPlain T_FI)]
  | SWhile l c r body =>
      (ln, LexPlain T_WHILE) :: tokens_expression ln l
      ++ (ln, LexCmp c) :: tokens_expression ln r
      ++ (ln, LexPlain T_DO) :: tokens_statementList ln body
      ++ [(ln, LexPlain T_OD)]
  | SWrite e =>
      (ln, LexPlain T_WRITE) :: (ln, LexPlain T_LPAREN) :: tokens_expression ln e
      ++ [(ln, LexPlain T_RPAREN)]
  end
with tokens_statementList (ln : nat) (ss : StatementList) : list (nat * Lexeme) :=
  match ss with
  | SEmpty => []
  | SSeq s ss => tokens_statement ln s ++ tokens_statementTail ln ss
  end
with tokens_statementTail (ln : nat) (ss : StatementTail) : list (nat * Lexeme) :=
  match ss with
  | SDone => []
  | SMore s ss =>
      (ln, LexPlain T_SEMICOLON) :: tokens_statement ln s ++ tokens_statementTail ln ss
  end.

(** What the compiler knows about the variables: the symbol table, the
    next free address and the float flag of the variable declared last
    (the members [variables_] and [lastVar_] of the parser). *)
Record Symbols := mkSymbols {
  sy_vars : gmap string (Z * bool);
  sy_next : Z;
  sy_ctx : bool
}.

Definition Symbols_new : Symbols := mkSymbols ∅ 0 false.

(** The symbols after a statement: only declarations change them, and
    there is one scope. *)
Fixpoint symbols_statement (st : Symbols) (s : Statement) : Symbols :=
  match s with
  | SDeclare isFloat x e =>
      mkSymbols (<[x := (sy_next st, isFloat)]> (sy_vars st)) (sy_next st + 1) isFloat
  | SAssign _ _ | SWrite _ => st
  | SIf _ _ _ body => symbols_statementList st body
  | SIfElse _ _ _ body other =>
      symbols_statementList (symbols_statementList st body) other
  | SWhile _ _ _ body => symbols_statementList st body
  end
with symbols_statementList (st : Symbols) (ss : StatementList) : Symbols :=
  match ss with
  | SEmpty => st
  | SSeq s ss => symbols_statementTail (symbols_statement st s) ss
  end
with symbols_statementTail (st : Symbols) (ss : StatementTail) : Symbols :=
  match ss with
  | SDone => st
  | SMore s ss => symbols_statementTail (symbols_statement st s) ss
  end.

(** The code of a condition: both sides, then COMPARE. *)
Definition code_relation (st : Symbols) (l : Expression) (c : Cmp) (r : Expression)
    : list Command :=
  code_expression (sy_vars st) (sy_ctx st) true l
  ++ code_expression (sy_vars st) (sy_ctx st) false r
  ++ [mkCommand COMPARE (IntArg (cmpCode c))].

(** The code of a statement whose first instruction gets the address
    [base]. *)
Fixpoint code_statement (base : nat) (st : Symbols) (s : Statement)
    : list Command :=
  match s with
  | SDeclare isFloat x e =>
      code_expression (<[x := (sy_next st, isFloat)]> (sy_vars st)) isFloat false e
      ++ [mkCommand STORE (IntArg (sy_next st))]
  | SAssign x e =>
      code_expression (sy_vars st) (sy_ctx st) false e
      ++ [mkCommand STORE (intArg (fst <$> sy_vars st !! x))]
  | SIf l c r body =>
      let rel := code_relation st l c r in
      let jumpNoAddress := (base + length rel)%nat in
      let bc := code_statementList (S jumpNoAddress) st body in
      rel
      ++ mkCommand JUMP_NO (IntArg (Z.of_nat (S jumpNoAddress + length bc))) :: bc
  | SIfElse l c r body other =>
      let rel := code_relation st l c r in
      let jumpNoAddress := (base + length rel)%nat in
      let bc := code_statementList (S jumpNoAddress) st body in
      let jumpAddress := (S jumpNoAddress + length bc)%nat in
      let oc := code_statementList (S jumpAddress)
                  (symbols_statementList st body) other in
      rel
      ++ mkCommand JUMP_NO (IntArg (Z.of_nat (S jumpAddress))) :: bc
      ++ mkCommand JUMP (IntArg (Z.of_nat (S jumpAddress + length oc))) :: oc
  | SWhile l c r body =>
      let rel := code_relation st l c r in
      let jumpNoAddress := (base + length rel)%nat in
      let bc := code_statementList (S jumpNoAddress) st body in
      rel
      ++ mkCommand JUMP_NO (IntArg (Z.of_nat (S (S jumpNoAddress + length bc)))) :: bc
      ++ [mkCommand JUMP (IntArg (Z.of_nat base))]
  | SWrite e =>
      code_expression (sy_vars st) (sy_ctx st) false e ++ [mkCommand PRINT NoArg]
  end
with code_statementList (base : nat) (st : Symbols) (ss : StatementList)
    : list Command :=
  match ss with
  | SEmpty => []
  | SSeq s ss =>
      code_statement base st s
      ++ code_statementTail (base + length (code_statement base st s))
           (symbols_statement st s) ss
  end
with code_statementTail (base : nat) (st : Symbols) (ss : StatementTail)
    : list Command :=
  match ss with
  | SDone => []
  | SMore s ss =>
      code_statement base st s
      ++ code_statementTail (base + length (code_statement base st s))
           (symbols_statement st s) ss
  end.

(** A statement uses declared variables only, declares new names only,
    and its literals are within the bounds of [wf_factor].  A variable is
    in scope in its own initializer. *)
Fixpoint wf_statement (st : Symbols) (s : Statement) : bool :=
  match s with
  | SDeclare isFloat x e =>
      bool_decide (sy_vars st !! x = None)
      && wf_expression (<[x := (sy_next st, isFloat)]> (sy_vars st)) e
  | SAssign x e =>
      bool_decide (is_Some (sy_vars st !! x)) && wf_expression (sy_vars st) e
  | SIf l c r body =>
      wf_expression (sy_vars st) l && wf_expression (sy_vars st) r
      && wf_statementList st body
  | SIfElse l c r body other =>
      wf_expression (sy_vars st) l && wf_expression (sy_vars st) r
      && wf_statementList st body
      && wf_statementList (symbols_statementList st body) other
  | SWhile l c r body =>
      wf_expression (sy_vars st) l && wf_expression (sy_vars st) r
      && wf_statementList st body
  | SWrite e => wf_expression (sy_vars st) e
  end
with wf_statementList (st : Symbols) (ss : StatementList) : bool :=
  match ss with
  | SEmpty => true
  | SSeq s ss => wf_statement st s && wf_statementTail (symbols_statement st s) ss
  end
with wf_statementTail (st : Symbols) (ss : StatementTail) : bool :=
  match ss with
  | SDone => true
  | SMore s ss => wf_statement st s && wf_statementTail (symbols_statement st s) ss
  end.

(** The source text and the code of a program. *)
Definition tokens_program (ln : nat) (ss : StatementList) : list (nat * Lexeme) :=
  (ln, LexPlain T_BEGIN) :: tokens_statementList ln ss ++ [(ln, LexPlain T_END)].

Definition code_program (ss : StatementList) : list Command :=
  code_statementList 0 Symbols_new ss ++ [mkCommand STOP NoArg].

(** What may come after a statement, and after a list of statements. *)
Definition closes (rest : list (nat * Lexeme)) : bool :=
  bool_decide (head_token rest = T_END) || bool_decide (head_token rest = T_OD)
  || bool_decide (head_token rest = T_ELSE) || bool_decide (head_token rest = T_FI).

Definition ends_statement (rest : list (nat * Lexeme)) : bool :=
  bool_decide (head_token rest = T_SEMICOLON) || closes rest.

(** The parser holds the symbols [st]. *)
Definition holds (st : Symbols) (p : Parser) : Prop :=
  variables_ p = sy_vars st /\ lastVar_ p = (sy_next st, sy_ctx st).

(** [compiled p p' rest cs st']: from [p] the parser got to [p'] by
    reading up to [rest] and putting [cs] after the code of [p], without a
    diagnostic, and holds the symbols [st'] at the end. *)
Record compiled (p p' : Parser) (rest : list (nat * Lexeme))
    (cs : list Command) (st' : Symbols) : Prop := mkCompiled {
  co_reading : reading rest p';
  co_code : code p' = code p ++ cs;
  co_cerr : cerr_ p' = cerr_ p;
  co_error : error_ p' = error_ p;
  co_cast : isFloatCast p' = [];
  co_holds : holds st' p';
  co_output : output_ (codegen_ p') = output_ (codegen_ p)
}.

(** [begin int x = 1; while x < 5 do x = x + 1 od;
    if x = 5 then write(x) else write(0) fi end] *)
Definition sample_program : StatementList :=
  let num n := MkExpression (MkTerm (FNumber n) TNil) ENil in
  let var x := MkExpression (MkTerm (FIdentifier x) TNil) ENil in
  SSeq (SDeclare false "x" (num 1))
    (SMore (SWhile (var "x"%string) C_LT (num 5)
              (SSeq (SAssign "x"
                       (MkExpression (MkTerm (FIdentifier "x") TNil)
                          (ECons Plus (MkTerm (FNumber 1) TNil) ENil)))
                 SDone))
       (SMore (SIfElse (var "x"%string) C_EQ (num 5)
                 (SSeq (SWrite (var "x"%string)) SDone)
                 (SSeq (SWrite (num 0)) SDone))
          SDone)).

(** * Properties *)

(** ** What a step of the parser may change *)

Lemma frame_refl p : frame p p.
Proof. split; auto; reflexivity. Qed.

Lemma frame_trans p q r : frame p q -> frame q r -> frame p r.
Proof.
  intros [] []. split; auto.
  - lia.
  - etrans; eassumption.
  - congruence.
  - lia.
  - intros i Hi. rewrite fr_code1 by lia. auto.
  - etrans; eassumption.
  - etrans; eassumption.
Qed.

(** Steps that touch one member of the parser. *)

Lemma frame_with_scanner s p :
  (unread s <= pending p)%nat -> frame p (with_scanner s p).
Proof. intros H. split; simpl; auto; reflexivity. Qed.

Lemma frame_with_lastToken t p : frame p (with_lastToken t p).
Proof. split; simpl; auto; reflexivity. Qed.

Lemma frame_with_isFloatCast l p : frame p (with_isFloatCast l p).
Proof. split; simpl; auto; reflexivity. Qed.

Lemma frame_reportError msg p : frame p (reportError msg p).
Proof.
  split; simpl; auto; try reflexivity.
  - intros _. unfold error_recorded. simpl. split; auto.
    intros _. destruct (cerr_ p); discriminate.
  - apply prefix_app_r. reflexivity.
Qed.

(** [mustBe] sets [error_] itself before it calls [reportError]. *)
Lemma frame_error_reportError msg p :
  frame p (reportError msg (with_error true p)).
Proof.
  split; simpl; auto; try reflexivity.
  - intros _. unfold error_recorded. simpl. split; auto.
    intros _. destruct (cerr_ p); discriminate.
  - apply prefix_app_r. reflexivity.
Qed.

Lemma frame_cg_emit i a p : frame p (cg_emit i a p).
Proof.
  split; simpl; auto; try reflexivity.
  - unfold code. simpl. rewrite length_app. lia.
  - intros k Hk. unfold code in *. simpl. apply lookup_app_l. exact Hk.
Qed.

Lemma frame_cg_reserve p : frame p (snd (cg_reserve p)).
Proof. apply (frame_cg_emit NOP NoArg p). Qed.

(** [emitAt] on an address that was reserved after [p0]. *)
Lemma frame_cg_emitAt p0 p address i a :
  frame p0 p -> Z.of_nat (length (code p0)) <= address ->
  frame p0 (cg_emitAt address i a p).
Proof.
  intros [] Ha. unfold cg_emitAt, emitAt.
  destruct (0 <=? address)%Z eqn:E; split; simpl; auto.
  - unfold code in *. simpl. rewrite length_insert. auto.
  - intros k Hk. unfold code in *. simpl.
    rewrite list_lookup_insert_ne by lia. auto.
Qed.

(** Reading a token never puts anything back, and consumes one lexeme
    unless the scanner is already at the end of the input. *)
Lemma unread_nextToken_le s : (unread (nextToken s) <= unread s)%nat.
Proof.
  unfold unread, nextToken, token.
  destruct (input_ s) as [|[ln lx] rest]; simpl; [lia|].
  destruct lx; simpl; repeat case_bool_decide; lia.
Qed.

Lemma unread_nextToken_lt s :
  token s <> T_EOF -> (S (unread (nextToken s)) <= unread s)%nat.
Proof.
  intros Ht. unfold unread at 2. rewrite bool_decide_false by exact Ht.
  unfold unread, nextToken, token.
  destruct (input_ s) as [|[ln lx] rest]; simpl; [lia|].
  destruct lx; simpl; repeat case_bool_decide; lia.
Qed.

Lemma frame_next p : frame p (next p).
Proof.
  unfold next. eapply frame_trans; [apply (frame_with_lastToken (token (scanner_ p)))|].
  apply frame_with_scanner. apply unread_nextToken_le.
Qed.

Lemma pending_next p :
  token (scanner_ p) <> T_EOF -> (S (pending (next p)) <= pending p)%nat.
Proof. intros H. unfold next, pending. simpl. apply unread_nextToken_lt, H. Qed.

Lemma see_true t p : see t p = true -> token (scanner_ p) = t.
Proof. unfold see. intros H. apply bool_decide_eq_true in H. exact H. Qed.

Lemma pending_next_see t p :
  see t p = true -> t <> T_EOF -> (S (pending (next p)) <= pending p)%nat.
Proof. intros H Ht. apply pending_next. rewrite (see_true _ _ H). exact Ht. Qed.

Lemma match_true t p p1 :
  match_ t p = (true, p1) -> t <> T_EOF ->
  frame p p1 /\ (S (pending p1) <= pending p)%nat.
Proof.
  unfold match_. case_bool_decide as Ht; [|discriminate].
  intros [= <-] Hne. split.
  - apply frame_with_scanner, unread_nextToken_le.
  - unfold pending. simpl. apply unread_nextToken_lt. congruence.
Qed.

Lemma match_false t p p1 : match_ t p = (false, p1) -> p1 = p.
Proof. unfold match_. case_bool_decide; congruence. Qed.

Lemma match_see t p : fst (match_ t p) = see t p.
Proof. unfold match_, see. case_bool_decide; reflexivity. Qed.

Lemma frame_match t p : frame p (snd (match_ t p)).
Proof.
  unfold match_. case_bool_decide; simpl; [|apply frame_refl].
  apply frame_with_scanner, unread_nextToken_le.
Qed.

(** The loop of [recover] stops because its condition fails, before the
    count of turns runs out. *)
Lemma recover_loop_done n t p :
  see t p || see T_EOF p = true -> recover_loop n t p = p.
Proof.
  intros H. destruct n as [|n]; [reflexivity|]. simpl.
  destruct (see t p), (see T_EOF p); simpl in *; try discriminate; reflexivity.
Qed.

Lemma recover_loop_exits n t p :
  (length (input_ (scanner_ p)) < n)%nat ->
  see t (recover_loop n t p) || see T_EOF (recover_loop n t p) = true.
Proof.
  revert p. induction n as [|n IH]; intros p Hlt; [lia|]. simpl.
  destruct (negb (see t p) && negb (see T_EOF p)) eqn:C.
  - destruct (input_ (scanner_ p)) as [|[ln lx] rest] eqn:Ei.
    + assert (He : see T_EOF (next p) = true).
      { unfold see, next, nextToken. simpl. rewrite Ei. reflexivity. }
      rewrite recover_loop_done; rewrite He; apply orb_true_r.
    + apply IH. unfold next, nextToken. simpl. rewrite Ei.
      simpl in Hlt. destruct lx; simpl; lia.
  - destruct (see t p), (see T_EOF p); simpl in *; try discriminate; reflexivity.
Qed.

Lemma frame_recover_loop n t p : frame p (recover_loop n t p).
Proof.
  revert p. induction n as [|n IH]; intros p; simpl; [apply frame_refl|].
  destruct (negb (see t p) && negb (see T_EOF p)); [|apply frame_refl].
  eapply frame_trans; [apply frame_next | apply IH].
Qed.

Lemma frame_recover t p : frame p (recover t p).
Proof.
  unfold recover.
  destruct (see t _).
  - eapply frame_trans; [apply frame_recover_loop | apply frame_next].
  - apply frame_recover_loop.
Qed.

Lemma frame_mustBe t p : frame p (mustBe t p).
Proof.
  unfold mustBe, match_. case_bool_decide; simpl.
  - apply frame_with_scanner, unread_nextToken_le.
  - eapply frame_trans; [apply frame_error_reportError | apply frame_recover].
Qed.

Lemma frame_findVariable var p : frame p (snd (findVariable var p)).
Proof.
  unfold findVariable. destruct (variables_ p !! var); simpl.
  - apply frame_refl.
  - apply frame_reportError.
Qed.

Lemma frame_factor_number p : frame p (factor_number p).
Proof.
  unfold factor_number.
  eapply frame_trans; [|apply frame_with_isFloatCast].
  repeat match goal with
         | |- context [if ?b then _ else _] => destruct b
         end; first [apply frame_cg_emit | apply frame_refl].
Qed.

Lemma frame_factor_rnumber p : frame p (factor_rnumber p).
Proof.
  unfold factor_rnumber.
  eapply frame_trans; [|apply frame_with_isFloatCast].
  repeat match goal with
         | |- context [if ?b then _ else _] => destruct b
         end; first [apply frame_cg_emit | apply frame_refl].
Qed.

(** ** The symbol table and the history of [addVariable] calls *)

(** A name that occurs in a list of calls has a first call. *)
Lemma first_occurrence (l : list (string * bool)) (v : string) :
  v ∈ l.*1 ->
  exists (i : nat) (f : bool), l !! i = Some (v, f) /\ v ∉ (take i l).*1.
Proof.
  induction l as [|[w g] l IH]; simpl; intros Hin.
  - inversion Hin.
  - destruct (decide (w = v)) as [->|Hne].
    + exists 0%nat, g. split; [reflexivity|]. simpl. inversion 1.
    + apply elem_of_cons in Hin as [Heq|Hin]; [congruence|].
      destruct (IH Hin) as (i & f & Hi & Hnot).
      exists (S i), f. split; [exact Hi|].
      simpl. intros Hc. apply elem_of_cons in Hc as [Heq|Hc]; [congruence|auto].
Qed.

Lemma declared_iff_called p v :
  vars_ok p -> (is_Some (variables_ p !! v) <-> v ∈ (addVariableCalls_ p).*1).
Proof.
  intros [_ H]. split.
  - intros [[a f] Hv]. apply H in Hv as (i & _ & Hi & _).
    apply list_elem_of_lookup_2 in Hi.
    apply (list_elem_of_fmap_2 fst) in Hi. exact Hi.
  - intros Hin. destruct (first_occurrence _ _ Hin) as (i & f & Hi & Hnot).
    exists (Z.of_nat i, f). apply H. eauto.
Qed.

(** A call recorded at index [i] of the extended history is either an old
    call or the new one. *)
Lemma lookup_snoc_Some {A} (l : list A) (x y : A) (i : nat) :
  (l ++ [x]) !! i = Some y ->
  ((i < length l)%nat /\ l !! i = Some y) \/ (i = length l /\ y = x).
Proof.
  intros H. destruct (decide (i < length l)%nat) as [Hlt|Hge].
  - left. split; [exact Hlt|]. rewrite lookup_app_l in H by exact Hlt. exact H.
  - right. rewrite lookup_app_r in H by lia.
    destruct (i - length l)%nat as [|k] eqn:E; simpl in H; [|discriminate].
    split; [lia|congruence].
Qed.

Lemma vars_ok_addVariable var isFloat p :
  vars_ok p -> vars_ok (snd (addVariable var isFloat p)).
Proof.
  intros Hok. pose proof (declared_iff_called p var Hok) as Hdecl.
  destruct Hok as [Hcount Hbind].
  unfold addVariable. simpl.
  destruct (variables_ p !! var) as [b|] eqn:Hvar; simpl.
  - (* already declared: the table is unchanged *)
    assert (Hin : var ∈ (addVariableCalls_ p).*1) by (apply Hdecl; eauto).
    split; simpl.
    + rewrite length_app. simpl. lia.
    + intros v a f. rewrite Hbind. split.
      * intros (i & -> & Hi & Hnot). exists i.
        pose proof (lookup_lt_Some _ _ _ Hi) as Hlt.
        rewrite lookup_app_l by exact Hlt. rewrite take_app_le by lia. auto.
      * intros (i & -> & Hi & Hnot). exists i.
        apply lookup_snoc_Some in Hi as [[Hlt Hi]|[-> [= -> ->]]].
        -- rewrite take_app_le in Hnot by lia. auto.
        -- rewrite take_app_length in Hnot. contradiction.
  - (* a new name: bound to the counter *)
    assert (Hnin : var ∉ (addVariableCalls_ p).*1).
    { intros Hin. apply Hdecl in Hin as [? ?]. congruence. }
    split; simpl.
    + rewrite length_app. simpl. lia.
    + intros v a f. destruct (decide (var = v)) as [<-|Hne].
      * rewrite lookup_insert_eq. split.
        -- intros [= <- <-]. exists (length (addVariableCalls_ p)).
           rewrite lookup_app_r by lia. rewrite Nat.sub_diag. simpl.
           rewrite take_app_length. auto.
        -- intros (i & -> & Hi & Hnot).
           apply lookup_snoc_Some in Hi as [[Hlt Hi]|[-> [= ->]]].
           ++ exfalso. apply Hnin.
              apply list_elem_of_lookup_2 in Hi.
              apply (list_elem_of_fmap_2 fst) in Hi. exact Hi.
           ++ rewrite Hcount. reflexivity.
      * rewrite lookup_insert_ne by exact Hne. rewrite Hbind. split.
        -- intros (i & -> & Hi & Hnot). exists i.
           pose proof (lookup_lt_Some _ _ _ Hi) as Hlt.
           rewrite lookup_app_l by exact Hlt. rewrite take_app_le by lia. auto.
        -- intros (i & -> & Hi & Hnot). exists i.
           apply lookup_snoc_Some in Hi as [[Hlt Hi]|[-> [= -> ->]]].
           ++ rewrite take_app_le in Hnot by lia. auto.
           ++ congruence.
Qed.

Lemma frame_addVariable var isFloat p :
  frame p (snd (addVariable var isFloat p)).
Proof.
  split.
  - unfold addVariable. destruct (variables_ p !! var) eqn:E; simpl; rewrite E; simpl; reflexivity.
  - unfold addVariable, error_recorded.
    simpl. destruct (variables_ p !! var); simpl; auto.
    intros _. split; auto. intros _. destruct (cerr_ p); discriminate.
  - unfold addVariable. simpl. destruct (variables_ p !! var); simpl; auto.
  - unfold addVariable. simpl. destruct (variables_ p !! var); simpl.
    + apply prefix_app_r. reflexivity.
    + reflexivity.
  - unfold addVariable. simpl. destruct (variables_ p !! var); reflexivity.
  - unfold addVariable, code. simpl. destruct (variables_ p !! var); reflexivity.
  - unfold addVariable, code. simpl. destruct (variables_ p !! var); reflexivity.
  - apply vars_ok_addVariable.
  - unfold addVariable. simpl. destruct (variables_ p !! var) eqn:E; simpl.
    + reflexivity.
    + apply insert_subseteq. exact E.
  - unfold addVariable. simpl. destruct (variables_ p !! var); simpl;
      apply prefix_app_r; reflexivity.
Qed.

(** ** Every grammar procedure returns, given enough fuel *)

(** One unfolding of each procedure. *)
Lemma expression_eq fuel p :
  expression (S fuel) p =
  match term fuel p with Some p => expression_loop fuel p | None => None end.
Proof. reflexivity. Qed.

Lemma expression_loop_eq fuel p :
  expression_loop (S fuel) p =
  if see T_ADDOP p then
    match term fuel (next p) with
    | Some p' =>
        expression_loop fuel
          (if bool_decide (getArithmeticValue (scanner_ p) = A_PLUS)
           then cg_emit ADD NoArg p' else cg_emit SUB NoArg p')
    | None => None
    end
  else Some p.
Proof. reflexivity. Qed.

Lemma term_eq fuel p :
  term (S fuel) p =
  match factor fuel p with Some p => term_loop fuel p | None => None end.
Proof. reflexivity. Qed.

Lemma term_loop_eq fuel p :
  term_loop (S fuel) p =
  if see T_MULOP p then
    match factor fuel (next p) with
    | Some p' =>
        term_loop fuel
          (if bool_decide (getArithmeticValue (scanner_ p) = A_MULTIPLY)
           then cg_emit MULT NoArg p' else cg_emit DIV NoArg p')
    | None => None
    end
  else Some p.
Proof. reflexivity. Qed.

Lemma factor_eq fuel p :
  factor (S fuel) p =
  if see T_NUMBER p then Some (factor_number (next p))
  else if see T_RNUMBER p then
    if afterOperator p
    then Some (next (cg_emit PUSH (FloatArg (getFloatValue (scanner_ p))) p))
    else Some (factor_rnumber (next p))
  else if see T_IDENTIFIER p then
    Some (cg_emit LOAD (intArg (fst (findVariable (getStringValue (scanner_ p)) p)))
            (next (snd (findVariable (getStringValue (scanner_ p)) p))))
  else if see T_ADDOP p && bool_decide (getArithmeticValue (scanner_ p) = A_MINUS) then
    match factor fuel (next p) with
    | Some p' => Some (cg_emit INVERT NoArg p')
    | None => None
    end
  else if see T_LPAREN p then
    let p := snd (match_ T_LPAREN p) in
    if see T_INT p then
      expression fuel (mustBe T_RPAREN (with_isFloatCast (isFloatCast (next p) ++ [false]) (next p)))
    else if see T_FLOAT p then
      expression fuel (mustBe T_RPAREN (with_isFloatCast (isFloatCast (next p) ++ [true]) (next p)))
    else
      match expression fuel (with_isFloatCast [] p) with
      | Some p' => Some (mustBe T_RPAREN p')
      | None => None
      end
  else if see T_READ p then Some (cg_emit INPUT NoArg (snd (match_ T_READ p)))
  else Some (reportError "expression expected." p).
Proof.
  simpl. unfold match_, see.
  repeat (case_bool_decide; simpl; try reflexivity);
    try (destruct (findVariable _ _); reflexivity); try congruence.
Qed.

(** Closes a [frame] goal from the frames of the steps taken. *)
Ltac frame_tac :=
  lazymatch goal with
  | |- frame ?p ?p => apply frame_refl
  | H : frame ?p ?r |- frame ?p ?r => exact H
  | H : frame ?q ?r |- frame _ ?r => eapply frame_trans; [|exact H]; frame_tac
  | |- frame _ (cg_emit _ _ _) => eapply frame_trans; [|apply frame_cg_emit]; frame_tac
  | |- frame _ (next _) => eapply frame_trans; [|apply frame_next]; frame_tac
  | |- frame _ (mustBe _ _) => eapply frame_trans; [|apply frame_mustBe]; frame_tac
  | |- frame _ (reportError _ _) => eapply frame_trans; [|apply frame_reportError]; frame_tac
  | |- frame _ (with_isFloatCast _ _) => eapply frame_trans; [|apply frame_with_isFloatCast]; frame_tac
  | |- frame _ (factor_number _) => eapply frame_trans; [|apply frame_factor_number]; frame_tac
  | |- frame _ (factor_rnumber _) => eapply frame_trans; [|apply frame_factor_rnumber]; frame_tac
  | |- frame _ (snd (match_ _ _)) => eapply frame_trans; [|apply frame_match]; frame_tac
  | |- frame _ (snd (findVariable _ _)) => eapply frame_trans; [|apply frame_findVariable]; frame_tac
  | |- frame _ (snd (addVariable _ _ _)) => eapply frame_trans; [|apply frame_addVariable]; frame_tac
  | |- frame _ (snd (cg_reserve _)) => eapply frame_trans; [|apply frame_cg_reserve]; frame_tac
  | |- frame _ (if ?b then _ else _) => destruct b; frame_tac
  end.

(** Closes a fuel bound from the frames of the steps taken. *)
Ltac pending_norm :=
  repeat match goal with
         | |- context [pending (cg_emit ?i ?a ?q)] =>
             change (pending (cg_emit i a q)) with (pending q)
         | |- context [pending (with_isFloatCast ?l ?q)] =>
             change (pending (with_isFloatCast l q)) with (pending q)
         | |- context [pending (reportError ?m ?q)] =>
             change (pending (reportError m q)) with (pending q)
         | |- context [pending (cg_emitAt ?x ?i ?a ?q)] =>
             change (pending (cg_emitAt x i a q)) with (pending q)
         | |- context [pending (snd (cg_reserve ?q))] =>
             change (pending (snd (cg_reserve q))) with (pending q)
         end.

Ltac pending_tac :=
  repeat match goal with
         | H : frame _ _ |- _ => apply fr_pending in H
         end;
  repeat match goal with
         | H : see _ _ = true |- _ =>
             apply pending_next_see in H; [|discriminate]
         end;
  pending_norm; lia.

(** Runs one recursive call whose result the goal matches on. *)
Ltac call_with IH tac :=
  lazymatch goal with
  | |- exists _, match ?f ?fuel ?q with _ => _ end = _ /\ _ =>
      let p' := fresh "p" in
      let E := fresh "E" in
      let F := fresh "F" in
      destruct (IH q) as (p' & E & F);
      [tac | rewrite E]
  end.

Ltac call IH := call_with IH pending_tac.

Lemma pending_match t p :
  see t p = true -> t <> T_EOF ->
  (S (pending (snd (match_ t p))) <= pending p)%nat.
Proof.
  intros Hs Ht. destruct (match_ t p) as [m q] eqn:E.
  pose proof (match_see t p) as Hm. rewrite E, Hs in Hm. simpl in Hm. subst m.
  apply match_true in E as [_ L]; auto.
Qed.

Lemma expression_block fuel :
  (forall p, (3 * pending p + 3 <= fuel)%nat ->
             exists p', expression fuel p = Some p' /\ frame p p') /\
  (forall p, (3 * pending p + 1 <= fuel)%nat ->
             exists p', expression_loop fuel p = Some p' /\ frame p p') /\
  (forall p, (3 * pending p + 2 <= fuel)%nat ->
             exists p', term fuel p = Some p' /\ frame p p') /\
  (forall p, (3 * pending p + 1 <= fuel)%nat ->
             exists p', term_loop fuel p = Some p' /\ frame p p') /\
  (forall p, (3 * pending p + 1 <= fuel)%nat ->
             exists p', factor fuel p = Some p' /\ frame p p').
Proof.
  induction fuel as [|fuel (IHe & IHel & IHt & IHtl & IHf)].
  { repeat split; intros p Hp; lia. }
  repeat split; intros p Hp.
  - (* expression *)
    rewrite expression_eq. call IHt.
    destruct (IHel p0) as (p1 & E1 & F1); [pending_tac|].
    exists p1. split; [exact E1 | frame_tac].
  - (* expression_loop *)
    rewrite expression_loop_eq. destruct (see T_ADDOP p) eqn:S1.
    + pose proof (pending_next_see _ _ S1 ltac:(discriminate)) as L.
      call_with IHt lia.
      match goal with |- context [expression_loop fuel ?q] =>
        destruct (IHel q) as (p1 & E1 & F1) end.
      { case_bool_decide; pending_tac. }
      exists p1. split; [exact E1|].
      eapply frame_trans; [|exact F1]. frame_tac.
    + exists p. split; [reflexivity | apply frame_refl].
  - (* term *)
    rewrite term_eq. call IHf.
    destruct (IHtl p0) as (p1 & E1 & F1); [pending_tac|].
    exists p1. split; [exact E1 | frame_tac].
  - (* term_loop *)
    rewrite term_loop_eq. destruct (see T_MULOP p) eqn:S1.
    + pose proof (pending_next_see _ _ S1 ltac:(discriminate)) as L.
      call_with IHf lia.
      match goal with |- context [term_loop fuel ?q] =>
        destruct (IHtl q) as (p1 & E1 & F1) end.
      { case_bool_decide; pending_tac. }
      exists p1. split; [exact E1|].
      eapply frame_trans; [|exact F1]. frame_tac.
    + exists p. split; [reflexivity | apply frame_refl].
  - (* factor *)
    rewrite factor_eq.
    destruct (see T_NUMBER p); [eexists; split; [reflexivity | frame_tac]|].
    destruct (see T_RNUMBER p).
    { destruct (afterOperator p); eexists; (split; [reflexivity | frame_tac]). }
    destruct (see T_IDENTIFIER p); [eexists; split; [reflexivity | frame_tac]|].
    destruct (see T_ADDOP p) eqn:S1; simpl.
    { destruct (bool_decide _).
      - pose proof (pending_next_see _ _ S1 ltac:(discriminate)) as L.
        call_with IHf lia. eexists; split; [reflexivity | frame_tac].
      - destruct (see T_LPAREN p) eqn:S2.
        { apply see_true in S1, S2. congruence. }
        destruct (see T_READ p); eexists; (split; [reflexivity | frame_tac]). }
    destruct (see T_LPAREN p) eqn:S2.
    { pose proof (pending_match _ _ S2 ltac:(discriminate)) as L.
      cbv zeta.
      set (q := snd (match_ T_LPAREN p)) in *.
      assert (Fq : frame p q) by (subst q; frame_tac).
      destruct (see T_INT q).
      { match goal with |- context [expression fuel ?r] =>
          destruct (IHe r) as (p1 & E1 & F1) end.
        - match goal with |- (3 * pending ?r + 3 <= _)%nat =>
            assert (F : frame q r) by frame_tac end.
          apply fr_pending in F. lia.
        - exists p1. split; [exact E1|].
          eapply frame_trans; [|exact F1]. frame_tac. }
      destruct (see T_FLOAT q).
      { match goal with |- context [expression fuel ?r] =>
          destruct (IHe r) as (p1 & E1 & F1) end.
        - match goal with |- (3 * pending ?r + 3 <= _)%nat =>
            assert (F : frame q r) by frame_tac end.
          apply fr_pending in F. lia.
        - exists p1. split; [exact E1|].
          eapply frame_trans; [|exact F1]. frame_tac. }
      call_with IHe ltac:(pending_norm; lia).
      eexists; split; [reflexivity|].
      eapply frame_trans; [|apply frame_mustBe].
      eapply frame_trans; [|exact F]. frame_tac. }
    destruct (see T_READ p); eexists; (split; [reflexivity | frame_tac]).
Qed.

Lemma expression_total fuel p :
  (3 * pending p + 3 <= fuel)%nat ->
  exists p', expression fuel p = Some p' /\ frame p p'.
Proof. apply expression_block. Qed.

Lemma relation_total fuel p :
  (3 * pending p + 3 <= fuel)%nat ->
  exists p', relation fuel p = Some p' /\ frame p p'.
Proof.
  intros Hp. unfold relation.
  call (expression_total fuel).
  destruct (see T_CMP p0) eqn:S1.
  - call (expression_total fuel).
    eexists; split; [reflexivity | frame_tac].
  - eexists; split; [reflexivity | frame_tac].
Qed.

Lemma statementList_eq fuel p :
  statementList (S fuel) p =
  if see T_END p || see T_OD p || see T_ELSE p || see T_FI p
  then Some p
  else statementList_loop fuel p.
Proof. reflexivity. Qed.

Lemma statementList_loop_eq fuel p :
  statementList_loop (S fuel) p =
  match statement fuel p with
  | Some p' =>
      if see T_SEMICOLON p'
      then statementList_loop fuel (snd (match_ T_SEMICOLON p'))
      else Some p'
  | None => None
  end.
Proof.
  simpl. destruct (statement fuel p) as [p'|]; [|reflexivity].
  unfold match_, see. case_bool_decide; reflexivity.
Qed.

Lemma statement_eq fuel p :
  statement (S fuel) p =
  if see T_INT p then
    let p1 := mustBe T_IDENTIFIER (snd (match_ T_INT p)) in
    let r := addVariable (getStringValue (scanner_ p1)) false p1 in
    match expression fuel (mustBe T_ASSIGN (snd r)) with
    | Some p' => Some (cg_emit STORE (IntArg (fst r)) p')
    | None => None
    end
  else if see T_FLOAT p then
    let p1 := mustBe T_IDENTIFIER (snd (match_ T_FLOAT p)) in
    let r := addVariable (getStringValue (scanner_ p1)) true p1 in
    match expression fuel (mustBe T_ASSIGN (snd r)) with
    | Some p' => Some (cg_emit STORE (IntArg (fst r)) p')
    | None => None
    end
  else if see T_IDENTIFIER p then
    let p1 := snd (match_ T_IDENTIFIER p) in
    let r := findVariable (getStringValue (scanner_ p1)) p1 in
    match expression fuel (mustBe T_ASSIGN (snd r)) with
    | Some p' => Some (cg_emit STORE (intArg (fst r)) p')
    | None => None
    end
  else if see T_IF p then
    match relation fuel (snd (match_ T_IF p)) with
    | Some p1 =>
        let jumpNoAddress := getCurrentAddress (codegen_ p1) in
        match statementList fuel (mustBe T_THEN (snd (cg_reserve p1))) with
        | Some p2 =>
            if see T_ELSE p2 then
              let jumpAddress := getCurrentAddress (codegen_ p2) in
              let p3 := snd (cg_reserve (snd (match_ T_ELSE p2))) in
              match statementList fuel
                      (cg_emitAt jumpNoAddress JUMP_NO
                         (IntArg (getCurrentAddress (codegen_ p3))) p3) with
              | Some p4 =>
                  Some (mustBe T_FI
                          (cg_emitAt jumpAddress JUMP
                             (IntArg (getCurrentAddress (codegen_ p4))) p4))
              | None => None
              end
            else
              Some (mustBe T_FI
                      (cg_emitAt jumpNoAddress JUMP_NO
                         (IntArg (getCurrentAddress (codegen_ p2))) p2))
        | None => None
        end
    | None => None
    end
  else if see T_WHILE p then
    let p0 := snd (match_ T_WHILE p) in
    let conditionAddress := getCurrentAddress (codegen_ p0) in
    match relation fuel p0 with
    | Some p1 =>
        let jumpNoAddress := getCurrentAddress (codegen_ p1) in
        match statementList fuel (mustBe T_DO (snd (cg_reserve p1))) with
        | Some p2 =>
            let p3 := cg_emit JUMP (IntArg conditionAddress) (mustBe T_OD p2) in
            Some (cg_emitAt jumpNoAddress JUMP_NO
                    (IntArg (getCurrentAddress (codegen_ p3))) p3)
        | None => None
        end
    | None => None
    end
  else if see T_WRITE p then
    match expression fuel (mustBe T_LPAREN (snd (match_ T_WRITE p))) with
    | Some p1 => Some (cg_emit PRINT NoArg (mustBe T_RPAREN p1))
    | None => None
    end
  else Some (reportError "statement expected." p).
Proof.
  cbn [statement]. unfold see, match_.
  case_bool_decide; [cbn [fst snd]; destruct (addVariable _ _ _); reflexivity|].
  case_bool_decide; [cbn [fst snd]; destruct (addVariable _ _ _); reflexivity|].
  case_bool_decide; [cbn [fst snd]; destruct (findVariable _ _); reflexivity|].
  case_bool_decide.
  { destruct (relation fuel _) as [p1|]; [|reflexivity]. cbn [cg_reserve fst snd].
    destruct (statementList fuel _) as [p2|]; [|reflexivity].
    case_bool_decide; reflexivity. }
  case_bool_decide; [reflexivity|].
  case_bool_decide; reflexivity.
Qed.

Lemma statement_block fuel :
  (forall p, (3 * pending p + 3 <= fuel)%nat ->
             exists p', statementList fuel p = Some p' /\ frame p p') /\
  (forall p, (3 * pending p + 2 <= fuel)%nat ->
             exists p', statementList_loop fuel p = Some p' /\ frame p p') /\
  (forall p, (3 * pending p + 1 <= fuel)%nat ->
             exists p', statement fuel p = Some p' /\ frame p p').
Proof.
  induction fuel as [|fuel (IHsl & IHl & IHs)].
  { repeat split; intros p Hp; lia. }
  repeat split; intros p Hp.
  - (* statementList *)
    rewrite statementList_eq.
    destruct (see T_END p || see T_OD p || see T_ELSE p || see T_FI p).
    + exists p. split; [reflexivity | apply frame_refl].
    + apply IHl. lia.
  - (* statementList_loop *)
    rewrite statementList_loop_eq. call_with IHs lia.
    destruct (see T_SEMICOLON p0) eqn:S1.
    + pose proof (pending_match _ _ S1 ltac:(discriminate)) as L.
      destruct (IHl (snd (match_ T_SEMICOLON p0))) as (p1 & E1 & F1).
      { apply fr_pending in F. lia. }
      exists p1. split; [exact E1|].
      eapply frame_trans; [|exact F1]. frame_tac.
    + exists p0. split; [reflexivity | exact F].
  - (* statement *)
    rewrite statement_eq.
    destruct (see T_INT p) eqn:S1.
    { pose proof (pending_match _ _ S1 ltac:(discriminate)) as L. cbv zeta.
      match goal with |- context [expression fuel ?r] =>
        assert (F0 : frame (snd (match_ T_INT p)) r) by frame_tac end.
      call_with (expression_total fuel) ltac:(apply fr_pending in F0; lia).
      eexists; split; [reflexivity|].
      eapply frame_trans; [|apply frame_cg_emit].
      eapply frame_trans; [|exact F]. frame_tac. }
    destruct (see T_FLOAT p) eqn:S2.
    { pose proof (pending_match _ _ S2 ltac:(discriminate)) as L. cbv zeta.
      match goal with |- context [expression fuel ?r] =>
        assert (F0 : frame (snd (match_ T_FLOAT p)) r) by frame_tac end.
      call_with (expression_total fuel) ltac:(apply fr_pending in F0; lia).
      eexists; split; [reflexivity|].
      eapply frame_trans; [|apply frame_cg_emit].
      eapply frame_trans; [|exact F]. frame_tac. }
    destruct (see T_IDENTIFIER p) eqn:S3.
    { pose proof (pending_match _ _ S3 ltac:(discriminate)) as L. cbv zeta.
      match goal with |- context [expression fuel ?r] =>
        assert (F0 : frame (snd (match_ T_IDENTIFIER p)) r) by frame_tac end.
      call_with (expression_total fuel) ltac:(apply fr_pending in F0; lia).
      eexists; split; [reflexivity|].
      eapply frame_trans; [|apply frame_cg_emit].
      eapply frame_trans; [|exact F]. frame_tac. }
    destruct (see T_IF p) eqn:S4.
    { pose proof (pending_match _ _ S4 ltac:(discriminate)) as L.
      pose proof (frame_match T_IF p) as F0.
      call_with (relation_total fuel) lia.
      assert (F1 : frame p0 (mustBe T_THEN (snd (cg_reserve p0)))) by frame_tac.
      cbv zeta.
      call_with IHsl ltac:(apply fr_pending in F, F1; lia).
      assert (Fp : frame p p1).
      { eapply frame_trans; [exact F0|]. eapply frame_trans; [exact F|].
        eapply frame_trans; [exact F1 | exact F2]. }
      assert (Hjno : Z.of_nat (length (code p)) <= getCurrentAddress (codegen_ p0)).
      { assert (Fq : frame p p0) by exact (frame_trans _ _ _ F0 F).
        apply fr_length in Fq. unfold getCurrentAddress, code in *. lia. }
      destruct (see T_ELSE p1) eqn:S5.
      - cbv zeta.
        set (p3 := snd (cg_reserve (snd (match_ T_ELSE p1)))).
        assert (F3 : frame p1 p3) by (subst p3; frame_tac).
        match goal with |- context [statementList fuel ?r] =>
          assert (F4 : frame p r) end.
        { apply frame_cg_emitAt; [|exact Hjno].
          eapply frame_trans; [exact Fp | exact F3]. }
        call_with IHsl ltac:(apply fr_pending in F, F1, F2, F3; pending_norm; lia).
        eexists; split; [reflexivity|].
        eapply frame_trans; [|apply frame_mustBe].
        apply frame_cg_emitAt.
        + eapply frame_trans; [exact F4 | exact F5].
        + apply fr_length in Fp. unfold getCurrentAddress, code in *. lia.
      - eexists; split; [reflexivity|].
        eapply frame_trans; [|apply frame_mustBe].
        apply frame_cg_emitAt; [exact Fp | exact Hjno]. }
    destruct (see T_WHILE p) eqn:S5.
    { pose proof (pending_match _ _ S5 ltac:(discriminate)) as L.
      pose proof (frame_match T_WHILE p) as F0. cbv zeta.
      call_with (relation_total fuel) lia.
      assert (F1 : frame p0 (mustBe T_DO (snd (cg_reserve p0)))) by frame_tac.
      cbv zeta.
      call_with IHsl ltac:(apply fr_pending in F, F1; lia).
      eexists; split; [reflexivity|].
      assert (Fq : frame p p0) by exact (frame_trans _ _ _ F0 F).
      apply frame_cg_emitAt.
      - eapply frame_trans; [|apply frame_cg_emit].
        eapply frame_trans; [|apply frame_mustBe].
        eapply frame_trans; [exact Fq|]. eapply frame_trans; eassumption.
      - apply fr_length in Fq. unfold getCurrentAddress, code in *. lia. }
    destruct (see T_WRITE p) eqn:S6.
    { pose proof (pending_match _ _ S6 ltac:(discriminate)) as L.
      assert (F0 : frame (snd (match_ T_WRITE p))
                     (mustBe T_LPAREN (snd (match_ T_WRITE p)))) by frame_tac.
      call_with (expression_total fuel) ltac:(apply fr_pending in F0; lia).
      eexists; split; [reflexivity|].
      eapply frame_trans; [|apply frame_cg_emit].
      eapply frame_trans; [|apply frame_mustBe].
      eapply frame_trans; [|exact F]. frame_tac. }
    eexists; split; [reflexivity | frame_tac].
Qed.

Lemma statementList_total fuel p :
  (3 * pending p + 3 <= fuel)%nat ->
  exists p', statementList fuel p = Some p' /\ frame p p'.
Proof. apply statement_block. Qed.

Lemma statement_total fuel p :
  (3 * pending p + 1 <= fuel)%nat ->
  exists p', statement fuel p = Some p' /\ frame p p'.
Proof. apply statement_block. Qed.

Lemma program_total fuel p :
  (enough p <= fuel)%nat ->
  exists p', program fuel p = Some p' /\ frame p p'.
Proof.
  unfold enough, program. intros Hp.
  pose proof (frame_mustBe T_BEGIN p) as F0.
  call_with (statementList_total fuel) ltac:(apply fr_pending in F0; lia).
  eexists; split; [reflexivity|].
  eapply frame_trans; [exact F0|]. eapply frame_trans; [exact F|]. frame_tac.
Qed.

(** [parse] returns on every input. *)
Lemma parse_total fuel p :
  (enough p <= fuel)%nat -> exists p', parse fuel p = Some p'.
Proof.
  intros Hp. unfold parse.
  destruct (program_total fuel p Hp) as (p1 & E & _). rewrite E.
  destruct (negb (error_ p1)); eauto.
Qed.

(** ** Output is produced exactly when no error was recorded *)

Lemma compile_eq l :
  compile l =
  parse (enough (Parser_new (Scanner_new (source l))))
    (Parser_new (Scanner_new (source l))).
Proof. reflexivity. Qed.

(** [begin int x = 3; write(x) end] compiles to PUSH 3, STORE 0, LOAD 0,
    PRINT, STOP, without error, and the listing is flushed. *)
Lemma compile_roundtrip :
  (fun p => (cerr_ p, code p, output_ (codegen_ p))) <$>
    compile [kw T_BEGIN; kw T_INT; ident "x"; kw T_ASSIGN; LexNumber 3;
             kw T_SEMICOLON; kw T_WRITE; kw T_LPAREN; ident "x"; kw T_RPAREN;
             kw T_END] =
    Some ([],
          [mkCommand PUSH (IntArg 3); mkCommand STORE (IntArg 0);
           mkCommand LOAD (IntArg 0); mkCommand PRINT NoArg;
           mkCommand STOP NoArg],
          [[mkCommand PUSH (IntArg 3); mkCommand STORE (IntArg 0);
            mkCommand LOAD (IntArg 0); mkCommand PRINT NoArg;
            mkCommand STOP NoArg]]).
Proof. vm_compute. reflexivity. Qed.

Lemma Parser_new_start s :
  cerr_ (Parser_new s) = [] /\ error_ (Parser_new s) = false /\
  output_ (codegen_ (Parser_new s)) = [] /\ code (Parser_new s) = [] /\
  variables_ (Parser_new s) = ∅ /\ addVariableCalls_ (Parser_new s) = [] /\
  lastVar_ (Parser_new s) = (0, false) /\ isFloatCast (Parser_new s) = [].
Proof. repeat split. Qed.

(** C4.  On every input and with any fuel from [enough] on, [parse]
    returns.  Each call of [flush] appends one listing to [output_], and
    the diagnostics recorded during the pass are all in [cerr_] at its end.
    If at least one was recorded, [output_] is empty: [flush] was never
    called and there is no instruction output.  If none was recorded,
    [output_] holds exactly one listing, so [flush] was called exactly once;
    the listing is the buffer [program] left behind, i.e. the call came
    after the whole program was parsed. *)
Theorem parse_flushes_once_iff_no_error (s : Scanner) (extra : nat) :
  let fuel := (enough (Parser_new s) + extra)%nat in
  exists pp p',
    program fuel (Parser_new s) = Some pp /\
    parse fuel (Parser_new s) = Some p' /\
    cerr_ p' = cerr_ pp /\ code p' = code pp /\
    output_ (codegen_ p') =
      match cerr_ p' with
      | [] => [code pp]
      | _ :: _ => []
      end.
Proof.
  intros fuel.
  destruct (program_total fuel (Parser_new s)) as (pp & E & F); [unfold fuel; lia|].
  exists pp. unfold parse. rewrite E.
  pose proof (fr_output _ _ F) as Hout. simpl in Hout.
  assert (Herr : error_recorded pp).
  { apply (fr_error _ _ F). unfold error_recorded. simpl. split; [discriminate|congruence]. }
  destruct (error_ pp) eqn:Ee; simpl.
  - exists pp. repeat split; auto.
    destruct (cerr_ pp) eqn:Ec; [|exact Hout].
    exfalso. apply Herr in Ee. congruence.
  - exists (cg_flush pp). repeat split; auto.
    simpl. rewrite Hout.
    destruct (cerr_ pp) eqn:Ec; [reflexivity|].
    assert (error_ pp = true) by (apply Herr; rewrite Ec; discriminate). congruence.
Qed.

(** ** [addVariable] on a name that is already declared *)

(** C8.  When [var] is already in the symbol table, [addVariable] writes
    the diagnostic "Variable '...' has been already declared.", sets the
    error flag, and leaves the table as it is: [var] keeps its address and
    its float flag.  It keeps them through any statement, a declaration of
    the same name included. *)
Theorem addVariable_already_declared :
  (forall (var : string) (isFloat : bool) (p : Parser) (b : Variable_),
      variables_ p !! var = Some b ->
      let p' := snd (addVariable var isFloat p) in
      variables_ p' !! var = Some b /\
      variables_ p' = variables_ p /\
      error_ p' = true /\
      cerr_ p' =
        cerr_ p ++ [(getLineNumber (scanner_ p),
                     ("Variable '" +:+ var +:+ "' has been already declared.")%string)]) /\
  (forall fuel (p : Parser) (var : string) (b : Variable_),
      variables_ p !! var = Some b ->
      (enough p <= fuel)%nat ->
      exists p', statement fuel p = Some p' /\ variables_ p' !! var = Some b).
Proof.
  split.
  - intros var isFloat p b Hb. unfold addVariable. simpl. rewrite Hb. simpl. auto.
  - intros fuel p var b Hb Hfuel. unfold enough in Hfuel.
    destruct (statement_total fuel p) as (p' & E & F); [lia|].
    exists p'. split; [exact E|].
    eapply lookup_weaken; [exact Hb | apply (fr_variables _ _ F)].
Qed.

Lemma addVariable_already_declared_witness :
  variables_ declared_x !! "x"%string = Some (0, false) /\
  (let p' := snd (addVariable "x" true declared_x) in
   variables_ p' !! "x"%string = Some (0, false) /\
   variables_ p' = variables_ declared_x /\
   error_ p' = true /\
   cerr_ p' =
     cerr_ declared_x ++ [(getLineNumber (scanner_ declared_x),
                           "Variable 'x' has been already declared."%string)]) /\
  (exists p',
      statement (enough redeclare_x) redeclare_x = Some p' /\
      variables_ p' !! "x"%string = Some (0, false)).
Proof.
  destruct addVariable_already_declared as (H1 & H2).
  split; [reflexivity|]. split.
  - apply (H1 "x"%string true declared_x (0, false)). reflexivity.
  - apply (H2 (enough redeclare_x) redeclare_x "x"%string (0, false));
      [reflexivity | apply le_n].
Defined.

(** ** [findVariable] *)

Lemma variables_match t p : variables_ (snd (match_ t p)) = variables_ p.
Proof. unfold match_. case_bool_decide; reflexivity. Qed.

Lemma see_other t t' p : see t p = true -> t <> t' -> see t' p = false.
Proof.
  unfold see. intros H Hne. apply bool_decide_eq_true in H.
  apply bool_decide_eq_false. congruence.
Qed.

(** C10.  A name that is in the symbol table: [findVariable] returns the
    stored address and reports nothing (the parser is unchanged).  A name
    that is not: it reports "Variable '...' has not been declared." and
    returns nothing, and the [LOAD] that [factor] emits, or the [STORE] that
    [statement] emits, has an unspecified address as operand. *)
Theorem findVariable_declared_or_unspecified :
  (forall var p a f,
      variables_ p !! var = Some (a, f) ->
      findVariable var p = (Some a, p)) /\
  (forall var p,
      variables_ p !! var = None ->
      findVariable var p =
        (None, reportError ("Variable '" +:+ var +:+ "' has not been declared.")%string p)) /\
  (forall fuel p,
      see T_IDENTIFIER p = true ->
      variables_ p !! getStringValue (scanner_ p) = None ->
      exists p',
        factor (S fuel) p = Some p' /\
        code p' = code p ++ [mkCommand LOAD Unspecified] /\
        error_ p' = true) /\
  (forall fuel p,
      see T_IDENTIFIER p = true ->
      variables_ p !! getStringValue (scanner_ (snd (match_ T_IDENTIFIER p))) = None ->
      (enough p <= fuel)%nat ->
      exists p1 p',
        statement fuel p = Some p' /\
        code p' = code p1 ++ [mkCommand STORE Unspecified] /\
        error_ p' = true).
Proof.
  split; [|split; [|split]].
  - intros var p a f H. unfold findVariable. rewrite H. reflexivity.
  - intros var p H. unfold findVariable. rewrite H. reflexivity.
  - intros fuel p Hs Hv. rewrite factor_eq.
    rewrite (see_other _ T_NUMBER _ Hs), (see_other _ T_RNUMBER _ Hs), Hs by discriminate.
    unfold findVariable. rewrite Hv. simpl.
    eexists. split; [reflexivity|]. split; reflexivity.
  - intros fuel p Hs Hv Hfuel.
    destruct fuel as [|fuel]; [unfold enough in Hfuel; lia|].
    rewrite statement_eq.
    rewrite (see_other _ T_INT _ Hs), (see_other _ T_FLOAT _ Hs), Hs by discriminate.
    cbv zeta. unfold findVariable. rewrite variables_match, Hv. cbn [fst snd].
    pose proof (pending_match _ _ Hs ltac:(discriminate)) as L.
    match goal with |- context [expression fuel ?r] =>
      assert (F0 : frame (snd (match_ T_IDENTIFIER p)) r) by frame_tac;
      assert (Hr : error_ r = true)
        by (apply (fr_error_mono _ _ (frame_mustBe T_ASSIGN _)); reflexivity)
    end.
    match goal with |- context [expression fuel ?r] =>
      destruct (expression_total fuel r) as (p0 & E & F)
    end.
    { apply fr_pending in F0. unfold enough in Hfuel. lia. }
    rewrite E. exists p0. eexists. split; [reflexivity|]. split; [reflexivity|].
    simpl. apply (fr_error_mono _ _ F), Hr.
Qed.

Lemma findVariable_declared_or_unspecified_witness :
  findVariable "x" declared_x = (Some 0, declared_x) /\
  fst (findVariable "y" declared_x) = None /\
  (exists p',
      factor 1 at_y = Some p' /\
      code p' = code at_y ++ [mkCommand LOAD Unspecified] /\
      error_ p' = true) /\
  (exists p1 p',
      statement (enough assign_y) assign_y = Some p' /\
      code p' = code p1 ++ [mkCommand STORE Unspecified] /\
      error_ p' = true).
Proof.
  destruct findVariable_declared_or_unspecified as (H1 & H2 & H3 & H4).
  split; [|split; [|split]].
  - apply (H1 "x"%string declared_x 0 false). reflexivity.
  - rewrite (H2 "y"%string declared_x); reflexivity.
  - apply (H3 0%nat at_y); reflexivity.
  - apply (H4 (enough assign_y) assign_y); [reflexivity | reflexivity | apply le_n].
Defined.

(** ** Literals, casts and the type of the assigned variable *)

(** The conversions: an [int] of up to 24 bits is kept by
    [static_cast<float>], a larger one is rounded; [static_cast<int>]
    truncates, and has a result only within the range of [int]. *)
Lemma float_of_int_small z : Z.abs z < 2 ^ 24 -> float_of_int z = inject_Z z.
Proof.
  intros H. unfold float_of_int. apply Z.ltb_lt in H. rewrite H. reflexivity.
Qed.

Lemma float_of_int_rounds :
  float_of_int 16777217 = inject_Z 16777216 /\
  float_of_int 16777219 = inject_Z 16777220 /\
  float_of_int 2147483647 = inject_Z 2147483648 /\
  float_of_int (-16777217) = inject_Z (-16777216).
Proof. vm_compute. repeat split. Qed.

Lemma int_of_float_truncates :
  int_of_float (5 # 2) = Some 2 /\ int_of_float (- 5 # 2) = Some (-2) /\
  int_of_float (2147483648 # 1) = None /\
  int_of_float (- 2147483648 # 1) = Some (-2147483648).
Proof. vm_compute. repeat split. Qed.

(** Reading a token changes the integer value only when the token read is
    a number, and the floating-point value only when it is a real number. *)
Lemma getIntValue_next p :
  see T_NUMBER (next p) = false ->
  getIntValue (scanner_ (next p)) = getIntValue (scanner_ p).
Proof.
  unfold see, next, nextToken, token, getIntValue. simpl.
  destruct (input_ (scanner_ p)) as [|[ln lx] rest]; [reflexivity|].
  destruct lx; simpl; try reflexivity.
  discriminate.
Qed.


(** An integer-form literal that no operator follows: [factor] looks at
    the float flag in [lastVar_] and not at [isFloatCast]. *)
Lemma factor_number_last fuel p :
  see T_NUMBER p = true -> seeOperator (next p) = false ->
  factor (S fuel) p =
    Some (with_isFloatCast []
            (cg_emit PUSH
               (if snd (lastVar_ p)
                then FloatArg (float_of_int (getIntValue (scanner_ (next p))))
                else IntArg (getIntValue (scanner_ (next p))))
               (next p))).
Proof.
  intros Hs Hop. rewrite factor_eq, Hs. unfold factor_number. rewrite Hop.
  change (lastVar_ (next p)) with (lastVar_ p).
  destruct (snd (lastVar_ p)); reflexivity.
Qed.

Lemma compile_prog_float_cast :
  (fun p => (cerr_ p, code p)) <$> compile prog_float_cast =
  Some ([], [mkCommand PUSH (IntArg 3); mkCommand STORE (IntArg 0);
             mkCommand LOAD (IntArg 0); mkCommand PRINT NoArg;
             mkCommand STOP NoArg]).
Proof. vm_compute. reflexivity. Qed.

(** C1, as the claim states it, does not hold: the pass records no error,
    but no [PUSH] in the code has a floating-point operand. *)
Lemma float_cast_literal_not_pushed_as_float :
  ~ (exists p',
        compile prog_float_cast = Some p' /\ cerr_ p' = [] /\
        exists q, mkCommand PUSH (FloatArg q) ∈ code p').
Proof.
  intros (p' & E & _ & q & Hin).
  pose proof compile_prog_float_cast as H. rewrite E in H. simpl in H.
  injection H as _ Hc. rewrite Hc in Hin.
  repeat (apply elem_of_cons in Hin as [Hin|Hin]; [discriminate|]).
  inversion Hin.
Qed.

(** C1, amended.  For [begin int x = (float) 3; write(x) end] the parser
    records no error and emits the literal 3 as an integer [PUSH]: the code
    is PUSH 3, STORE 0, LOAD 0, PRINT, STOP.  For an integer-form literal
    that no arithmetic or comparison operator follows, [isFloatCast] is not
    consulted: the float flag of the variable declared last decides,
    whatever [isFloatCast] holds.  The operand is the integer value if the
    flag is off, and [static_cast<float>] of it, which rounds to single
    precision, if it is on; [isFloatCast] is empty afterwards.  The value
    is the one the scanner holds after the literal is consumed, which is
    the literal's own unless the next token is an integer-form literal
    too. *)
Theorem float_cast_literal_pushed_by_target_type :
  (fun p => (cerr_ p, code p)) <$> compile prog_float_cast =
    Some ([], [mkCommand PUSH (IntArg 3); mkCommand STORE (IntArg 0);
               mkCommand LOAD (IntArg 0); mkCommand PRINT NoArg;
               mkCommand STOP NoArg]) /\
  forall fuel p,
    see T_NUMBER p = true -> seeOperator (next p) = false ->
    exists p',
      factor (S fuel) p = Some p' /\
      isFloatCast p' = [] /\
      code p' =
        code p ++
        [mkCommand PUSH
           (if snd (lastVar_ p)
            then FloatArg (float_of_int (getIntValue (scanner_ (next p))))
            else IntArg (getIntValue (scanner_ (next p))))] /\
      (see T_NUMBER (next p) = false ->
       getIntValue (scanner_ (next p)) = getIntValue (scanner_ p)).
Proof.
  split; [exact compile_prog_float_cast|].
  intros fuel p Hs Hop. rewrite (factor_number_last fuel p Hs Hop).
  eexists. split; [reflexivity|]. split; [reflexivity|].
  split; [reflexivity | apply getIntValue_next].
Qed.

Lemma float_cast_literal_pushed_by_target_type_witness :
  see T_NUMBER at_cast_literal = true /\
  seeOperator (next at_cast_literal) = false /\
  exists p',
    factor 1 at_cast_literal = Some p' /\
    isFloatCast p' = [] /\
    code p' = [mkCommand PUSH (IntArg 3)].
Proof.
  split; [reflexivity|]. split; [reflexivity|].
  destruct (proj2 float_cast_literal_pushed_by_target_type 0%nat at_cast_literal
              eq_refl eq_refl) as (p' & E & Hc & Hk & _).
  exists p'. split; [exact E|]. split; [exact Hc | exact Hk].
Defined.

(** ** Backpatching *)

Lemma code_match t p : code (snd (match_ t p)) = code p.
Proof. unfold match_. case_bool_decide; reflexivity. Qed.

Lemma code_next p : code (next p) = code p.
Proof. reflexivity. Qed.

Lemma code_recover_loop n t p : code (recover_loop n t p) = code p.
Proof.
  revert p. induction n as [|n IH]; intros p; simpl; [reflexivity|].
  destruct (negb (see t p) && negb (see T_EOF p)); [|reflexivity].
  rewrite IH. reflexivity.
Qed.

Lemma code_mustBe t p : code (mustBe t p) = code p.
Proof.
  unfold mustBe, match_. case_bool_decide; simpl; [reflexivity|].
  unfold recover. destruct (see t _); rewrite ?code_next, code_recover_loop; reflexivity.
Qed.

Lemma code_cg_reserve p :
  code (snd (cg_reserve p)) = code p ++ [mkCommand NOP NoArg].
Proof. reflexivity. Qed.

Lemma code_cg_emit i a p : code (cg_emit i a p) = code p ++ [mkCommand i a].
Proof. reflexivity. Qed.

Lemma code_cg_emitAt (n : nat) i a p :
  code (cg_emitAt (Z.of_nat n) i a p) = <[n := mkCommand i a]> (code p).
Proof.
  unfold cg_emitAt, emitAt, code.
  destruct (0 <=? Z.of_nat n)%Z eqn:E; [|apply Z.leb_gt in E; lia].
  simpl. rewrite Nat2Z.id. reflexivity.
Qed.

Lemma getCurrentAddress_code p :
  getCurrentAddress (codegen_ p) = Z.of_nat (length (code p)).
Proof. reflexivity. Qed.

(** C5.  Every [if] statement returns its condition and its [then]
    branch: [p1] is the parser after the condition, [p2] after the [then]
    branch.  With an [else]: the JUMP_NO placeholder is the
    instruction reserved after the condition, at the address
    [length (code p1)]; the JUMP placeholder is reserved after the [then]
    branch, at [length (code p2)], so the [else] branch starts at the next
    address.  When [statement] returns, the first holds JUMP_NO to the
    first address of the [else] branch and the second holds JUMP to the
    address after the last instruction of the [else] branch, which is the
    current address.  For [begin if 1 = 2 then write(1) else write(2) fi
    end] these are JUMP_NO 7 at address 3, with PUSH 2 at address 7, and
    JUMP 9 at address 6, with PRINT at address 8. *)
Theorem if_else_backpatch :
  (forall fuel p,
      see T_IF p = true ->
      (enough p <= fuel)%nat ->
      exists p1 p2,
        relation fuel (snd (match_ T_IF p)) = Some p1 /\
        statementList fuel (mustBe T_THEN (snd (cg_reserve p1))) = Some p2 /\
        (length (code p1) < length (code p2))%nat /\
        (see T_ELSE p2 = true ->
         let jumpNoAddress := length (code p1) in
         let jumpAddress := length (code p2) in
         exists p4 p',
           statementList fuel
             (cg_emitAt (Z.of_nat jumpNoAddress) JUMP_NO
                (IntArg (Z.of_nat (S jumpAddress)))
                (snd (cg_reserve (snd (match_ T_ELSE p2))))) = Some p4 /\
           statement (S fuel) p = Some p' /\
           (S jumpAddress <= length (code p4))%nat /\
           length (code p') = length (code p4) /\
           code p' !! jumpNoAddress =
             Some (mkCommand JUMP_NO (IntArg (Z.of_nat (S jumpAddress)))) /\
           code p' !! jumpAddress =
             Some (mkCommand JUMP (IntArg (Z.of_nat (length (code p4))))))) /\
  code <$> compile prog_if_else =
    Some [mkCommand PUSH (IntArg 1); mkCommand PUSH (IntArg 2);
          mkCommand COMPARE (IntArg 0); mkCommand JUMP_NO (IntArg 7);
          mkCommand PUSH (IntArg 1); mkCommand PRINT NoArg;
          mkCommand JUMP (IntArg 9);
          mkCommand PUSH (IntArg 2); mkCommand PRINT NoArg;
          mkCommand STOP NoArg].
Proof.
  split; [|vm_compute; reflexivity].
  intros fuel p Hs Hfuel. unfold enough in Hfuel.
  pose proof (pending_match _ _ Hs ltac:(discriminate)) as L.
  destruct (relation_total fuel (snd (match_ T_IF p))) as (p1 & E1 & F1); [lia|].
  assert (F1' : frame p1 (mustBe T_THEN (snd (cg_reserve p1)))) by frame_tac.
  destruct (statementList_total fuel (mustBe T_THEN (snd (cg_reserve p1))))
    as (p2 & E2 & F2); [apply fr_pending in F1, F1'; lia|].
  exists p1, p2. split; [exact E1|]. split; [exact E2|].
  assert (Hlt : (length (code p1) < length (code p2))%nat).
  { pose proof (fr_length _ _ F2) as H.
    rewrite code_mustBe, code_cg_reserve, length_app in H. simpl in H. lia. }
  split; [exact Hlt|].
  intros Helse jno jmp.
  set (p3 := snd (cg_reserve (snd (match_ T_ELSE p2)))).
  assert (F3 : frame p2 p3) by (subst p3; frame_tac).
  assert (Hc3 : code p3 = code p2 ++ [mkCommand NOP NoArg]).
  { subst p3. rewrite code_cg_reserve, code_match. reflexivity. }
  set (pe := cg_emitAt (Z.of_nat jno) JUMP_NO (IntArg (Z.of_nat (S jmp))) p3).
  assert (Hce : code pe = <[jno := mkCommand JUMP_NO (IntArg (Z.of_nat (S jmp)))]> (code p3)).
  { subst pe. apply code_cg_emitAt. }
  assert (Hle : (S jmp = length (code pe))%nat).
  { rewrite Hce, length_insert, Hc3, length_app. simpl. subst jmp. lia. }
  destruct (statementList_total fuel pe) as (p4 & E4 & F4).
  { subst pe. pending_norm. apply fr_pending in F1, F1', F2, F3. lia. }
  exists p4. eexists. split; [exact E4|].
  split.
  { rewrite statement_eq.
    rewrite (see_other _ T_INT _ Hs), (see_other _ T_FLOAT _ Hs),
      (see_other _ T_IDENTIFIER _ Hs), Hs by discriminate.
    rewrite E1. cbv zeta. rewrite E2, Helse.
    rewrite !getCurrentAddress_code. fold p3. rewrite Hc3, length_app. simpl.
    replace (Z.of_nat (length (code p2) + 1)) with (Z.of_nat (S jmp))
      by (subst jmp; lia).
    fold jno. fold pe. rewrite E4. reflexivity. }
  pose proof (fr_length _ _ F4) as Hlen4.
  rewrite code_mustBe, getCurrentAddress_code, code_cg_emitAt, length_insert.
  fold jmp. split; [lia|]. split; [reflexivity|]. split.
  - rewrite list_lookup_insert_ne by (subst jno jmp; lia).
    rewrite (fr_code _ _ F4) by (subst jno jmp; lia).
    rewrite Hce. apply list_lookup_insert_eq. rewrite Hc3, length_app. simpl.
    subst jno jmp. lia.
  - apply list_lookup_insert_eq. lia.
Qed.

Lemma if_else_backpatch_witness :
  see T_IF if_else_start = true /\
  relation (enough if_else_start) (snd (match_ T_IF if_else_start))
    = Some if_else_cond /\
  statementList (enough if_else_start)
    (mustBe T_THEN (snd (cg_reserve if_else_cond))) = Some if_else_then /\
  see T_ELSE if_else_then = true /\
  length (code if_else_cond) = 3%nat /\
  length (code if_else_then) = 6%nat /\
  exists p4 p',
    statementList (enough if_else_start)
      (cg_emitAt (Z.of_nat (length (code if_else_cond))) JUMP_NO
         (IntArg (Z.of_nat (S (length (code if_else_then)))))
         (snd (cg_reserve (snd (match_ T_ELSE if_else_then))))) = Some p4 /\
    statement (S (enough if_else_start)) if_else_start = Some p' /\
    (S (length (code if_else_then)) <= length (code p4))%nat /\
    length (code p') = length (code p4) /\
    code p' !! length (code if_else_cond) =
      Some (mkCommand JUMP_NO (IntArg (Z.of_nat (S (length (code if_else_then)))))) /\
    code p' !! length (code if_else_then) =
      Some (mkCommand JUMP (IntArg (Z.of_nat (length (code p4))))).
Proof.
  assert (H1 : see T_IF if_else_start = true) by reflexivity.
  assert (H2 : relation (enough if_else_start) (snd (match_ T_IF if_else_start))
               = Some if_else_cond) by (vm_compute; reflexivity).
  assert (H3 : statementList (enough if_else_start)
                 (mustBe T_THEN (snd (cg_reserve if_else_cond)))
               = Some if_else_then) by (vm_compute; reflexivity).
  assert (H4 : see T_ELSE if_else_then = true) by (vm_compute; reflexivity).
  repeat (split; [first [assumption | vm_compute; reflexivity]|]).
  destruct (proj1 if_else_backpatch (enough if_else_start) if_else_start
              H1 (le_n _)) as (p1 & p2 & E1 & E2 & _ & H).
  rewrite H2 in E1. apply (inj Some) in E1. subst p1.
  rewrite H3 in E2. apply (inj Some) in E2. subst p2.
  exact (H H4).
Defined.

Lemma compile_prog_while :
  code <$> compile prog_while =
    Some [mkCommand PUSH (IntArg 1); mkCommand STORE (IntArg 0);
          mkCommand LOAD (IntArg 0); mkCommand PUSH (IntArg 5);
          mkCommand COMPARE (IntArg 2); mkCommand JUMP_NO (IntArg 11);
          mkCommand LOAD (IntArg 0); mkCommand PUSH (IntArg 1);
          mkCommand ADD NoArg; mkCommand STORE (IntArg 0);
          mkCommand JUMP (IntArg 2);
          mkCommand LOAD (IntArg 0); mkCommand PRINT NoArg;
          mkCommand STOP NoArg].
Proof. vm_compute. reflexivity. Qed.

(** C6, as the claim states it, does not hold: in the code of the program
    no JUMP_NO targets the address that follows a PRINT. *)
Lemma while_jump_no_not_after_print :
  ~ (exists p' (j k : nat) (target : Z),
        compile prog_while = Some p' /\
        code p' !! j = Some (mkCommand JUMP_NO (IntArg target)) /\
        code p' !! k = Some (mkCommand PRINT NoArg) /\
        target = Z.of_nat k + 1).
Proof.
  intros (p' & j & k & target & E & Hj & Hk & Ht).
  pose proof compile_prog_while as H. rewrite E in H. simpl in H.
  injection H as Hc. rewrite Hc in Hj, Hk.
  assert (Ht' : target = 11).
  { do 14 (destruct j as [|j];
           [first [discriminate Hj | injection Hj as <-; reflexivity]|]).
    discriminate Hj. }
  assert (Hk' : k = 12%nat).
  { do 14 (destruct k as [|k]; [first [discriminate Hk | reflexivity]|]).
    discriminate Hk. }
  lia.
Qed.

(** The [while] statement in general.  The condition is compiled from the
    current address on and the JUMP_NO placeholder follows it ([p1] is the
    parser after the condition, [p2] after the body).  The statement ends
    with JUMP to the first address of the condition, and JUMP_NO is patched
    to the address after that JUMP. *)
Lemma while_backpatch fuel p :
  see T_WHILE p = true ->
  (enough p <= fuel)%nat ->
  exists p1 p2 p',
    relation fuel (snd (match_ T_WHILE p)) = Some p1 /\
    statementList fuel (mustBe T_DO (snd (cg_reserve p1))) = Some p2 /\
    statement (S fuel) p = Some p' /\
    (length (code p) <= length (code p1) < length (code p2))%nat /\
    length (code p') = S (length (code p2)) /\
    code p' !! length (code p2) =
      Some (mkCommand JUMP (IntArg (Z.of_nat (length (code p))))) /\
    code p' !! length (code p1) =
      Some (mkCommand JUMP_NO (IntArg (Z.of_nat (length (code p'))))).
Proof.
  intros Hs Hfuel. unfold enough in Hfuel.
  pose proof (pending_match _ _ Hs ltac:(discriminate)) as L.
  destruct (relation_total fuel (snd (match_ T_WHILE p))) as (p1 & E1 & F1); [lia|].
  assert (F1' : frame p1 (mustBe T_DO (snd (cg_reserve p1)))) by frame_tac.
  destruct (statementList_total fuel (mustBe T_DO (snd (cg_reserve p1))))
    as (p2 & E2 & F2); [apply fr_pending in F1, F1'; lia|].
  exists p1, p2. eexists. split; [exact E1|]. split; [exact E2|]. split.
  { rewrite statement_eq.
    rewrite (see_other _ T_INT _ Hs), (see_other _ T_FLOAT _ Hs),
      (see_other _ T_IDENTIFIER _ Hs), (see_other _ T_IF _ Hs), Hs by discriminate.
    cbv zeta. rewrite E1, E2. reflexivity. }
  apply fr_length in F1, F2.
  rewrite code_match in F1. rewrite code_mustBe, code_cg_reserve, length_app in F2.
  simpl in F2.
  rewrite !getCurrentAddress_code, code_cg_emitAt, code_cg_emit, code_mustBe,
    code_match, length_insert, !length_app. simpl.
  split; [lia|]. split; [lia|]. split.
  - rewrite list_lookup_insert_ne by lia.
    rewrite lookup_app_r by lia. rewrite Nat.sub_diag. reflexivity.
  - rewrite list_lookup_insert_eq by (rewrite length_app; simpl; lia).
    reflexivity.
Qed.

(** C6, amended.  For [begin int x = 1; while x < 5 do x = x + 1 od;
    write(x) end] the condition starts at address 2 (LOAD 0), the trailing
    JUMP of the loop is at address 10 and targets 2, and the patched
    JUMP_NO is at address 5 and targets 11: the address right after the
    trailing JUMP, where the code of [write] starts (LOAD 0 at 11, PRINT at
    12).  The address after the PRINT is 13, which holds STOP.  This is the
    rule for every [while]: JUMP goes back to the address that was current
    before the condition, JUMP_NO to the address after that JUMP. *)
Theorem while_jumps_of_program :
  code <$> compile prog_while =
    Some [mkCommand PUSH (IntArg 1); mkCommand STORE (IntArg 0);
          mkCommand LOAD (IntArg 0); mkCommand PUSH (IntArg 5);
          mkCommand COMPARE (IntArg 2); mkCommand JUMP_NO (IntArg 11);
          mkCommand LOAD (IntArg 0); mkCommand PUSH (IntArg 1);
          mkCommand ADD NoArg; mkCommand STORE (IntArg 0);
          mkCommand JUMP (IntArg 2);
          mkCommand LOAD (IntArg 0); mkCommand PRINT NoArg;
          mkCommand STOP NoArg] /\
  (exists p',
      compile prog_while = Some p' /\ cerr_ p' = [] /\
      code p' !! 2%nat = Some (mkCommand LOAD (IntArg 0)) /\
      code p' !! 10%nat = Some (mkCommand JUMP (IntArg 2)) /\
      code p' !! 5%nat = Some (mkCommand JUMP_NO (IntArg (10 + 1))) /\
      code p' !! 11%nat = Some (mkCommand LOAD (IntArg 0)) /\
      code p' !! 12%nat = Some (mkCommand PRINT NoArg)) /\
  (forall fuel p,
      see T_WHILE p = true ->
      (enough p <= fuel)%nat ->
      exists p1 p2 p',
        relation fuel (snd (match_ T_WHILE p)) = Some p1 /\
        statementList fuel (mustBe T_DO (snd (cg_reserve p1))) = Some p2 /\
        statement (S fuel) p = Some p' /\
        (length (code p) <= length (code p1) < length (code p2))%nat /\
        length (code p') = S (length (code p2)) /\
        code p' !! length (code p2) =
          Some (mkCommand JUMP (IntArg (Z.of_nat (length (code p))))) /\
        code p' !! length (code p1) =
          Some (mkCommand JUMP_NO (IntArg (Z.of_nat (length (code p')))))).
Proof.
  split; [exact compile_prog_while|]. split; [|exact while_backpatch].
  destruct (compile prog_while) as [p'|] eqn:E; [|vm_compute in E; discriminate].
  exists p'. split; [reflexivity|].
  assert (Hc : (fun p => (cerr_ p, code p)) <$> compile prog_while
               = Some ([], default [] (code <$> compile prog_while)))
    by (vm_compute; reflexivity).
  rewrite compile_prog_while, E in Hc. simpl in Hc. injection Hc as -> ->.
  repeat split.
Qed.

Lemma while_jumps_of_program_witness :
  see T_WHILE while_start = true /\
  length (code while_start) = 2%nat /\
  exists p1 p2 p',
    relation (enough while_start) (snd (match_ T_WHILE while_start)) = Some p1 /\
    statementList (enough while_start) (mustBe T_DO (snd (cg_reserve p1))) = Some p2 /\
    statement (S (enough while_start)) while_start = Some p' /\
    (length (code while_start) <= length (code p1) < length (code p2))%nat /\
    length (code p') = S (length (code p2)) /\
    code p' !! length (code p2) =
      Some (mkCommand JUMP (IntArg (Z.of_nat (length (code while_start))))) /\
    code p' !! length (code p1) =
      Some (mkCommand JUMP_NO (IntArg (Z.of_nat (length (code p'))))).
Proof.
  assert (H1 : see T_WHILE while_start = true) by (vm_compute; reflexivity).
  split; [exact H1|]. split; [vm_compute; reflexivity|].
  exact (proj2 (proj2 while_jumps_of_program) (enough while_start) while_start
           H1 (le_n _)).
Defined.

(** ** The coercion context after a literal *)

(** Both literal branches that reach the end of the [if] in [factor] empty
    the context. *)
Lemma isFloatCast_factor_number p : isFloatCast (factor_number p) = [].
Proof. reflexivity. Qed.

Lemma isFloatCast_factor_rnumber p : isFloatCast (factor_rnumber p) = [].
Proof. reflexivity. Qed.


(** C3 fails on the code.  In [begin int x = (int) read + 2.5 end] the
    literal 2.5 comes after an operator: its PUSH is emitted by the branch
    of [factor] that returns early, and the (int) flag is still in the
    context when the pass ends, without any error.  In
    [begin int x = (int) read + 2.5; x = 3 + 1 end] the flag survives into
    the next statement, where the literal 3 finds it and gets no PUSH.
    The two literal branches that run to their end do empty the context. *)
Theorem early_return_leaves_cast_pending :
  (fun p => (cerr_ p, code p, isFloatCast p)) <$> compile prog_pending_cast =
    Some ([], [mkCommand INPUT NoArg; mkCommand PUSH (FloatArg (5 # 2));
               mkCommand ADD NoArg; mkCommand STORE (IntArg 0);
               mkCommand STOP NoArg], [false]) /\
  (fun p => (cerr_ p, code p)) <$> compile prog_cast_leak =
    Some ([], [mkCommand INPUT NoArg; mkCommand PUSH (FloatArg (5 # 2));
               mkCommand ADD NoArg; mkCommand STORE (IntArg 0);
               mkCommand PUSH (IntArg 1); mkCommand ADD NoArg;
               mkCommand STORE (IntArg 0); mkCommand STOP NoArg]) /\
  (forall p,
      isFloatCast (factor_number p) = [] /\ isFloatCast (factor_rnumber p) = []).
Proof.
  split; [vm_compute; reflexivity|]. split; [vm_compute; reflexivity|].
  intros p. split; [apply isFloatCast_factor_number | apply isFloatCast_factor_rnumber].
Qed.

(** ** A literal under a pending (int) cast *)



(** [begin int x = (int) 3 + 1 end]: the integer-form literal with the
    (int) cast pending and an operator after it gets no PUSH at all. *)
Lemma int_cast_literal_before_operator :
  (fun p => (cerr_ p, code p)) <$>
    compile [kw T_BEGIN; kw T_INT; ident "x"; kw T_ASSIGN;
             kw T_LPAREN; kw T_INT; kw T_RPAREN; LexNumber 3;
             LexAddop A_PLUS; LexNumber 1; kw T_END] =
    Some ([], [mkCommand PUSH (IntArg 1); mkCommand ADD NoArg;
               mkCommand STORE (IntArg 0); mkCommand STOP NoArg]).
Proof. vm_compute. reflexivity. Qed.

(** [begin int x = (int) read + read; x = 2.5 end]: [lastToken_] is
    written by [next] only, so at the literal 2.5 it still is the [+] of
    the statement before, although [=] precedes the literal; the (int)
    cast is still pending, and the literal is pushed as it is. *)
Lemma lastToken_of_earlier_statement :
  (fun p => (cerr_ p, code p)) <$>
    compile [kw T_BEGIN; kw T_INT; ident "x"; kw T_ASSIGN;
             kw T_LPAREN; kw T_INT; kw T_RPAREN; kw T_READ;
             LexAddop A_PLUS; kw T_READ; kw T_SEMICOLON;
             ident "x"; kw T_ASSIGN; LexRNumber (5 # 2); kw T_END] =
    Some ([], [mkCommand INPUT NoArg; mkCommand INPUT NoArg;
               mkCommand ADD NoArg; mkCommand STORE (IntArg 0);
               mkCommand PUSH (FloatArg (5 # 2)); mkCommand STORE (IntArg 0);
               mkCommand STOP NoArg]).
Proof. vm_compute. reflexivity. Qed.



(** ** Addresses of variables *)

Lemma same_table_recover_loop n t p : same_table p (recover_loop n t p).
Proof.
  revert p. induction n as [|n IH]; intros p; simpl; [repeat split|].
  destruct (negb (see t p) && negb (see T_EOF p)); [|repeat split].
  destruct (IH (next p)) as (H1 & H2 & H3). repeat split; assumption.
Qed.

Lemma same_table_mustBe t p : same_table p (mustBe t p).
Proof.
  unfold mustBe, match_. case_bool_decide; simpl; [repeat split|].
  unfold recover.
  match goal with |- context [recover_loop ?n t ?q] =>
    destruct (same_table_recover_loop n t q) as (H1 & H2 & H3) end.
  destruct (see t _); repeat split; assumption.
Qed.

Lemma same_table_match t p : same_table p (snd (match_ t p)).
Proof. unfold match_. case_bool_decide; repeat split. Qed.

Lemma vars_ok_same_table p q : same_table p q -> vars_ok p -> vars_ok q.
Proof.
  intros (H1 & H2 & H3) [Hc Hb]. unfold vars_ok. rewrite H1, H2, H3. auto.
Qed.

Lemma vars_ok_Parser_new s : vars_ok (Parser_new s).
Proof.
  split; [reflexivity|]. intros v a f. simpl. split.
  - intros H. rewrite lookup_empty in H. discriminate.
  - intros (i & _ & H & _). destruct i; discriminate.
Qed.

(** Every pass ends with the symbol table in step with the history. *)
Lemma parse_vars_ok (s : Scanner) (fuel : nat) :
  (enough (Parser_new s) <= fuel)%nat ->
  exists p', parse fuel (Parser_new s) = Some p' /\ vars_ok p'.
Proof.
  intros Hf. destruct (program_total fuel (Parser_new s) Hf) as (pp & E & F).
  unfold parse. rewrite E.
  pose proof (fr_vars_ok _ _ F (vars_ok_Parser_new s)) as Hok.
  destruct (negb (error_ pp)); eexists; (split; [reflexivity|exact Hok]).
Qed.

(** Two names bound to the same address are the same name. *)
Lemma vars_ok_injective p v w a f g :
  vars_ok p ->
  variables_ p !! v = Some (a, f) -> variables_ p !! w = Some (a, g) -> v = w.
Proof.
  intros [_ H] Hv Hw.
  apply H in Hv as (i & -> & Hi & _). apply H in Hw as (j & Hj & Hj' & _).
  apply Nat2Z.inj in Hj. subst j. congruence.
Qed.

(** Without a repeated name every address below the counter is bound. *)
Lemma vars_ok_no_gaps p (i : nat) :
  vars_ok p -> NoDup (addVariableCalls_ p).*1 ->
  (i < length (addVariableCalls_ p))%nat ->
  exists v f, variables_ p !! v = Some (Z.of_nat i, f).
Proof.
  intros [_ H] Hnd Hi.
  destruct (lookup_lt_is_Some_2 _ _ Hi) as [[v f] Hvf].
  exists v, f. apply H. exists i. split; [reflexivity|]. split; [exact Hvf|].
  intros Hin. rewrite fmap_take in Hin.
  apply elem_of_take in Hin as (j & Hj & Hlt).
  assert (Hiv : (addVariableCalls_ p).*1 !! i = Some v)
    by (rewrite list_lookup_fmap, Hvf; reflexivity).
  pose proof (NoDup_lookup _ _ _ _ Hnd Hiv Hj). lia.
Qed.

(** A call that repeats an earlier name binds nothing: its address, the
    index of the call, is the address of no variable. *)
Lemma vars_ok_redeclared p (i : nat) v f :
  vars_ok p ->
  addVariableCalls_ p !! i = Some (v, f) ->
  v ∈ (take i (addVariableCalls_ p)).*1 ->
  forall w g, variables_ p !! w <> Some (Z.of_nat i, g).
Proof.
  intros [_ H] Hi Hin w g Hw.
  apply H in Hw as (j & Hj & Hj' & Hnot).
  apply Nat2Z.inj in Hj. subst j. rewrite Hi in Hj'. injection Hj' as -> ->.
  contradiction.
Qed.

Lemma compile_prog_redeclare :
  (fun p => (addVariableCalls_ p, variables_ p !! "x"%string,
             variables_ p !! "y"%string, code p)) <$> compile prog_redeclare =
    Some ([("x"%string, false); ("x"%string, false); ("y"%string, true)],
          Some (0, false), Some (2, true),
          [mkCommand PUSH (IntArg 1); mkCommand STORE (IntArg 0);
           mkCommand PUSH (IntArg 2); mkCommand STORE (IntArg 1);
           mkCommand PUSH (FloatArg (3 # 1)); mkCommand STORE (IntArg 2);
           mkCommand STOP NoArg]).
Proof. vm_compute. reflexivity. Qed.

(** C7, as the claim states it, does not hold: after
    [begin int x = 1; int x = 2; float y = 3 end] the second variable, "y",
    has address 2 and no variable has address 1. *)
Lemma redeclaration_leaves_gap :
  exists p', compile prog_redeclare = Some p' /\ ~ no_gaps p'.
Proof.
  destruct (parse_vars_ok (Scanner_new (source prog_redeclare)) _ (le_n _))
    as (p' & E & Hok).
  exists p'. split; [exact E|].
  pose proof compile_prog_redeclare as H.
  rewrite compile_eq, E in H.
  apply (inj Some) in H. injection H as Hcalls _ Hy _.
  intros Hgap. destruct (Hgap _ _ _ Hy 1 ltac:(lia)) as (w & g & Hw).
  apply (vars_ok_redeclared p' 1 "x"%string false Hok) in Hw; [exact Hw| |].
  - rewrite Hcalls. reflexivity.
  - rewrite Hcalls. simpl. apply list_elem_of_here.
Qed.

(** C7, amended.  On every input the pass ends with every variable bound
    to the number of [addVariable] calls made before the call that declared
    it, with the float flag of that call, whatever the flag is; the counter
    is the number of calls made.  So addresses start at 0, follow the order
    of first declaration, and are never used twice.  Each call for a name
    that is already declared uses up an address; if no name is declared
    twice there is no gap. *)
Theorem addresses_follow_addVariable_calls (s : Scanner) (extra : nat) :
  let fuel := (enough (Parser_new s) + extra)%nat in
  exists p',
    parse fuel (Parser_new s) = Some p' /\
    fst (lastVar_ p') = Z.of_nat (length (addVariableCalls_ p')) /\
    (forall v a f,
        variables_ p' !! v = Some (a, f) <->
        exists i : nat,
          a = Z.of_nat i /\ addVariableCalls_ p' !! i = Some (v, f) /\
          v ∉ (take i (addVariableCalls_ p')).*1) /\
    (forall v w a f g,
        variables_ p' !! v = Some (a, f) -> variables_ p' !! w = Some (a, g) ->
        v = w) /\
    (NoDup (addVariableCalls_ p').*1 ->
     forall i : nat,
       (i < length (addVariableCalls_ p'))%nat ->
       exists v f, variables_ p' !! v = Some (Z.of_nat i, f)).
Proof.
  intros fuel.
  destruct (parse_vars_ok s fuel) as (p' & E & Hok); [unfold fuel; lia|].
  exists p'. split; [exact E|]. split; [apply Hok|]. split; [apply Hok|].
  split.
  - intros v w a f g. apply vars_ok_injective, Hok.
  - intros Hnd i. apply vars_ok_no_gaps; assumption.
Qed.

(** ** Redeclarations *)

Lemma declarations_count seen l :
  (length (first_declarations seen l) + redeclarations seen l)%nat = length l.
Proof.
  revert seen. induction l as [|v l IH]; intros seen; simpl; [reflexivity|].
  rewrite length_app, <- (IH (v :: seen)).
  case_bool_decide; simpl; lia.
Qed.

Lemma addVariable_redeclared var isFloat p :
  is_Some (variables_ p !! var) ->
  fst (addVariable var isFloat p) = fst (lastVar_ p) /\
  fst (lastVar_ (snd (addVariable var isFloat p))) = fst (lastVar_ p) + 1 /\
  variables_ (snd (addVariable var isFloat p)) = variables_ p /\
  error_ (snd (addVariable var isFloat p)) = true /\
  addVariableCalls_ (snd (addVariable var isFloat p)) =
    addVariableCalls_ p ++ [(var, isFloat)].
Proof.
  intros [b Hb]. unfold addVariable. simpl. rewrite Hb. simpl. auto.
Qed.

(** The history before a recorded call, seen from a later state. *)
Lemma take_prefix_snoc {A} (l k : list A) (x : A) :
  (l ++ [x]) `prefix_of` k -> take (length l) k = l /\ k !! length l = Some x.
Proof.
  intros [m ->]. rewrite <- !app_assoc. split.
  - apply take_app_length.
  - rewrite lookup_app_r by lia. rewrite Nat.sub_diag. reflexivity.
Qed.

(** A declaration of a name that is already declared.  [isFloat] tells the
    keyword: [float] or [int]. *)
Lemma statement_redeclaration fuel p (isFloat : bool) :
  see (if isFloat then T_FLOAT else T_INT) p = true ->
  vars_ok p ->
  is_Some (variables_ p !!
             getStringValue
               (scanner_ (mustBe T_IDENTIFIER
                            (snd (match_ (if isFloat then T_FLOAT else T_INT) p))))) ->
  (enough p <= fuel)%nat ->
  exists p2 p',
    statement fuel p = Some p' /\
    code p' = code p2 ++ [mkCommand STORE (IntArg (fst (lastVar_ p)))] /\
    error_ p' = true /\
    (forall v f, variables_ p' !! v <> Some (fst (lastVar_ p), f)) /\
    vars_ok p' /\
    fst (lastVar_ p) < fst (lastVar_ p').
Proof.
  intros Hs Hok Hdecl Hfuel. unfold enough in Hfuel.
  destruct fuel as [|fuel]; [lia|].
  set (t := if isFloat then T_FLOAT else T_INT) in *.
  assert (Ht : t <> T_EOF) by (subst t; destruct isFloat; discriminate).
  pose proof (pending_match _ _ Hs Ht) as L.
  set (p1 := mustBe T_IDENTIFIER (snd (match_ t p))) in *.
  assert (Hsame : same_table p p1).
  { destruct (same_table_match t p) as (A1 & A2 & A3).
    destruct (same_table_mustBe T_IDENTIFIER (snd (match_ t p))) as (B1 & B2 & B3).
    subst p1. repeat split; congruence. }
  destruct Hsame as (Hv1 & Hl1 & Hc1).
  set (name := getStringValue (scanner_ p1)) in *.
  assert (Hdecl1 : is_Some (variables_ p1 !! name)) by (rewrite Hv1; exact Hdecl).
  destruct (addVariable_redeclared name isFloat p1 Hdecl1) as (Ha & _ & _ & He & Hcalls).
  set (r := addVariable name isFloat p1) in *.
  assert (Hok1 : vars_ok (snd r)).
  { apply vars_ok_addVariable, (vars_ok_same_table p); [repeat split|]; assumption. }
  assert (F0 : frame (snd (match_ t p)) (mustBe T_ASSIGN (snd r)))
    by (subst r p1; frame_tac).
  destruct (expression_total fuel (mustBe T_ASSIGN (snd r))) as (p2 & E & F).
  { apply fr_pending in F0. lia. }
  assert (Fr : frame (snd r) (cg_emit STORE (IntArg (fst r)) p2))
    by (clear F0; frame_tac).
  exists p2, (cg_emit STORE (IntArg (fst r)) p2).
  assert (Hst : statement (S fuel) p = Some (cg_emit STORE (IntArg (fst r)) p2)).
  { rewrite statement_eq. subst t. destruct isFloat.
    - rewrite (see_other _ T_INT _ Hs), Hs by discriminate. cbv zeta.
      fold p1. fold name. fold r. rewrite E. reflexivity.
    - rewrite Hs. cbv zeta. fold p1. fold name. fold r. rewrite E. reflexivity. }
  pose proof (fr_vars_ok _ _ Fr Hok1) as Hok'.
  pose proof (fr_calls _ _ Fr) as Hpre. rewrite Hcalls, Hc1 in Hpre.
  destruct (take_prefix_snoc _ _ _ Hpre) as (Htake & Hlook).
  destruct Hok as [Hcount Hbind].
  split; [exact Hst|]. split; [rewrite Ha, Hl1; reflexivity|].
  split; [apply (fr_error_mono _ _ Fr), He|].
  split; [|split; [exact Hok'|]].
  - intros v f. rewrite Hcount.
    apply (vars_ok_redeclared _ _ name isFloat Hok' Hlook).
    rewrite Htake. apply (declared_iff_called p name (conj Hcount Hbind)), Hdecl.
  - destruct Hok' as [Hcount' _]. rewrite Hcount, Hcount'.
    apply lookup_lt_Some in Hlook. lia.
Qed.

(** C9.  [addVariable] on a declared name returns the counter and
    increments it, and binds nothing.  The STORE that [statement] emits for
    such a declaration therefore has as operand an address that no
    variable has, then or at the end of the pass.  At the end of any pass,
    a variable is bound to the number of variables declared before it plus
    the number of redeclarations before it. *)
Theorem redeclaration_uses_up_an_address :
  (forall var isFloat p,
      is_Some (variables_ p !! var) ->
      fst (addVariable var isFloat p) = fst (lastVar_ p) /\
      fst (lastVar_ (snd (addVariable var isFloat p))) = fst (lastVar_ p) + 1 /\
      variables_ (snd (addVariable var isFloat p)) = variables_ p /\
      error_ (snd (addVariable var isFloat p)) = true) /\
  (forall fuel p (isFloat : bool),
      see (if isFloat then T_FLOAT else T_INT) p = true ->
      vars_ok p ->
      is_Some (variables_ p !!
                 getStringValue
                   (scanner_ (mustBe T_IDENTIFIER
                                (snd (match_ (if isFloat then T_FLOAT else T_INT) p))))) ->
      (enough p <= fuel)%nat ->
      exists p2 p',
        statement fuel p = Some p' /\
        code p' = code p2 ++ [mkCommand STORE (IntArg (fst (lastVar_ p)))] /\
        error_ p' = true /\
        (forall v f, variables_ p' !! v <> Some (fst (lastVar_ p), f)) /\
        vars_ok p' /\
        fst (lastVar_ p) < fst (lastVar_ p')) /\
  (forall s extra,
      exists p',
        parse (enough (Parser_new s) + extra) (Parser_new s) = Some p' /\
        forall (i : nat) v f,
          addVariableCalls_ p' !! i = Some (v, f) ->
          if bool_decide (v ∈ (take i (addVariableCalls_ p')).*1)
          then forall w g, variables_ p' !! w <> Some (Z.of_nat i, g)
          else variables_ p' !! v =
               Some (Z.of_nat
                       (length (first_declarations []
                                  (take i (addVariableCalls_ p')).*1)
                        + redeclarations [] (take i (addVariableCalls_ p')).*1),
                     f)).
Proof.
  split; [|split].
  - intros var isFloat p H.
    destruct (addVariable_redeclared var isFloat p H) as (H1 & H2 & H3 & H4 & _).
    auto.
  - exact statement_redeclaration.
  - intros s extra.
    destruct (parse_vars_ok s (enough (Parser_new s) + extra)) as (p' & E & Hok);
      [lia|].
    exists p'. split; [exact E|]. intros i v f Hi.
    case_bool_decide as Hin.
    + apply (vars_ok_redeclared p' i v f Hok Hi Hin).
    + rewrite declarations_count, length_fmap, length_take.
      pose proof (lookup_lt_Some _ _ _ Hi) as Hlt.
      rewrite Nat.min_l by lia.
      apply Hok. exists i. auto.
Qed.

Lemma redeclaration_uses_up_an_address_witness :
  (is_Some (variables_ declared_x !! "x"%string) /\
   fst (addVariable "x" true declared_x) = 1 /\
   fst (lastVar_ (snd (addVariable "x" true declared_x))) = 2 /\
   variables_ (snd (addVariable "x" true declared_x)) = variables_ declared_x) /\
  (see T_INT redeclare_x = true /\
   vars_ok redeclare_x /\
   fst (lastVar_ redeclare_x) = 1 /\
   exists p2 p',
     statement (enough redeclare_x) redeclare_x = Some p' /\
     code p' = code p2 ++ [mkCommand STORE (IntArg (fst (lastVar_ redeclare_x)))] /\
     error_ p' = true /\
     (forall v f, variables_ p' !! v <> Some (fst (lastVar_ redeclare_x), f)) /\
     vars_ok p' /\
     fst (lastVar_ redeclare_x) < fst (lastVar_ p')).
Proof.
  destruct redeclaration_uses_up_an_address as (H1 & H2 & _).
  assert (Hx : is_Some (variables_ declared_x !! "x"%string))
    by (exists (0, false); reflexivity).
  assert (Hok : vars_ok redeclare_x).
  { apply (vars_ok_same_table declared_x); [repeat split|].
    apply vars_ok_addVariable, vars_ok_Parser_new. }
  split.
  - split; [exact Hx|].
    destruct (H1 "x"%string true declared_x Hx) as (A & B & C & _).
    repeat split; assumption.
  - split; [reflexivity|]. split; [exact Hok|]. split; [reflexivity|].
    apply (H2 (enough redeclare_x) redeclare_x false);
      [reflexivity | exact Hok | exact Hx | apply le_n].
Defined.

(** * Further properties *)

(** ** Expressions only append arithmetic instructions *)

Lemma codegen_recover_loop n t p : codegen_ (recover_loop n t p) = codegen_ p.
Proof.
  revert p. induction n as [|n IH]; intros p; simpl; [reflexivity|].
  destruct (negb (see t p) && negb (see T_EOF p)); [|reflexivity].
  rewrite IH. reflexivity.
Qed.

Lemma codegen_mustBe t p : codegen_ (mustBe t p) = codegen_ p.
Proof.
  unfold mustBe, match_. case_bool_decide; simpl; [reflexivity|].
  unfold recover.
  destruct (see t _);
    [change (codegen_ (next ?q)) with (codegen_ q)|];
    rewrite codegen_recover_loop; reflexivity.
Qed.

Lemma same_table_refl p : same_table p p.
Proof. repeat split. Qed.

Lemma same_table_trans p q r : same_table p q -> same_table q r -> same_table p r.
Proof. intros (A1 & A2 & A3) (B1 & B2 & B3). repeat split; congruence. Qed.

Lemma appends_refl p : appends p p.
Proof.
  split; [|apply same_table_refl|reflexivity].
  exists []. rewrite app_nil_r. split; [reflexivity|]. split; [reflexivity|constructor].
Qed.

Lemma appends_trans p q r : appends p q -> appends q r -> appends p r.
Proof.
  intros [(l1 & C1 & A1 & B1) T1 O1] [(l2 & C2 & A2 & B2) T2 O2]. split.
  - exists (l1 ++ l2). rewrite C2, C1, app_assoc. split; [reflexivity|].
    split; [rewrite forallb_app, A1, A2; reflexivity|].
    apply Forall_app. split; [exact B1|].
    destruct T1 as (Hv & _). rewrite <- Hv. exact B2.
  - eapply same_table_trans; eassumption.
  - congruence.
Qed.

(** A step that leaves the code generator and the symbol table alone. *)
Lemma appends_quiet p q :
  codegen_ q = codegen_ p -> same_table p q -> appends p q.
Proof.
  intros Hc Ht. split; [|exact Ht|rewrite Hc; reflexivity].
  exists []. unfold code. rewrite Hc, app_nil_r.
  split; [reflexivity|]. split; [reflexivity|constructor].
Qed.

Lemma appends_next p : appends p (next p).
Proof. apply appends_quiet; [reflexivity | repeat split]. Qed.

Lemma appends_match t p : appends p (snd (match_ t p)).
Proof.
  apply appends_quiet; [|apply same_table_match].
  unfold match_. case_bool_decide; reflexivity.
Qed.

Lemma appends_mustBe t p : appends p (mustBe t p).
Proof. apply appends_quiet; [apply codegen_mustBe | apply same_table_mustBe]. Qed.

Lemma appends_reportError msg p : appends p (reportError msg p).
Proof. apply appends_quiet; [reflexivity | repeat split]. Qed.

Lemma appends_with_isFloatCast l p : appends p (with_isFloatCast l p).
Proof. apply appends_quiet; [reflexivity | repeat split]. Qed.

Lemma appends_findVariable var p : appends p (snd (findVariable var p)).
Proof.
  unfold findVariable. destruct (variables_ p !! var); simpl.
  - apply appends_refl.
  - apply appends_reportError.
Qed.

Lemma appends_cg_emit i a p :
  arithmetic (mkCommand i a) = true -> i <> LOAD -> appends p (cg_emit i a p).
Proof.
  intros H Hi. split; [|repeat split|reflexivity].
  exists [mkCommand i a]. split; [reflexivity|].
  split; [simpl; rewrite H; reflexivity|].
  apply Forall_singleton. intros E. contradiction.
Qed.

(** The LOAD of [factor], with the address [findVariable] returned. *)
Lemma appends_load var p :
  appends p (cg_emit LOAD (intArg (fst (findVariable var p)))
               (next (snd (findVariable var p)))).
Proof.
  unfold findVariable. destruct (variables_ p !! var) as [v|] eqn:E; cbn [fst snd].
  - split; [|repeat split|reflexivity].
    exists [mkCommand LOAD (IntArg (fst v))]. split; [reflexivity|].
    split; [reflexivity|]. apply Forall_singleton. intros _. right. eauto.
  - split; [|repeat split|reflexivity].
    exists [mkCommand LOAD Unspecified]. split; [reflexivity|].
    split; [reflexivity|]. apply Forall_singleton. intros _. left. reflexivity.
Qed.

Lemma appends_factor_number p : appends p (factor_number p).
Proof.
  unfold factor_number.
  eapply appends_trans; [|apply appends_with_isFloatCast].
  repeat match goal with
         | |- context [if ?b then _ else _] => destruct b
         end; first [apply appends_cg_emit; [reflexivity | discriminate] | apply appends_refl].
Qed.

Lemma appends_factor_rnumber p : appends p (factor_rnumber p).
Proof.
  unfold factor_rnumber.
  eapply appends_trans; [|apply appends_with_isFloatCast].
  repeat match goal with
         | |- context [if ?b then _ else _] => destruct b
         end; first [apply appends_cg_emit; [reflexivity | discriminate] | apply appends_refl].
Qed.

(** Closes an [appends] goal from the steps taken. *)
Ltac appends_tac :=
  lazymatch goal with
  | |- appends ?p ?p => apply appends_refl
  | H : appends ?p ?r |- appends ?p ?r => exact H
  | |- appends _ (cg_emit LOAD _ _) => apply appends_load
  | |- appends _ (cg_emit _ _ _) =>
      eapply appends_trans;
        [|apply appends_cg_emit; [reflexivity | discriminate]]; appends_tac
  | |- appends _ (next _) => eapply appends_trans; [|apply appends_next]; appends_tac
  | |- appends _ (mustBe _ _) => eapply appends_trans; [|apply appends_mustBe]; appends_tac
  | |- appends _ (reportError _ _) =>
      eapply appends_trans; [|apply appends_reportError]; appends_tac
  | |- appends _ (with_isFloatCast _ _) =>
      eapply appends_trans; [|apply appends_with_isFloatCast]; appends_tac
  | |- appends _ (factor_number _) =>
      eapply appends_trans; [|apply appends_factor_number]; appends_tac
  | |- appends _ (factor_rnumber _) =>
      eapply appends_trans; [|apply appends_factor_rnumber]; appends_tac
  | |- appends _ (snd (match_ _ _)) =>
      eapply appends_trans; [|apply appends_match]; appends_tac
  | |- appends _ (snd (findVariable _ _)) =>
      eapply appends_trans; [|apply appends_findVariable]; appends_tac
  | |- appends _ (if ?b then _ else _) => destruct b; appends_tac
  | H : appends ?q ?r |- appends _ ?r => eapply appends_trans; [|exact H]; appends_tac
  end.

(** Whatever the fuel, a result of an expression procedure is reached by
    appending arithmetic instructions only. *)
Lemma expression_block_appends fuel :
  (forall p p', expression fuel p = Some p' -> appends p p') /\
  (forall p p', expression_loop fuel p = Some p' -> appends p p') /\
  (forall p p', term fuel p = Some p' -> appends p p') /\
  (forall p p', term_loop fuel p = Some p' -> appends p p') /\
  (forall p p', factor fuel p = Some p' -> appends p p').
Proof.
  induction fuel as [|fuel (IHe & IHel & IHt & IHtl & IHf)].
  { split; [|split; [|split; [|split]]]; intros p p' H; discriminate H. }
  split; [|split; [|split; [|split]]]; intros p p' H.
  - rewrite expression_eq in H.
    destruct (term fuel p) as [p1|] eqn:E1; [|discriminate].
    apply IHt in E1. apply IHel in H. eapply appends_trans; eassumption.
  - rewrite expression_loop_eq in H. destruct (see T_ADDOP p).
    + destruct (term fuel (next p)) as [p1|] eqn:E1; [|discriminate].
      apply IHt in E1. apply IHel in H.
      eapply appends_trans; [|exact H]. clear H. appends_tac.
    + injection H as <-. apply appends_refl.
  - rewrite term_eq in H.
    destruct (factor fuel p) as [p1|] eqn:E1; [|discriminate].
    apply IHf in E1. apply IHtl in H. eapply appends_trans; eassumption.
  - rewrite term_loop_eq in H. destruct (see T_MULOP p).
    + destruct (factor fuel (next p)) as [p1|] eqn:E1; [|discriminate].
      apply IHf in E1. apply IHtl in H.
      eapply appends_trans; [|exact H]. clear H. appends_tac.
    + injection H as <-. apply appends_refl.
  - rewrite factor_eq in H.
    destruct (see T_NUMBER p); [injection H as <-; appends_tac|].
    destruct (see T_RNUMBER p).
    { destruct (afterOperator p); injection H as <-; appends_tac. }
    destruct (see T_IDENTIFIER p); [injection H as <-; appends_tac|].
    destruct (see T_ADDOP p && bool_decide (getArithmeticValue (scanner_ p) = A_MINUS)).
    { destruct (factor fuel (next p)) as [p1|] eqn:E1; [|discriminate].
      apply IHf in E1. injection H as <-. appends_tac. }
    destruct (see T_LPAREN p).
    { cbv zeta in H. destruct (see T_INT _).
      { apply IHe in H. eapply appends_trans; [|exact H]. clear H. appends_tac. }
      destruct (see T_FLOAT _).
      { apply IHe in H. eapply appends_trans; [|exact H]. clear H. appends_tac. }
      destruct (expression fuel _) as [p1|] eqn:E1; [|discriminate].
      apply IHe in E1. injection H as <-.
      eapply appends_trans; [|apply appends_mustBe].
      eapply appends_trans; [|exact E1]. clear E1. appends_tac. }
    destruct (see T_READ p); injection H as <-; appends_tac.
Qed.

(** ** Well-formed expressions are accepted and compiled *)

Lemma reading_head l p : reading l p -> token (scanner_ p) = head_token l.
Proof.
  intros (s0 & <- & ->). unfold nextToken, token, head_token.
  destruct (input_ s0) as [|[ln lx] rest]; [reflexivity|].
  destruct lx; reflexivity.
Qed.

Lemma reading_input x l p : reading (x :: l) p -> input_ (scanner_ p) = l.
Proof.
  intros (s0 & E & ->). unfold nextToken. rewrite E.
  destruct x as [ln lx]; destruct lx; reflexivity.
Qed.

Lemma reading_next x l p : reading (x :: l) p -> reading l (next p).
Proof.
  intros H. exists (scanner_ p). split; [apply (reading_input x), H | reflexivity].
Qed.

Lemma reading_see l p t : reading l p -> see t p = bool_decide (head_token l = t).
Proof. intros H. unfold see. rewrite (reading_head l p H). reflexivity. Qed.

Lemma reading_match x l p :
  reading (x :: l) p ->
  match_ (lexeme_token (snd x)) p = (true, with_scanner (nextToken (scanner_ p)) p) /\
  reading l (with_scanner (nextToken (scanner_ p)) p).
Proof.
  intros H. split.
  - unfold match_. rewrite (reading_head _ _ H). simpl.
    rewrite bool_decide_true by reflexivity. reflexivity.
  - exists (scanner_ p). split; [apply (reading_input x), H | reflexivity].
Qed.

Lemma reading_mustBe x l p :
  reading (x :: l) p ->
  mustBe (lexeme_token (snd x)) p = with_scanner (nextToken (scanner_ p)) p.
Proof.
  intros H. unfold mustBe. destruct (reading_match x l p H) as (-> & _). reflexivity.
Qed.

Lemma reading_seeOperator l p : reading l p -> seeOperator p = operator_follows l.
Proof.
  intros H. unfold seeOperator, operator_follows.
  rewrite !(reading_see l p _ H). reflexivity.
Qed.

(** The values the scanner holds for the current lexeme. *)
Lemma reading_number ln n l p :
  reading ((ln, LexNumber n) :: l) p -> getIntValue (scanner_ p) = n.
Proof. intros (s0 & E & ->). unfold nextToken. rewrite E. reflexivity. Qed.

Lemma reading_identifier ln x l p :
  reading ((ln, LexIdentifier x) :: l) p -> getStringValue (scanner_ p) = x.
Proof. intros (s0 & E & ->). unfold nextToken. rewrite E. reflexivity. Qed.

Lemma reading_addop ln op l p :
  reading ((ln, LexAddop op) :: l) p -> getArithmeticValue (scanner_ p) = op.
Proof. intros (s0 & E & ->). unfold nextToken. rewrite E. reflexivity. Qed.

Lemma reading_mulop ln op l p :
  reading ((ln, LexMulop op) :: l) p -> getArithmeticValue (scanner_ p) = op.
Proof. intros (s0 & E & ->). unfold nextToken. rewrite E. reflexivity. Qed.

Lemma reading_cmp ln c l p :
  reading ((ln, LexCmp c) :: l) p -> getCmpValue (scanner_ p) = c.
Proof. intros (s0 & E & ->). unfold nextToken. rewrite E. reflexivity. Qed.

(** The integer value survives the next token unless that is a number. *)
Lemma reading_number_next ln n l p :
  reading ((ln, LexNumber n) :: l) p -> number_follows l = false ->
  getIntValue (scanner_ (next p)) = n.
Proof.
  intros H Hn. rewrite <- (reading_number ln n l p H).
  pose proof (reading_input _ _ _ H) as Hi.
  unfold next, nextToken, getIntValue. simpl. rewrite Hi.
  destruct l as [|[ln' lx] l']; [reflexivity|].
  destruct lx; try reflexivity. discriminate Hn.
Qed.

Lemma parsed_refl p rest : reading rest p -> isFloatCast p = [] -> parsed p p rest [].
Proof.
  intros Hr Hc. split; auto; [rewrite app_nil_r; reflexivity | repeat split].
Qed.

Lemma parsed_trans p q r rest1 rest2 cs1 cs2 :
  parsed p q rest1 cs1 -> parsed q r rest2 cs2 -> parsed p r rest2 (cs1 ++ cs2).
Proof.
  intros [] []. split; auto; try congruence.
  - rewrite pa_code1, pa_code0, app_assoc. reflexivity.
  - eapply same_table_trans; eassumption.
Qed.

Lemma parsed_cg_emit p q rest cs i a :
  parsed p q rest cs -> parsed p (cg_emit i a q) rest (cs ++ [mkCommand i a]).
Proof.
  intros []. split; auto.
  - rewrite code_cg_emit, pa_code0, app_assoc. reflexivity.
Qed.

(** A step that only moves the scanner. *)
Lemma parsed_scan p q rest :
  reading rest q -> codegen_ q = codegen_ p -> cerr_ q = cerr_ p ->
  error_ q = error_ p -> isFloatCast q = [] -> same_table p q ->
  parsed p q rest [].
Proof.
  intros Hr Hc He Hf Hi Ht. split; auto.
  - unfold code. rewrite Hc, app_nil_r. reflexivity.
  - rewrite Hc. reflexivity.
Qed.

(** The first lexeme of an expression is not [int] or [float]. *)
Lemma tokens_factor_head ln f rest :
  head_token (tokens_factor ln f ++ rest) <> T_INT /\
  head_token (tokens_factor ln f ++ rest) <> T_FLOAT.
Proof. destruct f; simpl; split; discriminate. Qed.

Lemma tokens_expression_head ln e rest :
  head_token (tokens_expression ln e ++ rest) <> T_INT /\
  head_token (tokens_expression ln e ++ rest) <> T_FLOAT.
Proof.
  destruct e as [[f fs] ts]. simpl. rewrite <- !app_assoc.
  apply tokens_factor_head.
Qed.

(** What follows a term inside an expression, and a factor inside a
    term. *)
Lemma follow_expressiontail ln ts rest :
  head_token rest <> T_MULOP -> number_follows rest = false ->
  head_token (tokens_expressiontail ln ts ++ rest) <> T_MULOP /\
  number_follows (tokens_expressiontail ln ts ++ rest) = false /\
  operator_follows (tokens_expressiontail ln ts ++ rest)
    = after_term ts (operator_follows rest).
Proof.
  intros Hm Hn. destruct ts; simpl; [auto|].
  split; [discriminate|]. split; reflexivity.
Qed.

Lemma follow_termtail ln fs rest :
  number_follows rest = false ->
  number_follows (tokens_termtail ln fs ++ rest) = false /\
  operator_follows (tokens_termtail ln fs ++ rest)
    = after_factor fs (operator_follows rest).
Proof.
  intros Hn. destruct fs; simpl; [auto|]. split; reflexivity.
Qed.

Lemma parsed_ready p q rest cs vars ctx :
  parsed p q rest cs -> variables_ p = vars -> snd (lastVar_ p) = ctx ->
  reading rest q /\ variables_ q = vars /\ snd (lastVar_ q) = ctx /\
  isFloatCast q = [].
Proof.
  intros [Hr _ _ _ Hc (T1 & T2 & T3) _] Hv Hx. repeat split; congruence.
Qed.

Lemma expression_block_parsed ln vars ctx fuel :
  (forall e rest p p',
      reading (tokens_expression ln e ++ rest) p ->
      head_token rest <> T_ADDOP -> head_token rest <> T_MULOP ->
      number_follows rest = false ->
      variables_ p = vars -> snd (lastVar_ p) = ctx -> isFloatCast p = [] ->
      wf_expression vars e = true ->
      expression fuel p = Some p' ->
      parsed p p' rest (code_expression vars ctx (operator_follows rest) e)) /\
  (forall ts rest p p',
      reading (tokens_expressiontail ln ts ++ rest) p ->
      head_token rest <> T_ADDOP -> head_token rest <> T_MULOP ->
      number_follows rest = false ->
      variables_ p = vars -> snd (lastVar_ p) = ctx -> isFloatCast p = [] ->
      wf_expressiontail vars ts = true ->
      expression_loop fuel p = Some p' ->
      parsed p p' rest (code_expressiontail vars ctx (operator_follows rest) ts)) /\
  (forall t rest p p',
      reading (tokens_term ln t ++ rest) p ->
      head_token rest <> T_MULOP ->
      number_follows rest = false ->
      variables_ p = vars -> snd (lastVar_ p) = ctx -> isFloatCast p = [] ->
      wf_term vars t = true ->
      term fuel p = Some p' ->
      parsed p p' rest (code_term vars ctx (operator_follows rest) t)) /\
  (forall fs rest p p',
      reading (tokens_termtail ln fs ++ rest) p ->
      head_token rest <> T_MULOP ->
      number_follows rest = false ->
      variables_ p = vars -> snd (lastVar_ p) = ctx -> isFloatCast p = [] ->
      wf_termtail vars fs = true ->
      term_loop fuel p = Some p' ->
      parsed p p' rest (code_termtail vars ctx (operator_follows rest) fs)) /\
  (forall f rest p p',
      reading (tokens_factor ln f ++ rest) p ->
      number_follows rest = false ->
      variables_ p = vars -> snd (lastVar_ p) = ctx -> isFloatCast p = [] ->
      wf_factor vars f = true ->
      factor fuel p = Some p' ->
      parsed p p' rest (code_factor vars ctx (operator_follows rest) f)).
Proof.
  induction fuel as [|fuel (IHe & IHel & IHt & IHtl & IHf)].
  { split; [|split; [|split; [|split]]]; intros; discriminate. }
  split; [|split; [|split; [|split]]].
  - (* expression *)
    intros [t ts] rest p p' Hr Ha Hm Hn Hv Hx Hc Hd H.
    rewrite expression_eq in H. simpl in Hr, Hd. rewrite <- app_assoc in Hr.
    apply andb_true_iff in Hd as [Hd1 Hd2].
    destruct (term fuel p) as [p1|] eqn:E1; [|discriminate].
    destruct (follow_expressiontail ln ts rest Hm Hn) as (Fm & Fn & Fo).
    pose proof (IHt _ _ _ _ Hr Fm Fn Hv Hx Hc Hd1 E1) as P1.
    destruct (parsed_ready _ _ _ _ _ _ P1 Hv Hx) as (Hr1 & Hv1 & Hx1 & Hc1).
    pose proof (IHel _ _ _ _ Hr1 Ha Hm Hn Hv1 Hx1 Hc1 Hd2 H) as P2.
    simpl. rewrite <- Fo. eapply parsed_trans; eassumption.
  - (* expression_loop *)
    intros ts rest p p' Hr Ha Hm Hn Hv Hx Hc Hd H.
    rewrite expression_loop_eq in H. destruct ts as [|op t ts]; simpl in Hr, Hd.
    + rewrite (reading_see _ _ _ Hr) in H.
      rewrite bool_decide_false in H by exact Ha.
      injection H as <-. apply parsed_refl; assumption.
    + rewrite (reading_see _ _ _ Hr) in H. simpl in H.
      rewrite (reading_addop _ _ _ _ Hr) in H.
      apply andb_true_iff in Hd as [Hd1 Hd2].
      rewrite <- app_assoc in Hr.
      pose proof (reading_next _ _ _ Hr) as Hr0.
      destruct (term fuel (next p)) as [p1|] eqn:E1; [|discriminate].
      destruct (follow_expressiontail ln ts rest Hm Hn) as (Fm & Fn & Fo).
      pose proof (IHt _ _ _ _ Hr0 Fm Fn Hv Hx Hc Hd1 E1) as P1.
      destruct (parsed_ready _ _ _ _ _ _ P1 Hv Hx) as (Hr1 & Hv1 & Hx1 & Hc1).
      set (i := match op with Plus => ADD | Minus => SUB end).
      assert (P2 : parsed (next p) (cg_emit i NoArg p1)
                     (tokens_expressiontail ln ts ++ rest)
                     (code_term vars ctx (after_term ts (operator_follows rest)) t
                      ++ [mkCommand i NoArg])).
      { rewrite <- Fo. apply parsed_cg_emit, P1. }
      assert (Hq : (if bool_decide (addop_value op = A_PLUS)
                    then cg_emit ADD NoArg p1 else cg_emit SUB NoArg p1)
                   = cg_emit i NoArg p1) by (destruct op; reflexivity).
      rewrite Hq in H.
      destruct (parsed_ready _ _ _ _ vars ctx P2 Hv Hx) as (Hr2 & Hv2 & Hx2 & Hc2).
      pose proof (IHel _ _ _ _ Hr2 Ha Hm Hn Hv2 Hx2 Hc2 Hd2 H) as P3.
      pose proof (parsed_trans _ _ _ _ _ _ _ P2 P3) as P4.
      rewrite <- app_assoc in P4.
      destruct P4. split; auto.
  - (* term *)
    intros [f fs] rest p p' Hr Hm Hn Hv Hx Hc Hd H.
    rewrite term_eq in H. simpl in Hr, Hd. rewrite <- app_assoc in Hr.
    apply andb_true_iff in Hd as [Hd1 Hd2].
    destruct (factor fuel p) as [p1|] eqn:E1; [|discriminate].
    destruct (follow_termtail ln fs rest Hn) as (Fn & Fo).
    pose proof (IHf _ _ _ _ Hr Fn Hv Hx Hc Hd1 E1) as P1.
    destruct (parsed_ready _ _ _ _ _ _ P1 Hv Hx) as (Hr1 & Hv1 & Hx1 & Hc1).
    pose proof (IHtl _ _ _ _ Hr1 Hm Hn Hv1 Hx1 Hc1 Hd2 H) as P2.
    simpl. rewrite <- Fo. eapply parsed_trans; eassumption.
  - (* term_loop *)
    intros fs rest p p' Hr Hm Hn Hv Hx Hc Hd H.
    rewrite term_loop_eq in H. destruct fs as [|op f fs]; simpl in Hr, Hd.
    + rewrite (reading_see _ _ _ Hr) in H.
      rewrite bool_decide_false in H by exact Hm.
      injection H as <-. apply parsed_refl; assumption.
    + rewrite (reading_see _ _ _ Hr) in H. simpl in H.
      rewrite (reading_mulop _ _ _ _ Hr) in H.
      apply andb_true_iff in Hd as [Hd1 Hd2].
      rewrite <- app_assoc in Hr.
      pose proof (reading_next _ _ _ Hr) as Hr0.
      destruct (factor fuel (next p)) as [p1|] eqn:E1; [|discriminate].
      destruct (follow_termtail ln fs rest Hn) as (Fn & Fo).
      pose proof (IHf _ _ _ _ Hr0 Fn Hv Hx Hc Hd1 E1) as P1.
      destruct (parsed_ready _ _ _ _ _ _ P1 Hv Hx) as (Hr1 & Hv1 & Hx1 & Hc1).
      set (i := match op with Times => MULT | Divide => DIV end).
      assert (P2 : parsed (next p) (cg_emit i NoArg p1)
                     (tokens_termtail ln fs ++ rest)
                     (code_factor vars ctx (after_factor fs (operator_follows rest)) f
                      ++ [mkCommand i NoArg])).
      { rewrite <- Fo. apply parsed_cg_emit, P1. }
      assert (Hq : (if bool_decide (mulop_value op = A_MULTIPLY)
                    then cg_emit MULT NoArg p1 else cg_emit DIV NoArg p1)
                   = cg_emit i NoArg p1) by (destruct op; reflexivity).
      rewrite Hq in H.
      destruct (parsed_ready _ _ _ _ vars ctx P2 Hv Hx) as (Hr2 & Hv2 & Hx2 & Hc2).
      pose proof (IHtl _ _ _ _ Hr2 Hm Hn Hv2 Hx2 Hc2 Hd2 H) as P3.
      pose proof (parsed_trans _ _ _ _ _ _ _ P2 P3) as P4.
      rewrite <- app_assoc in P4.
      destruct P4. split; auto.
  - (* factor *)
    intros f rest p p' Hr Hn Hv Hx Hc Hd H.
    rewrite factor_eq in H. destruct f as [n|x| |f|e]; simpl in Hr, Hd.
    + (* an integer-form literal *)
      rewrite (reading_see _ _ _ Hr) in H. simpl in H. injection H as <-.
      pose proof (reading_next _ _ _ Hr) as Hr0.
      unfold factor_number.
      rewrite (reading_seeOperator _ _ Hr0), (reading_number_next _ _ _ _ Hr Hn).
      change (isFloatCast (next p)) with (isFloatCast p).
      change (lastVar_ (next p)) with (lastVar_ p).
      rewrite Hc, Hx. simpl.
      destruct (operator_follows rest); [|destruct ctx];
        (split; [exact Hr0 | reflexivity | reflexivity | reflexivity
                | reflexivity | repeat split | reflexivity]).
    + (* a variable *)
      rewrite !(reading_see _ _ _ Hr) in H. simpl in H. injection H as <-.
      apply bool_decide_eq_true in Hd. destruct Hd as [[a fl] Hd].
      rewrite (reading_identifier _ _ _ _ Hr).
      unfold findVariable. simpl. rewrite Hv, !Hd. simpl.
      split; [exact (reading_next _ _ _ Hr) | reflexivity | reflexivity
             | reflexivity | exact Hc | repeat split | reflexivity].
    + (* read *)
      rewrite !(reading_see _ _ _ Hr) in H. simpl in H. injection H as <-.
      destruct (reading_match _ _ _ Hr) as (Em & Hr0). simpl in Em.
      rewrite Em. simpl.
      split; [exact Hr0 | reflexivity | reflexivity
             | reflexivity | exact Hc | repeat split | reflexivity].
    + (* unary minus *)
      rewrite !(reading_see _ _ _ Hr) in H. simpl in H.
      rewrite (reading_addop _ _ _ _ Hr) in H. simpl in H.
      pose proof (reading_next _ _ _ Hr) as Hr0.
      destruct (factor fuel (next p)) as [p1|] eqn:E1; [|discriminate].
      injection H as <-.
      pose proof (IHf _ _ _ _ Hr0 Hn Hv Hx Hc Hd E1) as P1.
      apply (parsed_cg_emit _ _ _ _ INVERT NoArg) in P1.
      destruct P1. split; auto.
    + (* parentheses *)
      rewrite !(reading_see _ _ _ Hr) in H. simpl in H.
      destruct (reading_match _ _ _ Hr) as (Em & Hr0). simpl in Em.
      rewrite Em in H. cbn [snd] in H. rewrite <- app_assoc in Hr0.
      set (q := with_scanner (nextToken (scanner_ p)) p) in *.
      destruct (tokens_expression_head ln e ([(ln, LexPlain T_RPAREN)] ++ rest))
        as (Hi & Hf).
      rewrite !(reading_see _ _ _ Hr0) in H.
      rewrite !bool_decide_false in H by assumption.
      destruct (expression fuel (with_isFloatCast [] q)) as [p1|] eqn:E1;
        [|discriminate].
      injection H as <-.
      assert (P1 : parsed (with_isFloatCast [] q) p1
                     ([(ln, LexPlain T_RPAREN)] ++ rest)
                     (code_expression vars ctx false e)).
      { apply (IHe e ([(ln, LexPlain T_RPAREN)] ++ rest) (with_isFloatCast [] q) p1);
          try assumption; try reflexivity; try discriminate. }
      destruct P1 as [R1 C1 D1 G1 I1 (T1 & T2 & T3) O1].
      simpl in R1.
      rewrite (reading_mustBe _ _ _ R1 : mustBe T_RPAREN p1 = _).
      destruct (reading_match _ _ _ R1) as (_ & R2).
      split; auto; repeat split; auto.
Qed.

Lemma ends_expression_true rest :
  ends_expression rest = true ->
  head_token rest <> T_ADDOP /\ head_token rest <> T_MULOP /\
  number_follows rest = false.
Proof.
  unfold ends_expression. intros H.
  apply andb_true_iff in H as [H H3]. apply andb_true_iff in H as [H1 H2].
  apply negb_true_iff in H1, H2, H3.
  apply bool_decide_eq_false in H1, H2. auto.
Qed.

(** X1.  An expression without cast, made of integer literals from 0 to
    2^31 - 1, declared variables, [read], unary minus, parentheses and the
    four operators, is accepted when no cast is pending: [expression]
    returns, the parser has consumed exactly the lexemes of the
    expression, no diagnostic is recorded, the symbol table is as before,
    and the instructions appended are those of the expression in the order
    of evaluation, each operator after its right operand.  An integer
    literal is pushed as an integer if an operator follows it; if none
    does, it is pushed as an integer when the variable declared last is an
    [int], and through [static_cast<float>], which rounds to single
    precision, when that variable is a [float]. *)
Theorem expression_compiles ln (e : Expression) rest (p : Parser) :
  reading (tokens_expression ln e ++ rest) p ->
  ends_expression rest = true ->
  isFloatCast p = [] ->
  wf_expression (variables_ p) e = true ->
  exists p',
    expression (enough p) p = Some p' /\
    parsed p p' rest
      (code_expression (variables_ p) (snd (lastVar_ p)) (operator_follows rest) e).
Proof.
  intros Hr He Hc Hd.
  destruct (ends_expression_true rest He) as (Ha & Hm & Hn).
  destruct (expression_total (enough p) p (le_n _)) as (p' & E & _).
  exists p'. split; [exact E|].
  exact (proj1 (expression_block_parsed ln _ _ (enough p)) e rest p p'
           Hr Ha Hm Hn eq_refl eq_refl Hc Hd E).
Qed.

Lemma expression_compiles_witness :
  reading (tokens_expression 1 sample_expression ++ [(1%nat, LexPlain T_SEMICOLON)])
    at_sample_expression /\
  exists p',
    expression (enough at_sample_expression) at_sample_expression = Some p' /\
    parsed at_sample_expression p' [(1%nat, LexPlain T_SEMICOLON)]
      [mkCommand PUSH (IntArg 2); mkCommand LOAD (IntArg 0);
       mkCommand INPUT NoArg; mkCommand ADD NoArg; mkCommand MULT NoArg;
       mkCommand PUSH (IntArg 3); mkCommand INVERT NoArg; mkCommand SUB NoArg].
Proof.
  assert (Hr : reading (tokens_expression 1 sample_expression
                        ++ [(1%nat, LexPlain T_SEMICOLON)]) at_sample_expression).
  { exists (Scanner_new (tokens_expression 1 sample_expression
                         ++ [(1%nat, LexPlain T_SEMICOLON)])).
    split; reflexivity. }
  split; [exact Hr|].
  exact (expression_compiles 1 sample_expression [(1%nat, LexPlain T_SEMICOLON)]
           at_sample_expression Hr eq_refl eq_refl eq_refl).
Defined.

(** ** Well-formed programs are accepted and compiled *)

Lemma closes_true rest :
  closes rest = true ->
  ends_statement rest = true /\ head_token rest <> T_SEMICOLON.
Proof.
  unfold ends_statement, closes. intros H. split.
  - rewrite H. apply orb_true_r.
  - intros E. rewrite E in H. discriminate H.
Qed.

Lemma ends_statement_true rest :
  ends_statement rest = true ->
  ends_expression rest = true /\ operator_follows rest = false.
Proof.
  unfold ends_statement, closes, ends_expression, operator_follows, number_follows.
  destruct rest as [|[ln lx] rest]; [intros _; split; reflexivity|].
  destruct lx as [t| | | | | |]; simpl; try discriminate.
  destruct t; simpl; try discriminate; intros _; split; reflexivity.
Qed.

(** The first lexeme of a statement does not close a list. *)
Lemma tokens_statement_head ln s rest :
  closes (tokens_statement ln s ++ rest) = false.
Proof. destruct s as [[|] ? ?| | | | |]; reflexivity. Qed.

Lemma reading_plain_string ln x ln' t l p :
  reading ((ln, LexIdentifier x) :: (ln', LexPlain t) :: l) p ->
  getStringValue (nextToken (scanner_ p)) = x.
Proof.
  intros H. rewrite <- (reading_identifier _ _ _ _ H).
  pose proof (reading_input _ _ _ H) as Hi.
  unfold nextToken, getStringValue. rewrite Hi. reflexivity.
Qed.

Lemma addVariable_fresh var isFloat p :
  variables_ p !! var = None ->
  addVariable var isFloat p =
    (fst (lastVar_ p),
     with_lastVar (fst (lastVar_ p) + 1, isFloat)
       (with_variables (<[var := (fst (lastVar_ p), isFloat)]> (variables_ p))
          (with_lastVar (fst (lastVar_ p), isFloat)
             (with_addVariableCalls (addVariableCalls_ p ++ [(var, isFloat)]) p)))).
Proof. intros H. unfold addVariable. simpl. rewrite H. reflexivity. Qed.

Lemma compiled_from p q p' rest cs st' :
  codegen_ q = codegen_ p -> cerr_ q = cerr_ p -> error_ q = error_ p ->
  compiled q p' rest cs st' -> compiled p p' rest cs st'.
Proof.
  intros Hc He Hf []. split; auto; try congruence.
  unfold code in *. rewrite co_code0, Hc. reflexivity.
Qed.

Lemma compiled_parsed p p' rest cs st :
  parsed p p' rest cs -> holds st p -> compiled p p' rest cs st.
Proof.
  intros [? ? ? ? ? (T1 & T2 & T3) ?] (H1 & H2). split; auto.
  split; congruence.
Qed.

Lemma compiled_refl p rest st :
  reading rest p -> isFloatCast p = [] -> holds st p -> compiled p p rest [] st.
Proof. intros. split; auto. rewrite app_nil_r. reflexivity. Qed.

Lemma compiled_trans p q r rest1 rest2 cs1 cs2 st1 st2 :
  compiled p q rest1 cs1 st1 -> compiled q r rest2 cs2 st2 ->
  compiled p r rest2 (cs1 ++ cs2) st2.
Proof.
  intros [] []. split; auto; try congruence.
  rewrite co_code1, co_code0, app_assoc. reflexivity.
Qed.

Lemma compiled_cg_emit p q rest cs st i a :
  compiled p q rest cs st ->
  compiled p (cg_emit i a q) rest (cs ++ [mkCommand i a]) st.
Proof.
  intros []. split; auto.
  rewrite code_cg_emit, co_code0, app_assoc. reflexivity.
Qed.

(** The closing keyword of a statement is consumed. *)
Lemma compiled_mustBe p q x rest cs st :
  compiled p q (x :: rest) cs st ->
  compiled p (mustBe (lexeme_token (snd x)) q) rest cs st.
Proof.
  intros []. rewrite (reading_mustBe _ _ _ co_reading0).
  destruct (reading_match _ _ _ co_reading0) as (_ & R). split; auto.
Qed.

Lemma output_cg_emitAt address i a p :
  output_ (codegen_ (cg_emitAt address i a p)) = output_ (codegen_ p).
Proof. unfold cg_emitAt, emitAt. destruct (0 <=? address)%Z; reflexivity. Qed.

(** Patching the placeholder that heads the code added since [p]. *)
Lemma compiled_patch p q rest cs st i a a' :
  compiled p q rest (mkCommand NOP a' :: cs) st ->
  compiled p (cg_emitAt (getCurrentAddress (codegen_ p)) i a q) rest
    (mkCommand i a :: cs) st.
Proof.
  intros []. split; auto.
  - rewrite getCurrentAddress_code, code_cg_emitAt, co_code0.
    rewrite insert_app_r_alt by lia. rewrite Nat.sub_diag. reflexivity.
  - rewrite output_cg_emitAt. exact co_output0.
Qed.

(** A condition whose sides are well-formed expressions. *)
Lemma relation_parsed ln fuel st l c r rest p p' :
  reading (tokens_expression ln l ++ (ln, LexCmp c) :: tokens_expression ln r ++ rest) p ->
  ends_expression rest = true -> operator_follows rest = false ->
  holds st p -> isFloatCast p = [] ->
  wf_expression (sy_vars st) l = true ->
  wf_expression (sy_vars st) r = true ->
  relation fuel p = Some p' ->
  parsed p p' rest (code_relation st l c r).
Proof.
  intros Hr He Ho (Hv & Hl) Hc Hd1 Hd2 H. unfold relation in H.
  destruct (expression fuel p) as [p1|] eqn:E1; [|discriminate].
  assert (Hx : snd (lastVar_ p) = sy_ctx st) by (rewrite Hl; reflexivity).
  pose proof (proj1 (expression_block_parsed ln (sy_vars st) (sy_ctx st) fuel)
                l _ p p1 Hr ltac:(discriminate) ltac:(discriminate) eq_refl
                Hv Hx Hc Hd1 E1) as P1.
  destruct (parsed_ready _ _ _ _ _ _ P1 Hv Hx) as (Hr1 & Hv1 & Hx1 & Hc1).
  rewrite (reading_see _ _ _ Hr1) in H. simpl in H.
  rewrite (reading_cmp _ _ _ _ Hr1) in H.
  destruct (expression fuel (next p1)) as [p2|] eqn:E2; [|discriminate].
  injection H as <-.
  destruct (ends_expression_true rest He) as (Ha & Hm & Hn).
  pose proof (proj1 (expression_block_parsed ln (sy_vars st) (sy_ctx st) fuel)
                r rest (next p1) p2 (reading_next _ _ _ Hr1) Ha Hm Hn
                Hv1 Hx1 Hc1 Hd2 E2) as P2.
  rewrite Ho in P2.
  apply (parsed_cg_emit _ _ _ _ COMPARE (IntArg (cmpCode c))) in P2.
  pose proof (parsed_trans p p1 _ _ _ _ _ P1
                ltac:(destruct P2; split; eauto)) as P3.
  exact P3.
Qed.

(** Patching a placeholder [cs1] instructions after the code of [p]. *)
Lemma compiled_patch_at p q rest cs1 a' cs2 st i a b address :
  compiled p q rest (cs1 ++ mkCommand NOP a' :: cs2) st ->
  address = Z.of_nat (length (code p) + length cs1) ->
  b = a ->
  compiled p (cg_emitAt address i b q) rest (cs1 ++ mkCommand i a :: cs2) st.
Proof.
  intros [] -> ->. split; auto.
  - rewrite code_cg_emitAt, co_code0.
    rewrite insert_app_r_alt by lia.
    rewrite insert_app_r_alt by lia.
    replace (length (code p) + length cs1 - length (code p) - length cs1)%nat
      with 0%nat by lia.
    reflexivity.
  - rewrite output_cg_emitAt. exact co_output0.
Qed.

Lemma compiled_length p q rest cs st :
  compiled p q rest cs st -> length (code q) = (length (code p) + length cs)%nat.
Proof. intros []. rewrite co_code0, length_app. reflexivity. Qed.

Ltac norm_length H :=
  repeat first [rewrite length_app in H | progress cbn [length] in H].

Ltac norm_tokens H :=
  repeat (rewrite <- app_assoc in H || rewrite <- app_comm_cons in H);
  cbn [app] in H.

(** An expression in a statement, with the symbols [st] held. *)
Lemma expression_compiled ln fuel st e rest p p' :
  reading (tokens_expression ln e ++ rest) p ->
  ends_expression rest = true -> operator_follows rest = false ->
  holds st p -> isFloatCast p = [] ->
  wf_expression (sy_vars st) e = true ->
  expression fuel p = Some p' ->
  compiled p p' rest (code_expression (sy_vars st) (sy_ctx st) false e) st.
Proof.
  intros Hr He Ho Hh Hc Hd H.
  destruct (ends_expression_true rest He) as (Ha & Hm & Hn).
  pose proof Hh as (Hv & Hl).
  assert (Hx : snd (lastVar_ p) = sy_ctx st) by (rewrite Hl; reflexivity).
  pose proof (proj1 (expression_block_parsed ln (sy_vars st) (sy_ctx st) fuel)
                e rest p p' Hr Ha Hm Hn Hv Hx Hc Hd H) as P.
  rewrite Ho in P. apply compiled_parsed; assumption.
Qed.

Lemma statement_block_compiled ln fuel :
  (forall ss rest p p' st,
      reading (tokens_statementList ln ss ++ rest) p ->
      closes rest = true ->
      holds st p -> isFloatCast p = [] ->
      wf_statementList st ss = true ->
      statementList fuel p = Some p' ->
      compiled p p' rest (code_statementList (length (code p)) st ss)
        (symbols_statementList st ss)) /\
  (forall s ss rest p p' st,
      reading (tokens_statement ln s ++ tokens_statementTail ln ss ++ rest) p ->
      closes rest = true ->
      holds st p -> isFloatCast p = [] ->
      wf_statement st s = true ->
      wf_statementTail (symbols_statement st s) ss = true ->
      statementList_loop fuel p = Some p' ->
      compiled p p' rest (code_statementList (length (code p)) st (SSeq s ss))
        (symbols_statementList st (SSeq s ss))) /\
  (forall s rest p p' st,
      reading (tokens_statement ln s ++ rest) p ->
      ends_statement rest = true ->
      holds st p -> isFloatCast p = [] ->
      wf_statement st s = true ->
      statement fuel p = Some p' ->
      compiled p p' rest (code_statement (length (code p)) st s)
        (symbols_statement st s)).
Proof.
  induction fuel as [|fuel (IHsl & IHl & IHs)].
  { split; [|split]; intros; discriminate. }
  split; [|split].
  - (* statementList *)
    intros ss rest p p' st Hr Hcl Hh Hc Hw H.
    rewrite statementList_eq in H. destruct ss as [|s ss]; simpl in Hr, Hw.
    + assert (Hsee : see T_END p || see T_OD p || see T_ELSE p || see T_FI p = true).
      { rewrite !(reading_see _ _ _ Hr). exact Hcl. }
      rewrite Hsee in H. injection H as <-. apply compiled_refl; assumption.
    + assert (Hsee : see T_END p || see T_OD p || see T_ELSE p || see T_FI p = false).
      { rewrite !(reading_see _ _ _ Hr). rewrite <- app_assoc.
        apply (tokens_statement_head ln s). }
      rewrite Hsee in H. rewrite <- app_assoc in Hr.
      apply andb_true_iff in Hw as [Hw1 Hw2].
      exact (IHl s ss rest p p' st Hr Hcl Hh Hc Hw1 Hw2 H).
  - (* statementList_loop *)
    intros s ss rest p p' st Hr Hcl Hh Hc Hw1 Hw2 H.
    rewrite statementList_loop_eq in H.
    destruct (statement fuel p) as [p1|] eqn:E1; [|discriminate].
    destruct (closes_true rest Hcl) as (Hes & Hsemi).
    assert (Hend : ends_statement (tokens_statementTail ln ss ++ rest) = true).
    { destruct ss; [exact Hes | reflexivity]. }
    pose proof (IHs s _ p p1 st Hr Hend Hh Hc Hw1 E1) as C1.
    destruct C1 as [R1 K1 D1 G1 I1 H1 O1].
    destruct ss as [|s2 ss]; simpl in R1, Hw2.
    + rewrite (reading_see _ _ _ R1) in H.
      rewrite bool_decide_false in H by exact Hsemi.
      injection H as <-. simpl. rewrite app_nil_r. split; auto.
    + rewrite (reading_see _ _ _ R1) in H. simpl in H.
      destruct (reading_match _ _ _ R1) as (Em & R2). simpl in Em.
      rewrite Em in H. cbn [snd] in H.
      apply andb_true_iff in Hw2 as [Hw2 Hw3].
      set (q := with_scanner (nextToken (scanner_ p1)) p1) in *.
      rewrite <- app_assoc in R2.
      pose proof (IHl s2 ss rest q p' _ R2 Hcl H1 I1 Hw2 Hw3 H) as C2.
      change (code q) with (code p1) in C2.
      rewrite K1, length_app in C2.
      assert (C1 : compiled p q
                     (tokens_statement ln s2 ++ tokens_statementTail ln ss ++ rest)
                     (code_statement (length (code p)) st s)
                     (symbols_statement st s)) by (split; auto).
      exact (compiled_trans _ _ _ _ _ _ _ _ _ C1 C2).
  - (* statement *)
    intros s rest p p' st Hr Hes Hh Hc Hw H.
    rewrite statement_eq in H.
    destruct (ends_statement_true rest Hes) as (Hee & Hop).
    destruct Hh as (Hv & Hl).
    destruct s as [isFloat x e|x e|l c r body|l c r body other|l c r body|e];
      simpl in Hr, Hw.
    + (* declaration *)
      apply andb_true_iff in Hw as [Hw1 Hw2].
      apply bool_decide_eq_true in Hw1.
      destruct (reading_match _ _ _ Hr) as (Em & R1).
      cbn [lexeme_token snd] in Em.
      set (q1 := with_scanner (nextToken (scanner_ p)) p) in *.
      pose proof (reading_mustBe _ _ _ R1) as Eb. cbn [lexeme_token snd] in Eb.
      destruct (reading_match _ _ _ R1) as (_ & R2).
      set (q2 := with_scanner (nextToken (scanner_ q1)) q1) in *.
      pose proof (reading_plain_string _ _ _ _ _ _ R1) as Ex.
      change (nextToken (scanner_ q1)) with (scanner_ q2) in Ex.
      assert (Hfresh : variables_ q2 !! x = None) by (rewrite <- Hv in Hw1; exact Hw1).
      pose proof (addVariable_fresh x isFloat q2 Hfresh) as Ea.
      set (q3 := with_lastVar _ _) in Ea.
      assert (R3 : reading ((ln, LexPlain T_ASSIGN) :: tokens_expression ln e ++ rest) q3)
        by exact R2.
      pose proof (reading_mustBe _ _ _ R3) as Eb3. cbn [lexeme_token snd] in Eb3.
      destruct (reading_match _ _ _ R3) as (_ & R4).
      set (q4 := with_scanner (nextToken (scanner_ q3)) q3) in *.
      assert (Hh4 : holds (symbols_statement st (SDeclare isFloat x e)) q4).
      { split; simpl; rewrite ?Hv, Hl; reflexivity. }
      assert (Hcomp : forall p5, expression fuel q4 = Some p5 ->
                compiled p (cg_emit STORE (IntArg (fst (lastVar_ q2))) p5) rest
                  (code_statement (length (code p)) st (SDeclare isFloat x e))
                  (symbols_statement st (SDeclare isFloat x e))).
      { intros p5 E5.
        pose proof (expression_compiled ln fuel _ e rest q4 p5 R4 Hee Hop Hh4 Hc Hw2 E5) as C.
        apply (compiled_from p q4); [reflexivity..|].
        apply (compiled_cg_emit _ _ _ _ _ STORE (IntArg (fst (lastVar_ q2)))) in C.
        simpl in C |- *. change (lastVar_ q2) with (lastVar_ p). rewrite Hl in C |- *.
        exact C. }
      rewrite !(reading_see _ _ _ Hr) in H. cbn [head_token lexeme_token snd] in H.
      destruct isFloat.
      * rewrite bool_decide_false in H by discriminate.
        rewrite bool_decide_true in H by reflexivity.
        cbv zeta in H. rewrite Em in H. cbn [snd] in H. rewrite Eb, Ex, Ea in H.
        cbn [snd fst] in H. rewrite Eb3 in H.
        destruct (expression fuel q4) as [p5|] eqn:E5; [|discriminate].
        injection H as <-. exact (Hcomp p5 eq_refl).
      * rewrite bool_decide_true in H by reflexivity.
        cbv zeta in H. rewrite Em in H. cbn [snd] in H. rewrite Eb, Ex, Ea in H.
        cbn [snd fst] in H. rewrite Eb3 in H.
        destruct (expression fuel q4) as [p5|] eqn:E5; [|discriminate].
        injection H as <-. exact (Hcomp p5 eq_refl).
    + (* assignment *)
      apply andb_true_iff in Hw as [Hw1 Hw2].
      apply bool_decide_eq_true in Hw1. destruct Hw1 as (v & Hx).
      destruct (reading_match _ _ _ Hr) as (Em & R1).
      cbn [lexeme_token snd] in Em.
      set (q1 := with_scanner (nextToken (scanner_ p)) p) in *.
      pose proof (reading_plain_string _ _ _ _ _ _ Hr) as Ex.
      change (nextToken (scanner_ p)) with (scanner_ q1) in Ex.
      assert (Ef : findVariable x q1 = (Some (fst v), q1)).
      { unfold findVariable. change (variables_ q1) with (variables_ p).
        rewrite Hv, Hx. reflexivity. }
      pose proof (reading_mustBe _ _ _ R1) as Eb. cbn [lexeme_token snd] in Eb.
      destruct (reading_match _ _ _ R1) as (_ & R2).
      set (q2 := with_scanner (nextToken (scanner_ q1)) q1) in *.
      rewrite !(reading_see _ _ _ Hr) in H. cbn [head_token lexeme_token snd] in H.
      rewrite !bool_decide_false in H by discriminate.
      rewrite bool_decide_true in H by reflexivity.
      cbv zeta in H. rewrite Em in H. cbn [snd] in H. rewrite Ex, Ef in H.
      cbn [snd fst] in H. rewrite Eb in H.
      destruct (expression fuel q2) as [p5|] eqn:E5; [|discriminate].
      injection H as <-.
      assert (Hh2 : holds st q2) by (split; assumption).
      pose proof (expression_compiled ln fuel st e rest q2 p5 R2 Hee Hop Hh2 Hc Hw2 E5) as C.
      apply (compiled_from p q2); [reflexivity..|].
      apply (compiled_cg_emit _ _ _ _ _ STORE (intArg (Some (fst v)))) in C.
      simpl. rewrite Hx. exact C.
    + (* if without else *)
      apply andb_true_iff in Hw as [Hw Hw3].
      apply andb_true_iff in Hw as [Hw1 Hw2].
      norm_tokens Hr.
      destruct (reading_match _ _ _ Hr) as (Em & R1).
      cbn [lexeme_token snd] in Em.
      set (q1 := with_scanner (nextToken (scanner_ p)) p) in *.
      rewrite !(reading_see _ _ _ Hr) in H. cbn [head_token lexeme_token snd] in H.
      rewrite !bool_decide_false in H by discriminate.
      rewrite bool_decide_true in H by reflexivity.
      rewrite Em in H. cbn [snd] in H.
      destruct (relation fuel q1) as [p1|] eqn:E1; [|discriminate].
      cbv zeta in H.
      destruct (statementList fuel (mustBe T_THEN (snd (cg_reserve p1))))
        as [p2|] eqn:E2; [|discriminate].
      assert (Hh1 : holds st q1) by (split; assumption).
      pose proof (relation_parsed ln fuel st l c r _ q1 p1 R1 eq_refl eq_refl
                    Hh1 Hc Hw1 Hw2 E1) as P1.
      pose proof (compiled_parsed _ _ _ _ _ P1 Hh1) as C1.
      pose proof (compiled_length _ _ _ _ _ C1) as L1.
      pose proof (compiled_cg_emit _ _ _ _ _ NOP NoArg C1) as C2.
      pose proof (compiled_mustBe _ _ (ln, LexPlain T_THEN) _ _ _ C2) as C3.
      cbn [lexeme_token snd] in C3.
      change (cg_emit NOP NoArg p1) with (snd (cg_reserve p1)) in C3.
      pose proof (compiled_length _ _ _ _ _ C3) as L3.
      rewrite length_app in L3. cbn [length] in L3.
      change (code q1) with (code p) in L1, L3.
      rewrite Nat.add_1_r, Nat.add_succ_r in L3.
      set (q3 := mustBe T_THEN (snd (cg_reserve p1))) in *.
      destruct C3 as [R3 K3 D3 G3 I3 H3 O3].
      pose proof (IHsl body _ q3 p2 st R3 eq_refl H3 I3 Hw3 E2) as C4.
      rewrite L3 in C4.
      pose proof (compiled_length _ _ _ _ _ C4) as L4.
      assert (C5 : compiled q1 p2 ((ln, LexPlain T_FI) :: rest)
                     (code_relation st l c r ++ mkCommand NOP NoArg
                        :: code_statementList
                             (S (length (code p) + length (code_relation st l c r)))
                             st body)
                     (symbols_statementList st body)).
      { pose proof (compiled_trans q1 q3 p2 _ _ _ _ _ _
                      ltac:(split; eassumption) C4) as C.
        rewrite <- app_assoc in C. exact C. }
      rewrite (reading_see _ _ _ (co_reading _ _ _ _ _ C4)) in H.
      cbn [head_token lexeme_token snd] in H.
      rewrite bool_decide_false in H by discriminate.
      injection H as <-.
      apply (compiled_from p q1); [reflexivity..|].
      apply (compiled_mustBe _ _ (ln, LexPlain T_FI)).
      cbn [code_statement symbols_statement].
      apply (compiled_patch_at _ _ _ _ NoArg); [exact C5| |].
      * rewrite getCurrentAddress_code, L1. reflexivity.
      * rewrite getCurrentAddress_code, L4, L3. reflexivity.
    + (* if with else *)
      apply andb_true_iff in Hw as [Hw Hw4].
      apply andb_true_iff in Hw as [Hw Hw3].
      apply andb_true_iff in Hw as [Hw1 Hw2].
      norm_tokens Hr.
      destruct (reading_match _ _ _ Hr) as (Em & R1).
      cbn [lexeme_token snd] in Em.
      set (q1 := with_scanner (nextToken (scanner_ p)) p) in *.
      rewrite !(reading_see _ _ _ Hr) in H. cbn [head_token lexeme_token snd] in H.
      rewrite !bool_decide_false in H by discriminate.
      rewrite bool_decide_true in H by reflexivity.
      rewrite Em in H. cbn [snd] in H.
      destruct (relation fuel q1) as [p1|] eqn:E1; [|discriminate].
      cbv zeta in H.
      destruct (statementList fuel (mustBe T_THEN (snd (cg_reserve p1))))
        as [p2|] eqn:E2; [|discriminate].
      assert (Hh1 : holds st q1) by (split; assumption).
      pose proof (relation_parsed ln fuel st l c r _ q1 p1 R1 eq_refl eq_refl
                    Hh1 Hc Hw1 Hw2 E1) as P1.
      pose proof (compiled_parsed _ _ _ _ _ P1 Hh1) as C1.
      pose proof (compiled_length _ _ _ _ _ C1) as L1.
      pose proof (compiled_cg_emit _ _ _ _ _ NOP NoArg C1) as C2.
      pose proof (compiled_mustBe _ _ (ln, LexPlain T_THEN) _ _ _ C2) as C3.
      cbn [lexeme_token snd] in C3.
      change (cg_emit NOP NoArg p1) with (snd (cg_reserve p1)) in C3.
      pose proof (compiled_length _ _ _ _ _ C3) as L3.
      rewrite length_app in L3. cbn [length] in L3.
      change (code q1) with (code p) in L1, L3.
      rewrite Nat.add_1_r, Nat.add_succ_r in L3.
      set (q3 := mustBe T_THEN (snd (cg_reserve p1))) in *.
      destruct C3 as [R3 K3 D3 G3 I3 H3 O3].
      pose proof (IHsl body _ q3 p2 st R3 eq_refl H3 I3 Hw3 E2) as C4.
      rewrite L3 in C4.
      set (rel := code_relation st l c r) in *.
      set (bc := code_statementList (S (length (code p) + length rel)) st body) in *.
      pose proof (compiled_length _ _ _ _ _ C4) as L4. rewrite L3 in L4.
      assert (C5 : compiled q1 p2
                     ((ln, LexPlain T_ELSE)
                      :: tokens_statementList ln other ++ (ln, LexPlain T_FI) :: rest)
                     (rel ++ mkCommand NOP NoArg :: bc)
                     (symbols_statementList st body)).
      { pose proof (compiled_trans q1 q3 p2 _ _ _ _ _ _
                      ltac:(split; eassumption) C4) as C.
        rewrite <- app_assoc in C. exact C. }
      rewrite (reading_see _ _ _ (co_reading _ _ _ _ _ C4)) in H.
      cbn [head_token lexeme_token snd] in H.
      rewrite bool_decide_true in H by reflexivity.
      pose proof (compiled_mustBe _ _ (ln, LexPlain T_ELSE) _ _ _ C5) as C6.
      rewrite (reading_mustBe _ _ _ (co_reading _ _ _ _ _ C5)) in C6.
      destruct (reading_match _ _ _ (co_reading _ _ _ _ _ C5)) as (Em2 & _).
      cbn [lexeme_token snd] in Em2. rewrite Em2 in H. cbn [snd] in H.
      set (q4 := with_scanner (nextToken (scanner_ p2)) p2) in *.
      pose proof (compiled_cg_emit _ _ _ _ _ NOP NoArg C6) as C7.
      change (cg_emit NOP NoArg q4) with (snd (cg_reserve q4)) in C7.
      rewrite <- app_assoc in C7. cbn [app] in C7.
      pose proof (compiled_length _ _ _ _ _ C7) as L7.
      norm_length L7. change (code q1) with (code p) in L7.
      set (p3 := snd (cg_reserve q4)) in *.
      assert (L7' : length (code p3) = S (S (length (code p) + length rel) + length bc))
        by lia.
      assert (C8 : compiled q1
                     (cg_emitAt (getCurrentAddress (codegen_ p1)) JUMP_NO
                        (IntArg (getCurrentAddress (codegen_ p3))) p3)
                     (tokens_statementList ln other ++ (ln, LexPlain T_FI) :: rest)
                     (rel ++ mkCommand JUMP_NO
                               (IntArg (Z.of_nat (S (S (length (code p) + length rel)
                                                     + length bc))))
                          :: bc ++ [mkCommand NOP NoArg])
                     (symbols_statementList st body)).
      { apply (compiled_patch_at _ _ _ _ NoArg); [exact C7| |].
        - rewrite getCurrentAddress_code, L1. reflexivity.
        - rewrite getCurrentAddress_code, L7'. reflexivity. }
      set (q5 := cg_emitAt _ _ _ p3) in *.
      destruct (statementList fuel q5) as [p4|] eqn:E4; [|discriminate].
      injection H as <-.
      pose proof (compiled_length _ _ _ _ _ C8) as L8.
      norm_length L8. change (code q1) with (code p) in L8.
      assert (L8' : length (code q5) = S (S (length (code p) + length rel) + length bc))
        by lia.
      pose proof (IHsl other _ q5 p4 _ (co_reading _ _ _ _ _ C8) eq_refl
                    (co_holds _ _ _ _ _ C8) (co_cast _ _ _ _ _ C8) Hw4 E4) as C9.
      rewrite L8' in C9.
      set (oc := code_statementList _ (symbols_statementList st body) other) in *.
      pose proof (compiled_trans _ _ _ _ _ _ _ _ _ C8 C9) as C10.
      replace ((rel ++ mkCommand JUMP_NO
                         (IntArg (Z.of_nat (S (S (length (code p) + length rel)
                                               + length bc))))
                    :: bc ++ [mkCommand NOP NoArg]) ++ oc)
        with ((rel ++ mkCommand JUMP_NO
                         (IntArg (Z.of_nat (S (S (length (code p) + length rel)
                                               + length bc))))
                    :: bc) ++ mkCommand NOP NoArg :: oc) in C10
        by (rewrite <- !app_assoc; cbn [app]; rewrite <- app_assoc; reflexivity).
      pose proof (compiled_length _ _ _ _ _ C10) as L10.
      norm_length L10. change (code q1) with (code p) in L10.
      apply (compiled_from p q1); [reflexivity..|].
      apply (compiled_mustBe _ _ (ln, LexPlain T_FI)).
      cbn [code_statement symbols_statement]. fold rel. fold bc. fold oc.
      rewrite app_comm_cons, app_assoc.
      apply (compiled_patch_at _ _ _ _ NoArg); [exact C10| |].
      * rewrite getCurrentAddress_code. apply (f_equal Z.of_nat).
        rewrite length_app. cbn [length]. change (code q1) with (code p). lia.
      * rewrite getCurrentAddress_code. apply (f_equal IntArg), (f_equal Z.of_nat). lia.
    + (* while *)
      apply andb_true_iff in Hw as [Hw Hw3].
      apply andb_true_iff in Hw as [Hw1 Hw2].
      norm_tokens Hr.
      destruct (reading_match _ _ _ Hr) as (Em & R1).
      cbn [lexeme_token snd] in Em.
      set (q1 := with_scanner (nextToken (scanner_ p)) p) in *.
      rewrite !(reading_see _ _ _ Hr) in H. cbn [head_token lexeme_token snd] in H.
      rewrite !bool_decide_false in H by discriminate.
      rewrite bool_decide_true in H by reflexivity.
      cbv zeta in H. rewrite Em in H. cbn [snd] in H.
      destruct (relation fuel q1) as [p1|] eqn:E1; [|discriminate].
      destruct (statementList fuel (mustBe T_DO (snd (cg_reserve p1))))
        as [p2|] eqn:E2; [|discriminate].
      injection H as <-.
      assert (Hh1 : holds st q1) by (split; assumption).
      pose proof (relation_parsed ln fuel st l c r _ q1 p1 R1 eq_refl eq_refl
                    Hh1 Hc Hw1 Hw2 E1) as P1.
      pose proof (compiled_parsed _ _ _ _ _ P1 Hh1) as C1.
      pose proof (compiled_length _ _ _ _ _ C1) as L1.
      pose proof (compiled_cg_emit _ _ _ _ _ NOP NoArg C1) as C2.
      pose proof (compiled_mustBe _ _ (ln, LexPlain T_DO) _ _ _ C2) as C3.
      cbn [lexeme_token snd] in C3.
      change (cg_emit NOP NoArg p1) with (snd (cg_reserve p1)) in C3.
      pose proof (compiled_length _ _ _ _ _ C3) as L3.
      rewrite length_app in L3. cbn [length] in L3.
      change (code q1) with (code p) in L1, L3.
      rewrite Nat.add_1_r, Nat.add_succ_r in L3.
      set (q3 := mustBe T_DO (snd (cg_reserve p1))) in *.
      destruct C3 as [R3 K3 D3 G3 I3 H3 O3].
      pose proof (IHsl body _ q3 p2 st R3 eq_refl H3 I3 Hw3 E2) as C4.
      rewrite L3 in C4.
      set (rel := code_relation st l c r) in *.
      set (bc := code_statementList (S (length (code p) + length rel)) st body) in *.
      assert (C5 : compiled q1 p2 ((ln, LexPlain T_OD) :: rest)
                     (rel ++ mkCommand NOP NoArg :: bc)
                     (symbols_statementList st body)).
      { pose proof (compiled_trans q1 q3 p2 _ _ _ _ _ _
                      ltac:(split; eassumption) C4) as C.
        rewrite <- app_assoc in C. exact C. }
      pose proof (compiled_mustBe _ _ (ln, LexPlain T_OD) _ _ _ C5) as C6.
      cbn [lexeme_token snd] in C6.
      pose proof (compiled_cg_emit _ _ _ _ _ JUMP
                    (IntArg (getCurrentAddress (codegen_ q1))) C6) as C7.
      rewrite <- app_assoc in C7. cbn [app] in C7.
      pose proof (compiled_length _ _ _ _ _ C7) as L7.
      norm_length L7. rewrite getCurrentAddress_code in L7.
      change (code q1) with (code p) in L7.
      apply (compiled_from p q1); [reflexivity..|].
      cbn [code_statement symbols_statement]. fold rel. fold bc.
      apply (compiled_patch_at _ _ _ _ NoArg); [exact C7| |].
      * rewrite getCurrentAddress_code, L1. reflexivity.
      * apply (f_equal IntArg), (f_equal Z.of_nat).
        transitivity (length (code p) + (length rel + S (length bc + 1)))%nat;
          [exact L7 | lia].
    + (* write *)
      destruct (reading_match _ _ _ Hr) as (Em & R1).
      cbn [lexeme_token snd] in Em.
      set (q1 := with_scanner (nextToken (scanner_ p)) p) in *.
      pose proof (reading_mustBe _ _ _ R1) as Eb. cbn [lexeme_token snd] in Eb.
      destruct (reading_match _ _ _ R1) as (_ & R2).
      set (q2 := with_scanner (nextToken (scanner_ q1)) q1) in *.
      rewrite !(reading_see _ _ _ Hr) in H. cbn [head_token lexeme_token snd] in H.
      rewrite !bool_decide_false in H by discriminate.
      rewrite bool_decide_true in H by reflexivity.
      rewrite Em in H. cbn [snd] in H. rewrite Eb in H.
      destruct (expression fuel q2) as [p5|] eqn:E5; [|discriminate].
      injection H as <-.
      assert (Hh2 : holds st q2) by (split; assumption).
      rewrite <- app_assoc in R2.
      pose proof (expression_compiled ln fuel st e _ q2 p5 R2 eq_refl eq_refl
                    Hh2 Hc Hw E5) as C.
      apply (compiled_from p q2); [reflexivity..|].
      apply compiled_cg_emit.
      exact (compiled_mustBe _ _ (ln, LexPlain T_RPAREN) _ _ _ C).
Qed.

Lemma reading_Parser_new l : reading l (Parser_new (Scanner_new l)).
Proof. exists (Scanner_new l). split; reflexivity. Qed.

(** X2.  A well-formed program (statements of the grammar between [begin]
    and [end], integer literals from 0 to 2^31 - 1, no cast, every
    variable declared once and before its use) is accepted: [parse]
    returns, no diagnostic is recorded, the instructions are those of
    [code_program], with every jump patched to its target and every
    literal that ends an expression under a [float] variable converted by
    [static_cast<float>], and the listing is flushed once. *)
Theorem program_compiles ln ss :
  wf_statementList Symbols_new ss = true ->
  exists p',
    parse (enough (Parser_new (Scanner_new (tokens_program ln ss))))
      (Parser_new (Scanner_new (tokens_program ln ss))) = Some p' /\
    cerr_ p' = [] /\ error_ p' = false /\
    code p' = code_program ss /\
    output_ (codegen_ p') = [code_program ss].
Proof.
  intros Hw.
  set (p := Parser_new (Scanner_new (tokens_program ln ss))).
  pose proof (reading_Parser_new (tokens_program ln ss)) as Hr. fold p in Hr.
  destruct (program_total (enough p) p (Nat.le_refl _)) as (p1 & E & _).
  unfold parse. rewrite E. unfold program in E.
  unfold tokens_program in Hr.
  pose proof (reading_mustBe _ _ _ Hr) as Eb. cbn [lexeme_token snd] in Eb.
  destruct (reading_match _ _ _ Hr) as (_ & R1).
  rewrite Eb in E.
  set (q1 := with_scanner (nextToken (scanner_ p)) p) in *.
  destruct (statementList (enough p) q1) as [p2|] eqn:E2; [|discriminate].
  apply (inj Some) in E. subst p1.
  assert (Hh : holds Symbols_new q1) by (split; reflexivity).
  pose proof (proj1 (statement_block_compiled ln (enough p)) ss _ q1 p2 Symbols_new
                R1 eq_refl Hh eq_refl Hw E2) as C.
  change (length (code q1)) with 0%nat in C.
  apply (compiled_mustBe _ _ (ln, LexPlain T_END)) in C. cbn [lexeme_token snd] in C.
  apply (compiled_cg_emit _ _ _ _ _ STOP NoArg) in C.
  destruct C as [_ K D G _ _ O].
  change (error_ q1) with false in G.
  change (code q1) with (@nil Command) in K.
  change (output_ (codegen_ q1)) with (@nil (list Command)) in O.
  rewrite G. cbn [negb]. eexists. split; [reflexivity|].
  split; [exact D|]. split; [exact G|]. split; [exact K|].
  change (output_ (codegen_ (cg_flush ?q)))
    with (output_ (codegen_ q) ++ [code q]).
  rewrite O, K. reflexivity.
Qed.

(** [begin float y = 16777217 end]: the literal has no single-precision
    representation and is pushed as 16777216. *)
Lemma program_compiles_rounded_literal :
  code_program
    (SSeq (SDeclare true "y"
             (MkExpression (MkTerm (FNumber 16777217) TNil) ENil)) SDone)
  = [mkCommand PUSH (FloatArg (16777216 # 1)); mkCommand STORE (IntArg 0);
     mkCommand STOP NoArg] /\
  (fun p => (cerr_ p, code p)) <$>
    compile [kw T_BEGIN; kw T_FLOAT; ident "y"; kw T_ASSIGN;
             LexNumber 16777217; kw T_END] =
    Some ([], [mkCommand PUSH (FloatArg (16777216 # 1));
               mkCommand STORE (IntArg 0); mkCommand STOP NoArg]).
Proof. split; vm_compute; reflexivity. Qed.

Lemma program_compiles_witness :
  wf_statementList Symbols_new sample_program = true /\
  exists p',
    parse (enough (Parser_new (Scanner_new (tokens_program 1 sample_program))))
      (Parser_new (Scanner_new (tokens_program 1 sample_program))) = Some p' /\
    cerr_ p' = [] /\ error_ p' = false /\
    code p' =
      [mkCommand PUSH (IntArg 1); mkCommand STORE (IntArg 0);
       mkCommand LOAD (IntArg 0); mkCommand PUSH (IntArg 5);
       mkCommand COMPARE (IntArg 2); mkCommand JUMP_NO (IntArg 11);
       mkCommand LOAD (IntArg 0); mkCommand PUSH (IntArg 1);
       mkCommand ADD NoArg; mkCommand STORE (IntArg 0);
       mkCommand JUMP (IntArg 2);
       mkCommand LOAD (IntArg 0); mkCommand PUSH (IntArg 5);
       mkCommand COMPARE (IntArg 0); mkCommand JUMP_NO (IntArg 18);
       mkCommand LOAD (IntArg 0); mkCommand PRINT NoArg;
       mkCommand JUMP (IntArg 20);
       mkCommand PUSH (IntArg 0); mkCommand PRINT NoArg;
       mkCommand STOP NoArg] /\
    output_ (codegen_ p') = [code_program sample_program].
Proof.
  split; [reflexivity|].
  exact (program_compiles 1 sample_program eq_refl).
Defined.

(** ** Every placeholder is patched, and jumps stay inside the code *)

Lemma good_mono n m c : (n <= m)%nat -> good n c -> good m c.
Proof.
  intros Hle [H1 H2]. split; [exact H1|].
  intros Hj. destruct (H2 Hj) as (t & Ha & Ht). exists t. split; [exact Ha | lia].
Qed.

Lemma good_arithmetic n c : arithmetic c = true -> good n c.
Proof.
  unfold arithmetic. intros H. split.
  - intros E. rewrite E in H. discriminate.
  - intros [E|E]; rewrite E in H; discriminate.
Qed.

Lemma tidy_app holes l l' :
  tidy holes l -> Forall (good (length (l ++ l'))) l' -> tidy holes (l ++ l').
Proof.
  intros Ht Hg i c Hi Hh.
  destruct (decide (i < length l)%nat) as [Hlt|Hge].
  - rewrite lookup_app_l in Hi by exact Hlt.
    apply (good_mono (length l)); [rewrite length_app; lia|].
    exact (Ht i c Hi Hh).
  - rewrite lookup_app_r in Hi by lia.
    rewrite Forall_lookup in Hg. exact (Hg _ _ Hi).
Qed.

Lemma tidy_reserve holes l a :
  tidy holes l ->
  tidy (fun i => i = length l \/ holes i) (l ++ [mkCommand NOP a]).
Proof.
  intros Ht i c Hi Hh.
  destruct (decide (i < length l)%nat) as [Hlt|Hge].
  - rewrite lookup_app_l in Hi by exact Hlt.
    apply (good_mono (length l)); [rewrite length_app; lia|].
    apply (Ht i c Hi). intros Hin. apply Hh. right. exact Hin.
  - rewrite lookup_app_r in Hi by lia.
    destruct (i - length l)%nat as [|k] eqn:E; [|discriminate].
    exfalso. apply Hh. left. apply lookup_lt_Some in Hi. simpl in Hi. lia.
Qed.

Lemma tidy_patch holes l a c :
  tidy (fun i => i = a \/ holes i) l -> good (length l) c ->
  tidy holes (<[a := c]> l).
Proof.
  intros Ht Hg i d Hi Hh. rewrite length_insert.
  destruct (decide (i = a)) as [->|Hne].
  - pose proof (lookup_lt_Some _ _ _ Hi) as Hlt. rewrite length_insert in Hlt.
    rewrite list_lookup_insert_eq in Hi by exact Hlt.
    injection Hi as <-. exact Hg.
  - rewrite list_lookup_insert_ne in Hi by congruence.
    apply (Ht i d Hi). intros [E|Hin]; [exact (Hne E) | exact (Hh Hin)].
Qed.

Lemma settles_refl p : settles p p.
Proof. split; [reflexivity | auto]. Qed.

Lemma settles_trans p q r : settles p q -> settles q r -> settles p r.
Proof. intros [L1 T1] [L2 T2]. split; [lia | auto]. Qed.

Lemma settles_code p q : code q = code p -> settles p q.
Proof. intros E. unfold settles. rewrite E. split; [reflexivity | auto]. Qed.

Lemma settles_appends p p' : appends p p' -> settles p p'.
Proof.
  intros [(l & E & Hl & _) _ _]. unfold settles. rewrite E. split.
  - rewrite length_app. lia.
  - intros holes Ht. apply tidy_app; [exact Ht|].
    apply Forall_forall. intros c Hc. apply good_arithmetic.
    rewrite forallb_forall in Hl. apply Hl. apply list_elem_of_In. exact Hc.
Qed.

Lemma settles_cg_emit i a p :
  good (S (length (code p))) (mkCommand i a) -> settles p (cg_emit i a p).
Proof.
  intros Hg. unfold settles. rewrite code_cg_emit. split.
  - rewrite length_app. lia.
  - intros holes Ht. apply tidy_app; [exact Ht|].
    apply Forall_singleton. rewrite length_app, Nat.add_1_r. exact Hg.
Qed.

Lemma settles_mustBe t p : settles p (mustBe t p).
Proof. apply settles_code, code_mustBe. Qed.

Lemma settles_match t p : settles p (snd (match_ t p)).
Proof. apply settles_code, code_match. Qed.

Lemma good_plain n i a :
  i <> NOP -> i <> JUMP -> i <> JUMP_NO -> good n (mkCommand i a).
Proof. intros H1 H2 H3. split; [exact H1|]. intros [E|E]; contradiction. Qed.

Lemma good_jump n i (t : nat) :
  i <> NOP -> (t <= n)%nat -> good n (mkCommand i (IntArg (Z.of_nat t))).
Proof. intros H1 Ht. split; [exact H1|]. intros _. exists t. split; [reflexivity | exact Ht]. Qed.

(** A placeholder is reserved at the end of [p1], the part in between
    settles, and the placeholder is patched with a jump to an address of
    the buffer. *)
Lemma settles_reserve_patch p1 q p2 i (t : nat) :
  code q = code p1 ++ [mkCommand NOP NoArg] ->
  settles q p2 -> i <> NOP -> (t <= length (code p2))%nat ->
  settles p1 (cg_emitAt (getCurrentAddress (codegen_ p1)) i (IntArg (Z.of_nat t)) p2).
Proof.
  intros Eq [L T] Hi Ht. rewrite getCurrentAddress_code. unfold settles.
  rewrite code_cg_emitAt, length_insert. rewrite Eq, length_app in L. split; [lia|].
  intros holes H0. apply tidy_patch; [|apply good_jump; assumption].
  apply T. rewrite Eq. apply tidy_reserve. exact H0.
Qed.

Lemma tidy_weaken (holes holes' : nat -> Prop) l :
  (forall i, holes i -> holes' i) -> tidy holes l -> tidy holes' l.
Proof. intros Hsub Ht i c Hi Hh. apply (Ht i c Hi). intros Hin. exact (Hh (Hsub i Hin)). Qed.

(** The two placeholders of an [if] with [else]: the first is patched
    after the second has been reserved. *)
Lemma settles_if_else p1 q3 p2 p3 p4 :
  code q3 = code p1 ++ [mkCommand NOP NoArg] -> settles q3 p2 ->
  code p3 = code p2 ++ [mkCommand NOP NoArg] ->
  settles (cg_emitAt (getCurrentAddress (codegen_ p1)) JUMP_NO
             (IntArg (getCurrentAddress (codegen_ p3))) p3) p4 ->
  settles p1 (cg_emitAt (getCurrentAddress (codegen_ p2)) JUMP
                (IntArg (getCurrentAddress (codegen_ p4))) p4).
Proof.
  intros K3 [L2 T2] Kp3 [L4 T4]. rewrite !getCurrentAddress_code in *.
  rewrite code_cg_emitAt in L4, T4. rewrite length_insert in L4.
  rewrite K3, length_app in L2. rewrite Kp3, length_app in L4. cbn [length] in L2, L4.
  unfold settles. rewrite code_cg_emitAt, length_insert. split; [lia|].
  intros holes H0.
  apply tidy_patch; [|apply good_jump; [discriminate | reflexivity]].
  apply T4. apply tidy_patch.
  - rewrite Kp3.
    apply (tidy_weaken (fun i => i = length (code p2)
                                 \/ (i = length (code p1) \/ holes i))).
    { intros i [E|[E|Hin]]; auto. }
    apply tidy_reserve, T2. rewrite K3. apply tidy_reserve, H0.
  - apply good_jump; [discriminate | reflexivity].
Qed.

Lemma relation_settles fuel p p' : relation fuel p = Some p' -> settles p p'.
Proof.
  unfold relation. intros H.
  destruct (expression fuel p) as [p1|] eqn:E1; [|discriminate].
  apply (proj1 (expression_block_appends fuel)) in E1. apply settles_appends in E1.
  destruct (see T_CMP p1).
  - destruct (expression fuel (next p1)) as [p2|] eqn:E2; [|discriminate].
    apply (proj1 (expression_block_appends fuel)) in E2. apply settles_appends in E2.
    injection H as <-.
    eapply settles_trans; [exact E1|]. eapply settles_trans; [exact E2|].
    apply settles_cg_emit, good_plain; discriminate.
  - injection H as <-. eapply settles_trans; [exact E1|]. apply settles_code. reflexivity.
Qed.

Lemma expression_settles fuel p p' : expression fuel p = Some p' -> settles p p'.
Proof.
  intros H. apply settles_appends, (proj1 (expression_block_appends fuel)), H.
Qed.

Lemma code_addVariable var isFloat p : code (snd (addVariable var isFloat p)) = code p.
Proof. unfold addVariable. cbv zeta. destruct (_ !! var); reflexivity. Qed.

Lemma code_findVariable var p : code (snd (findVariable var p)) = code p.
Proof. unfold findVariable. destruct (_ !! var); reflexivity. Qed.

Lemma settles_store fuel a q p' :
  match expression fuel (mustBe T_ASSIGN q) with
  | Some p1 => Some (cg_emit STORE a p1)
  | None => None
  end = Some p' ->
  settles q p'.
Proof.
  intros H.
  destruct (expression fuel (mustBe T_ASSIGN q)) as [p1|] eqn:E1; [|discriminate].
  apply (inj Some) in H. subst p'. apply expression_settles in E1.
  eapply settles_trans; [apply settles_mustBe|].
  eapply settles_trans; [exact E1|].
  apply settles_cg_emit, good_plain; discriminate.
Qed.

Lemma settles_declare fuel t isFloat p p' :
  (let p1 := mustBe T_IDENTIFIER (snd (match_ t p)) in
   let r := addVariable (getStringValue (scanner_ p1)) isFloat p1 in
   match expression fuel (mustBe T_ASSIGN (snd r)) with
   | Some p' => Some (cg_emit STORE (IntArg (fst r)) p')
   | None => None
   end) = Some p' ->
  settles p p'.
Proof.
  cbv zeta. intros H.
  pose proof (code_addVariable
                (getStringValue (scanner_ (mustBe T_IDENTIFIER (snd (match_ t p)))))
                isFloat (mustBe T_IDENTIFIER (snd (match_ t p)))) as Ka.
  destruct (addVariable _ _ _) as [a q]. cbn [fst snd] in H, Ka.
  apply settles_store in H.
  eapply settles_trans; [apply settles_match|].
  eapply settles_trans; [apply settles_mustBe|].
  eapply settles_trans; [apply settles_code, Ka | exact H].
Qed.

Lemma settles_assign fuel p p' :
  (let p1 := snd (match_ T_IDENTIFIER p) in
   let r := findVariable (getStringValue (scanner_ p1)) p1 in
   match expression fuel (mustBe T_ASSIGN (snd r)) with
   | Some p' => Some (cg_emit STORE (intArg (fst r)) p')
   | None => None
   end) = Some p' ->
  settles p p'.
Proof.
  cbv zeta. intros H.
  pose proof (code_findVariable
                (getStringValue (scanner_ (snd (match_ T_IDENTIFIER p))))
                (snd (match_ T_IDENTIFIER p))) as Ka.
  destruct (findVariable _ _) as [a q]. cbn [fst snd] in H, Ka.
  apply settles_store in H.
  eapply settles_trans; [apply settles_match|].
  eapply settles_trans; [apply settles_code, Ka | exact H].
Qed.

Lemma statement_block_settles fuel :
  (forall p p', statementList fuel p = Some p' -> settles p p') /\
  (forall p p', statementList_loop fuel p = Some p' -> settles p p') /\
  (forall p p', statement fuel p = Some p' -> settles p p').
Proof.
  induction fuel as [|fuel (IHsl & IHl & IHs)].
  { split; [|split]; intros p p' H; discriminate H. }
  split; [|split]; intros p p' H.
  - rewrite statementList_eq in H.
    destruct (see T_END p || see T_OD p || see T_ELSE p || see T_FI p).
    + injection H as <-. apply settles_refl.
    + exact (IHl _ _ H).
  - rewrite statementList_loop_eq in H.
    destruct (statement fuel p) as [p1|] eqn:E1; [|discriminate].
    apply IHs in E1. destruct (see T_SEMICOLON p1).
    + apply IHl in H. eapply settles_trans; [exact E1|].
      eapply settles_trans; [apply settles_match | exact H].
    + injection H as <-. exact E1.
  - rewrite statement_eq in H.
    destruct (see T_INT p).
    { exact (settles_declare _ _ _ _ _ H). }
    destruct (see T_FLOAT p).
    { exact (settles_declare _ _ _ _ _ H). }
    destruct (see T_IDENTIFIER p).
    { exact (settles_assign _ _ _ H). }
    destruct (see T_IF p).
    { destruct (relation fuel _) as [p1|] eqn:E1; [|discriminate].
      cbv zeta in H. apply relation_settles in E1.
      destruct (statementList fuel _) as [p2|] eqn:E2; [|discriminate].
      apply IHsl in E2.
      eapply settles_trans; [apply settles_match|].
      eapply settles_trans; [exact E1|].
      destruct (see T_ELSE p2).
      - destruct (statementList fuel _) as [p4|] eqn:E4; [|discriminate].
        injection H as <-. apply IHsl in E4.
        eapply settles_trans; [|apply settles_mustBe].
        apply (settles_if_else p1 (mustBe T_THEN (snd (cg_reserve p1))) p2
                 (snd (cg_reserve (snd (match_ T_ELSE p2)))));
          [apply code_mustBe | exact E2 | | exact E4].
        rewrite code_cg_reserve, code_match. reflexivity.
      - injection H as <-.
        eapply settles_trans; [|apply settles_mustBe].
        rewrite (getCurrentAddress_code p2).
        apply (settles_reserve_patch p1 (mustBe T_THEN (snd (cg_reserve p1))));
          [apply code_mustBe | exact E2 | discriminate | reflexivity]. }
    destruct (see T_WHILE p).
    { cbv zeta in H.
      destruct (relation fuel _) as [p1|] eqn:E1; [|discriminate].
      apply relation_settles in E1.
      destruct (statementList fuel _) as [p2|] eqn:E2; [|discriminate].
      apply IHsl in E2. injection H as <-.
      eapply settles_trans; [apply settles_match|].
      eapply settles_trans; [exact E1|].
      set (p3 := cg_emit JUMP _ (mustBe T_OD p2)).
      change (settles p1 (cg_emitAt (getCurrentAddress (codegen_ p1)) JUMP_NO
                            (IntArg (Z.of_nat (length (code p3)))) p3)).
      apply (settles_reserve_patch p1 (mustBe T_DO (snd (cg_reserve p1))));
        [apply code_mustBe | | discriminate | reflexivity].
      eapply settles_trans; [exact E2|].
      eapply settles_trans; [apply settles_mustBe|].
      unfold p3. rewrite getCurrentAddress_code.
      apply settles_cg_emit, good_jump; [discriminate|].
      destruct E1 as [L1 _]. destruct E2 as [L2 _].
      rewrite code_mustBe in L2 |- *. rewrite code_cg_reserve, length_app in L2.
      rewrite code_match in L1 |- *. lia. }
    destruct (see T_WRITE p).
    { destruct (expression fuel _) as [p1|] eqn:E1; [|discriminate].
      injection H as <-. apply expression_settles in E1.
      eapply settles_trans; [|apply settles_cg_emit, good_plain; discriminate].
      eapply settles_trans; [|apply settles_mustBe].
      eapply settles_trans; [|exact E1].
      eapply settles_trans; [apply settles_match | apply settles_mustBe]. }
    injection H as <-. apply settles_code. reflexivity.
Qed.

(** X3.  On every input the pass ends with [STOP] as the last instruction, no
    placeholder of [reserve] is left in the buffer, and every jump has an
    address of the buffer as its target: each [reserve] of [statement] is
    followed by its [emitAt] on every path, also after a syntax error. *)
Theorem parse_code_settled (s : Scanner) :
  exists p',
    parse (enough (Parser_new s)) (Parser_new s) = Some p' /\
    last (code p') = Some (mkCommand STOP NoArg) /\
    forall (i : nat) c,
      code p' !! i = Some c ->
      instruction c <> NOP /\
      (instruction c = JUMP \/ instruction c = JUMP_NO ->
       exists t : nat, arg c = IntArg (Z.of_nat t) /\ (t < length (code p'))%nat).
Proof.
  set (p := Parser_new s).
  destruct (program_total (enough p) p (Nat.le_refl _)) as (p1 & E & _).
  unfold parse. rewrite E. unfold program in E.
  destruct (statementList (enough p) (mustBe T_BEGIN p)) as [p2|] eqn:E2; [|discriminate].
  apply (inj Some) in E. subst p1.
  apply (proj1 (statement_block_settles (enough p))) in E2. destruct E2 as [_ T].
  assert (T0 : tidy (fun _ => False) (code (mustBe T_BEGIN p))).
  { rewrite code_mustBe. intros i c Hi. discriminate Hi. }
  apply T in T0.
  assert (K : code (cg_emit STOP NoArg (mustBe T_END p2))
              = code p2 ++ [mkCommand STOP NoArg]).
  { rewrite code_cg_emit, code_mustBe. reflexivity. }
  assert (Hfin : forall q, code q = code p2 ++ [mkCommand STOP NoArg] ->
            last (code q) = Some (mkCommand STOP NoArg) /\
            forall (i : nat) c,
              code q !! i = Some c ->
              instruction c <> NOP /\
              (instruction c = JUMP \/ instruction c = JUMP_NO ->
               exists t : nat, arg c = IntArg (Z.of_nat t) /\ (t < length (code q))%nat)).
  { intros q ->. split; [apply last_snoc|]. intros i c Hi.
    rewrite length_app, Nat.add_1_r.
    destruct (decide (i < length (code p2))%nat) as [Hlt|Hge].
    - rewrite lookup_app_l in Hi by exact Hlt.
      destruct (T0 i c Hi (fun F => F)) as [H1 H2]. split; [exact H1|].
      intros Hj. destruct (H2 Hj) as (t & Ha & Ht). exists t. split; [exact Ha | lia].
    - rewrite lookup_app_r in Hi by lia.
      destruct (i - length (code p2))%nat; [|discriminate].
      injection Hi as <-. split; [discriminate|]. intros [F|F]; discriminate F. }
  destruct (negb (error_ _)); eexists; (split; [reflexivity|]); apply Hfin, K.
Qed.

(** ** Expressions and conditions on any input *)

(** X6.  On every input [expression] returns; it appends instructions to the
    buffer, each one of PUSH, LOAD, INPUT, INVERT, ADD, SUB, MULT and DIV,
    every LOAD with the address of a variable of the table (or with the
    unspecified operand of a name that is not declared), and leaves the
    symbol table, the address counter and the output as they were. *)
Theorem expression_appends_arithmetic (p : Parser) :
  exists p' l,
    expression (enough p) p = Some p' /\
    code p' = code p ++ l /\ forallb arithmetic l = true /\
    Forall (loads_from (variables_ p)) l /\
    variables_ p' = variables_ p /\ lastVar_ p' = lastVar_ p /\
    output_ (codegen_ p') = output_ (codegen_ p).
Proof.
  destruct (expression_total (enough p) p (Nat.le_refl _)) as (p' & E & _).
  pose proof (proj1 (expression_block_appends (enough p)) p p' E)
    as [(l & K & Hl & Hload) (Hv & Hlv & _) Ho].
  exists p', l. auto 10.
Qed.

(** X7.  On every input [relation] returns.  It appends the instructions of
    its expressions and then either COMPARE with a code from 0 to 5, or
    nothing more: in that case the flag [error_] is set and the last
    diagnostic is "comparison operator expected.". *)
Theorem relation_compare_or_error (p : Parser) :
  exists p' l,
    relation (enough p) p = Some p' /\ forallb arithmetic l = true /\
    ((exists c, code p' = code p ++ l ++ [mkCommand COMPARE (IntArg (cmpCode c))]
                /\ 0 <= cmpCode c <= 5) \/
     (code p' = code p ++ l /\ error_ p' = true /\
      exists ln, last (cerr_ p') = Some (ln, "comparison operator expected."%string))).
Proof.
  destruct (relation_total (enough p) p (Nat.le_refl _)) as (p' & E & _).
  exists p'. rewrite E. unfold relation in E.
  destruct (expression (enough p) p) as [p1|] eqn:E1; [|discriminate].
  pose proof (proj1 (expression_block_appends (enough p)) p p1 E1)
    as [(l1 & K1 & Hl1 & _) _ _].
  destruct (see T_CMP p1).
  - destruct (expression (enough p) (next p1)) as [p2|] eqn:E2; [|discriminate].
    pose proof (proj1 (expression_block_appends (enough p)) _ p2 E2)
      as [(l2 & K2 & Hl2 & _) _ _].
    apply (inj Some) in E. subst p'. exists (l1 ++ l2).
    split; [reflexivity|]. split; [rewrite forallb_app, Hl1, Hl2; reflexivity|].
    left. exists (getCmpValue (scanner_ p1)). split.
    + rewrite code_cg_emit, K2, code_next, K1, <- !app_assoc. reflexivity.
    + destruct (getCmpValue (scanner_ p1)); simpl; lia.
  - apply (inj Some) in E. subst p'. exists l1.
    split; [reflexivity|]. split; [exact Hl1|]. right.
    split; [exact K1|]. split; [reflexivity|].
    exists (getLineNumber (scanner_ p1)). apply last_snoc.
Qed.

(** ** The symbol table *)

(** X10.  Declaring a name that is not in the table and looking it up: the
    lookup returns the address [addVariable] returned, which is the counter
    before the call, and records no diagnostic; the lookup of every other
    name gives what it gave before the declaration. *)
Theorem declare_then_find var isFloat p :
  variables_ p !! var = None ->
  findVariable var (snd (addVariable var isFloat p))
  = (Some (fst (addVariable var isFloat p)), snd (addVariable var isFloat p)) /\
  fst (addVariable var isFloat p) = fst (lastVar_ p) /\
  forall w, w <> var ->
    fst (findVariable w (snd (addVariable var isFloat p))) = fst (findVariable w p).
Proof.
  intros H. rewrite (addVariable_fresh var isFloat p H). cbn [fst snd].
  split; [|split; [reflexivity|]].
  - unfold findVariable. cbn [variables_ with_lastVar with_variables].
    rewrite lookup_insert_eq. reflexivity.
  - intros w Hw. unfold findVariable. cbn [variables_ with_lastVar with_variables].
    rewrite lookup_insert_ne by congruence.
    change (variables_ (with_lastVar _ (with_addVariableCalls _ p)))
      with (variables_ p).
    destruct (variables_ p !! w); reflexivity.
Qed.

Lemma declare_then_find_witness :
  variables_ (Parser_new (Scanner_new [])) !! "x"%string = None /\
  findVariable "x" (snd (addVariable "x" true (Parser_new (Scanner_new []))))
  = (Some 0, snd (addVariable "x" true (Parser_new (Scanner_new [])))).
Proof.
  split; [reflexivity|].
  exact (proj1 (declare_then_find "x" true (Parser_new (Scanner_new [])) eq_refl)).
Defined.

(** ** Syntax errors *)

Lemma cerr_recover_loop n t p : cerr_ (recover_loop n t p) = cerr_ p.
Proof.
  revert p. induction n as [|n IH]; intros p; [reflexivity|]. simpl.
  destruct (negb (see t p) && negb (see T_EOF p)); [|reflexivity].
  rewrite IH. reflexivity.
Qed.

Lemma error_recover_loop n t p : error_ (recover_loop n t p) = error_ p.
Proof.
  revert p. induction n as [|n IH]; intros p; [reflexivity|]. simpl.
  destruct (negb (see t p) && negb (see T_EOF p)); [|reflexivity].
  rewrite IH. reflexivity.
Qed.

(** After [recover] the parser is at the end of the input or has just read
    the token it looked for. *)
Lemma recover_stops t p :
  see T_EOF (recover t p) = true \/ lastToken_ (recover t p) = t.
Proof.
  unfold recover. cbv zeta.
  pose proof (recover_loop_exits (S (length (input_ (scanner_ p)))) t p
                ltac:(lia)) as Hx.
  destruct (see t (recover_loop _ t p)) eqn:St.
  - right. apply see_true in St. exact St.
  - left. exact Hx.
Qed.

Lemma mustBe_mismatch_facts t p :
  see t p = false ->
  error_ (mustBe t p) = true /\
  cerr_ (mustBe t p)
  = cerr_ p ++ [(getLineNumber (scanner_ p),
                 (tokenToString (token (scanner_ p)) ++ " found while "
                  ++ tokenToString t ++ " expected.")%string)].
Proof.
  intros Hs. unfold mustBe, match_. unfold see in Hs. rewrite Hs. cbn [negb].
  unfold recover. cbv zeta. split.
  - destruct (see t _); [change (error_ (next ?q)) with (error_ q)|];
      rewrite error_recover_loop; reflexivity.
  - destruct (see t _); [change (cerr_ (next ?q)) with (cerr_ q)|];
      rewrite cerr_recover_loop; reflexivity.
Qed.

(** X8.  [mustBe] on a token that is not the expected one: the flag [error_] is
    set and exactly one diagnostic is added, with the line of the token
    found and the names of both tokens; then tokens are skipped, so that the
    parser is at the end of the input or has just read the expected token.
    The buffer and the symbol table are untouched. *)
Theorem mustBe_mismatch t p :
  see t p = false ->
  error_ (mustBe t p) = true /\
  cerr_ (mustBe t p)
  = cerr_ p ++ [(getLineNumber (scanner_ p),
                 (tokenToString (token (scanner_ p)) ++ " found while "
                  ++ tokenToString t ++ " expected.")%string)] /\
  code (mustBe t p) = code p /\
  variables_ (mustBe t p) = variables_ p /\
  (see T_EOF (mustBe t p) = true \/ lastToken_ (mustBe t p) = t).
Proof.
  intros Hs. split; [|split; [|split; [|split]]].
  - apply mustBe_mismatch_facts, Hs.
  - apply mustBe_mismatch_facts, Hs.
  - apply code_mustBe.
  - apply same_table_mustBe.
  - unfold mustBe, match_. unfold see in Hs. rewrite Hs. cbn [negb].
    apply recover_stops.
Qed.

Lemma mustBe_mismatch_witness :
  see T_BEGIN (Parser_new (Scanner_new
                 [(4%nat, LexNumber 3); (5%nat, LexPlain T_SEMICOLON);
                  (6%nat, LexPlain T_BEGIN); (7%nat, LexPlain T_END)])) = false /\
  cerr_ (mustBe T_BEGIN (Parser_new (Scanner_new
                 [(4%nat, LexNumber 3); (5%nat, LexPlain T_SEMICOLON);
                  (6%nat, LexPlain T_BEGIN); (7%nat, LexPlain T_END)])))
  = [(4%nat, "number found while 'BEGIN' expected."%string)].
Proof.
  split; [reflexivity|].
  exact (proj1 (proj2 (mustBe_mismatch T_BEGIN
                         (Parser_new (Scanner_new
                            [(4%nat, LexNumber 3); (5%nat, LexPlain T_SEMICOLON);
                             (6%nat, LexPlain T_BEGIN); (7%nat, LexPlain T_END)]))
                         eq_refl))).
Defined.

(** X9.  A source text that does not start with [begin]: the first diagnostic
    names the token found, with its line, and 'BEGIN'; nothing is written
    to the output. *)
Theorem missing_begin_reported (s : Scanner) :
  see T_BEGIN (Parser_new s) = false ->
  exists p',
    parse (enough (Parser_new s)) (Parser_new s) = Some p' /\
    output_ (codegen_ p') = [] /\
    head (cerr_ p')
    = Some (getLineNumber (scanner_ (Parser_new s)),
            (tokenToString (token (scanner_ (Parser_new s)))
             ++ " found while 'BEGIN' expected.")%string).
Proof.
  intros Hs. set (p := Parser_new s) in *.
  destruct (mustBe_mismatch_facts T_BEGIN p Hs) as (He & Hc).
  pose proof (frame_mustBe T_BEGIN p) as F0.
  destruct (statementList_total (enough p) (mustBe T_BEGIN p)) as (p2 & E2 & F2).
  { apply fr_pending in F0. unfold enough. lia. }
  unfold parse, program. rewrite E2. cbn [mbind option_bind].
  set (p1 := cg_emit STOP NoArg (mustBe T_END p2)).
  assert (F1 : frame (mustBe T_BEGIN p) p1).
  { eapply frame_trans; [exact F2|].
    eapply frame_trans; [apply frame_mustBe | apply frame_cg_emit]. }
  rewrite (fr_error_mono _ _ F1 He). cbn [negb].
  eexists. split; [reflexivity|]. split.
  - rewrite (fr_output _ _ F1), (fr_output _ _ F0). reflexivity.
  - destruct (fr_cerr _ _ F1) as (k & ->). rewrite Hc. reflexivity.
Qed.

Lemma missing_begin_reported_witness :
  see T_BEGIN (Parser_new (Scanner_new
                 [(2%nat, LexPlain T_WRITE); (2%nat, LexPlain T_LPAREN);
                  (2%nat, LexNumber 1); (2%nat, LexPlain T_RPAREN);
                  (3%nat, LexPlain T_END)])) = false /\
  exists p',
    parse (enough (Parser_new (Scanner_new
                 [(2%nat, LexPlain T_WRITE); (2%nat, LexPlain T_LPAREN);
                  (2%nat, LexNumber 1); (2%nat, LexPlain T_RPAREN);
                  (3%nat, LexPlain T_END)])))
      (Parser_new (Scanner_new
                 [(2%nat, LexPlain T_WRITE); (2%nat, LexPlain T_LPAREN);
                  (2%nat, LexNumber 1); (2%nat, LexPlain T_RPAREN);
                  (3%nat, LexPlain T_END)])) = Some p' /\
    output_ (codegen_ p') = [] /\
    head (cerr_ p') = Some (2%nat, "'WRITE' found while 'BEGIN' expected."%string).
Proof.
  split; [reflexivity|].
  exact (missing_begin_reported
           (Scanner_new
              [(2%nat, LexPlain T_WRITE); (2%nat, LexPlain T_LPAREN);
               (2%nat, LexNumber 1); (2%nat, LexPlain T_RPAREN);
               (3%nat, LexPlain T_END)]) eq_refl).
Defined.

(** ** What a list of statements leaves alone *)

Lemma take_unchanged {A} (l l' : list A) :
  (length l <= length l')%nat ->
  (forall i : nat, (i < length l)%nat -> l' !! i = l !! i) ->
  take (length l) l' = l.
Proof.
  intros Hle H. apply list_eq. intros i.
  destruct (decide (i < length l)%nat) as [Hlt|Hge].
  - rewrite lookup_take_lt by exact Hlt. apply H, Hlt.
  - rewrite lookup_take_ge by lia. symmetry. apply lookup_ge_None. lia.
Qed.

(** X5.  On every input [statementList] returns, and whatever it reads, the
    instructions that were in the buffer before the call are still there,
    at their addresses: [emitAt] is only used on addresses reserved during
    the call.  No diagnostic is dropped, the flag [error_] is not cleared,
    nothing is written to the output, and no variable is removed from the
    table or bound to another address. *)
Theorem statementList_keeps_earlier_code (p : Parser) :
  exists p',
    statementList (enough p) p = Some p' /\
    take (length (code p)) (code p') = code p /\
    cerr_ p `prefix_of` cerr_ p' /\
    (error_ p = true -> error_ p' = true) /\
    output_ (codegen_ p') = output_ (codegen_ p) /\
    variables_ p ⊆ variables_ p'.
Proof.
  destruct (statementList_total (enough p) p (Nat.le_refl _)) as (p' & E & F).
  exists p'. split; [exact E|]. destruct F.
  split; [apply take_unchanged; assumption|]. auto.
Qed.

(** ** LOAD and STORE use allocated addresses *)

Lemma allocated_mono n m c : n <= m -> allocated n c -> allocated m c.
Proof.
  intros Hle H Hi. destruct (H Hi) as [E|(a & E & Ha)]; [left; exact E|].
  right. exists a. split; [exact E | lia].
Qed.

Lemma allocated_plain n i a : i <> LOAD -> i <> STORE -> allocated n (mkCommand i a).
Proof. intros H1 H2 [E|E]; contradiction. Qed.

Lemma addresses_ok_quiet p q :
  code q = code p -> same_table p q -> addresses_ok p -> addresses_ok q.
Proof.
  intros Hc (Hv & Hl & _) (H0 & Ht & Hk). unfold addresses_ok.
  rewrite Hc, Hv, Hl. auto.
Qed.

Lemma addresses_ok_mustBe t p : addresses_ok p -> addresses_ok (mustBe t p).
Proof. apply addresses_ok_quiet; [apply code_mustBe | apply same_table_mustBe]. Qed.

Lemma addresses_ok_match t p : addresses_ok p -> addresses_ok (snd (match_ t p)).
Proof. apply addresses_ok_quiet; [apply code_match | apply same_table_match]. Qed.

Lemma addresses_ok_cg_emit i a p :
  allocated (fst (lastVar_ p)) (mkCommand i a) ->
  addresses_ok p -> addresses_ok (cg_emit i a p).
Proof.
  intros Ha (H0 & Ht & Hk). split; [exact H0|]. split; [exact Ht|].
  rewrite code_cg_emit. apply Forall_app. split; [exact Hk|].
  apply Forall_singleton. exact Ha.
Qed.

Lemma addresses_ok_cg_reserve p : addresses_ok p -> addresses_ok (snd (cg_reserve p)).
Proof. apply (addresses_ok_cg_emit NOP NoArg), allocated_plain; discriminate. Qed.

Lemma addresses_ok_cg_emitAt address i a p :
  i <> LOAD -> i <> STORE -> addresses_ok p -> addresses_ok (cg_emitAt address i a p).
Proof.
  intros H1 H2 (H0 & Ht & Hk). split; [exact H0|]. split; [exact Ht|].
  unfold cg_emitAt, emitAt, code. destruct (0 <=? address); [|exact Hk].
  cbn [codegen_ with_codegen commandBuffer_].
  apply Forall_insert; [exact Hk | apply allocated_plain; assumption].
Qed.

Lemma addresses_ok_appends p p' : appends p p' -> addresses_ok p -> addresses_ok p'.
Proof.
  intros [(l & K & Hl & Hload) (Hv & Hlv & _) _] (H0 & Ht & Hk).
  unfold addresses_ok. rewrite K, Hv, Hlv.
  split; [exact H0|]. split; [exact Ht|].
  apply Forall_app. split; [exact Hk|].
  rewrite Forall_forall in Hload. apply Forall_forall. intros c Hc [E|E].
  - destruct (Hload c Hc E) as [Hu|(x & v & Hx & Ha)]; [left; exact Hu|].
    right. exists (fst v). split; [exact Ha | exact (Ht x v Hx)].
  - rewrite forallb_forall in Hl. apply list_elem_of_In, Hl in Hc.
    unfold arithmetic in Hc. rewrite E in Hc. discriminate Hc.
Qed.

Lemma addVariable_counter var isFloat p :
  fst (addVariable var isFloat p) = fst (lastVar_ p) /\
  fst (lastVar_ (snd (addVariable var isFloat p))) = fst (lastVar_ p) + 1.
Proof.
  unfold addVariable. cbv zeta.
  change (variables_ (with_addVariableCalls _ p)) with (variables_ p).
  destruct (variables_ p !! var); split; reflexivity.
Qed.

Lemma addVariable_table var isFloat p :
  variables_ (snd (addVariable var isFloat p))
  = match variables_ p !! var with
    | None => <[var := (fst (lastVar_ p), isFloat)]> (variables_ p)
    | Some _ => variables_ p
    end.
Proof.
  unfold addVariable. cbv zeta.
  change (variables_ (with_addVariableCalls _ p)) with (variables_ p).
  destruct (variables_ p !! var); reflexivity.
Qed.

(** [addVariable] returns an address below the new counter, and keeps the
    addresses in use below it. *)
Lemma addresses_ok_addVariable var isFloat p :
  addresses_ok p ->
  addresses_ok (snd (addVariable var isFloat p)) /\
  0 <= fst (addVariable var isFloat p)
    < fst (lastVar_ (snd (addVariable var isFloat p))).
Proof.
  intros (H0 & Ht & Hk). unfold addresses_ok.
  destruct (addVariable_counter var isFloat p) as (-> & ->).
  rewrite code_addVariable, addVariable_table.
  split; [|lia]. split; [lia|]. split.
  - intros x v Hx. destruct (variables_ p !! var) eqn:E.
    + specialize (Ht x v Hx). lia.
    + destruct (decide (x = var)) as [->|Hne].
      * rewrite lookup_insert_eq in Hx. apply (inj Some) in Hx. subst v. simpl. lia.
      * rewrite lookup_insert_ne in Hx by congruence. specialize (Ht x v Hx). lia.
  - eapply Forall_impl; [exact Hk|]. intros c. apply allocated_mono. lia.
Qed.

Lemma addresses_ok_findVariable var p :
  addresses_ok p ->
  addresses_ok (snd (findVariable var p)) /\
  allocated (fst (lastVar_ (snd (findVariable var p))))
    (mkCommand STORE (intArg (fst (findVariable var p)))).
Proof.
  intros Hok. pose proof Hok as (H0 & Ht & Hk). unfold findVariable.
  destruct (variables_ p !! var) as [v|] eqn:E; cbn [fst snd].
  - split; [exact Hok|]. intros _. right. exists (fst v).
    split; [reflexivity | exact (Ht var v E)].
  - split; [exact Hok|]. intros _. left. reflexivity.
Qed.

Lemma addresses_ok_expression fuel p p' :
  expression fuel p = Some p' -> addresses_ok p -> addresses_ok p'.
Proof.
  intros H. apply addresses_ok_appends, (proj1 (expression_block_appends fuel)), H.
Qed.

Lemma lastVar_expression fuel p p' :
  expression fuel p = Some p' -> lastVar_ p' = lastVar_ p.
Proof.
  intros H. apply (proj1 (expression_block_appends fuel)) in H.
  destruct H as [_ (_ & Hl & _) _]. exact Hl.
Qed.

Lemma addresses_ok_relation fuel p p' :
  relation fuel p = Some p' -> addresses_ok p -> addresses_ok p'.
Proof.
  unfold relation. intros H Hok.
  destruct (expression fuel p) as [p1|] eqn:E1; [|discriminate].
  apply addresses_ok_expression in E1; [|exact Hok].
  destruct (see T_CMP p1).
  - destruct (expression fuel (next p1)) as [p2|] eqn:E2; [|discriminate].
    apply addresses_ok_expression in E2; [|exact E1].
    apply (inj Some) in H. subst p'.
    apply addresses_ok_cg_emit; [apply allocated_plain; discriminate | exact E2].
  - apply (inj Some) in H. subst p'. exact E1.
Qed.

Lemma addresses_store fuel a q p' :
  match expression fuel (mustBe T_ASSIGN q) with
  | Some p1 => Some (cg_emit STORE a p1)
  | None => None
  end = Some p' ->
  addresses_ok q -> allocated (fst (lastVar_ q)) (mkCommand STORE a) ->
  addresses_ok p'.
Proof.
  intros H Hok Ha.
  destruct (expression fuel (mustBe T_ASSIGN q)) as [p1|] eqn:E1; [|discriminate].
  apply (inj Some) in H. subst p'.
  pose proof (lastVar_expression _ _ _ E1) as Hl.
  apply addresses_ok_expression in E1; [|apply addresses_ok_mustBe, Hok].
  apply addresses_ok_cg_emit; [|exact E1].
  rewrite Hl. destruct (same_table_mustBe T_ASSIGN q) as (_ & -> & _). exact Ha.
Qed.

Lemma addresses_declare fuel t isFloat p p' :
  (let p1 := mustBe T_IDENTIFIER (snd (match_ t p)) in
   let r := addVariable (getStringValue (scanner_ p1)) isFloat p1 in
   match expression fuel (mustBe T_ASSIGN (snd r)) with
   | Some p' => Some (cg_emit STORE (IntArg (fst r)) p')
   | None => None
   end) = Some p' ->
  addresses_ok p -> addresses_ok p'.
Proof.
  cbv zeta. intros H Hok.
  apply (addresses_ok_match t), (addresses_ok_mustBe T_IDENTIFIER) in Hok.
  apply (addresses_ok_addVariable
           (getStringValue (scanner_ (mustBe T_IDENTIFIER (snd (match_ t p)))))
           isFloat) in Hok.
  destruct (addVariable _ _ _) as [a q]. cbn [fst snd] in H, Hok.
  destruct Hok as (Hok & Ha).
  apply (addresses_store _ _ _ _ H Hok).
  intros _. right. exists a. split; [reflexivity | exact Ha].
Qed.

Lemma addresses_assign fuel p p' :
  (let p1 := snd (match_ T_IDENTIFIER p) in
   let r := findVariable (getStringValue (scanner_ p1)) p1 in
   match expression fuel (mustBe T_ASSIGN (snd r)) with
   | Some p' => Some (cg_emit STORE (intArg (fst r)) p')
   | None => None
   end) = Some p' ->
  addresses_ok p -> addresses_ok p'.
Proof.
  cbv zeta. intros H Hok.
  apply (addresses_ok_match T_IDENTIFIER) in Hok.
  apply (addresses_ok_findVariable
           (getStringValue (scanner_ (snd (match_ T_IDENTIFIER p))))) in Hok.
  destruct (findVariable _ _) as [a q]. cbn [fst snd] in H, Hok.
  destruct Hok as (Hok & Ha).
  exact (addresses_store _ _ _ _ H Hok Ha).
Qed.

Lemma statement_block_addresses fuel :
  (forall p p', statementList fuel p = Some p' -> addresses_ok p -> addresses_ok p') /\
  (forall p p', statementList_loop fuel p = Some p' -> addresses_ok p -> addresses_ok p') /\
  (forall p p', statement fuel p = Some p' -> addresses_ok p -> addresses_ok p').
Proof.
  induction fuel as [|fuel (IHsl & IHl & IHs)].
  { split; [|split]; intros p p' H; discriminate H. }
  split; [|split]; intros p p' H Hok.
  - rewrite statementList_eq in H.
    destruct (see T_END p || see T_OD p || see T_ELSE p || see T_FI p).
    + apply (inj Some) in H. subst p'. exact Hok.
    + exact (IHl _ _ H Hok).
  - rewrite statementList_loop_eq in H.
    destruct (statement fuel p) as [p1|] eqn:E1; [|discriminate].
    apply IHs in E1; [|exact Hok]. destruct (see T_SEMICOLON p1).
    + apply IHl in H; [exact H | apply addresses_ok_match, E1].
    + apply (inj Some) in H. subst p'. exact E1.
  - rewrite statement_eq in H.
    destruct (see T_INT p); [exact (addresses_declare _ _ _ _ _ H Hok)|].
    destruct (see T_FLOAT p); [exact (addresses_declare _ _ _ _ _ H Hok)|].
    destruct (see T_IDENTIFIER p); [exact (addresses_assign _ _ _ H Hok)|].
    destruct (see T_IF p).
    { destruct (relation fuel _) as [p1|] eqn:E1; [|discriminate].
      cbv zeta in H.
      apply addresses_ok_relation in E1; [|apply addresses_ok_match, Hok].
      destruct (statementList fuel _) as [p2|] eqn:E2; [|discriminate].
      apply IHsl in E2; [|apply addresses_ok_mustBe, addresses_ok_cg_reserve, E1].
      destruct (see T_ELSE p2).
      - destruct (statementList fuel _) as [p4|] eqn:E4; [|discriminate].
        apply (inj Some) in H. subst p'.
        apply IHsl in E4.
        + apply addresses_ok_mustBe, addresses_ok_cg_emitAt; [discriminate..|exact E4].
        + apply addresses_ok_cg_emitAt; [discriminate..|].
          apply addresses_ok_cg_reserve, addresses_ok_match, E2.
      - apply (inj Some) in H. subst p'.
        apply addresses_ok_mustBe, addresses_ok_cg_emitAt; [discriminate..|exact E2]. }
    destruct (see T_WHILE p).
    { cbv zeta in H.
      destruct (relation fuel _) as [p1|] eqn:E1; [|discriminate].
      apply addresses_ok_relation in E1; [|apply addresses_ok_match, Hok].
      destruct (statementList fuel _) as [p2|] eqn:E2; [|discriminate].
      apply IHsl in E2; [|apply addresses_ok_mustBe, addresses_ok_cg_reserve, E1].
      apply (inj Some) in H. subst p'.
      apply addresses_ok_cg_emitAt; [discriminate..|].
      apply addresses_ok_cg_emit; [apply allocated_plain; discriminate|].
      apply addresses_ok_mustBe, E2. }
    destruct (see T_WRITE p).
    { destruct (expression fuel _) as [p1|] eqn:E1; [|discriminate].
      apply (inj Some) in H. subst p'.
      apply addresses_ok_expression in E1;
        [|apply addresses_ok_mustBe, addresses_ok_match, Hok].
      apply addresses_ok_cg_emit; [apply allocated_plain; discriminate|].
      apply addresses_ok_mustBe, E1. }
    apply (inj Some) in H. subst p'. exact Hok.
Qed.

(** X4.  On every input, at the end of the pass every LOAD and every STORE
    in the buffer has an address from 0 up to, and not including, the
    counter of [lastVar_], or the unspecified operand that [findVariable]
    leaves for a name that is not declared; the address of every variable
    of the table is in the same range. *)
Theorem parse_addresses_allocated (s : Scanner) :
  exists p',
    parse (enough (Parser_new s)) (Parser_new s) = Some p' /\
    (forall c, c ∈ code p' ->
       instruction c = LOAD \/ instruction c = STORE ->
       arg c = Unspecified \/
       exists a, arg c = IntArg a /\ 0 <= a < fst (lastVar_ p')) /\
    (forall x a f, variables_ p' !! x = Some (a, f) -> 0 <= a < fst (lastVar_ p')).
Proof.
  set (p := Parser_new s).
  destruct (program_total (enough p) p (Nat.le_refl _)) as (p1 & E & _).
  unfold parse. rewrite E. unfold program in E.
  destruct (statementList (enough p) (mustBe T_BEGIN p)) as [p2|] eqn:E2; [|discriminate].
  apply (inj Some) in E. subst p1.
  assert (Hok0 : addresses_ok p).
  { split; [reflexivity|]. split; [|constructor]. intros x v Hx. discriminate Hx. }
  apply (proj1 (statement_block_addresses (enough p))) in E2;
    [|apply addresses_ok_mustBe, Hok0].
  apply (addresses_ok_mustBe T_END),
    (addresses_ok_cg_emit STOP NoArg) in E2; [|apply allocated_plain; discriminate].
  assert (Hfin : forall q, code q = code (cg_emit STOP NoArg (mustBe T_END p2)) ->
            lastVar_ q = lastVar_ (cg_emit STOP NoArg (mustBe T_END p2)) ->
            variables_ q = variables_ (cg_emit STOP NoArg (mustBe T_END p2)) ->
            (forall c, c ∈ code q ->
               instruction c = LOAD \/ instruction c = STORE ->
               arg c = Unspecified \/
               exists a, arg c = IntArg a /\ 0 <= a < fst (lastVar_ q)) /\
            (forall x a f, variables_ q !! x = Some (a, f) -> 0 <= a < fst (lastVar_ q))).
  { intros q -> -> ->. destruct E2 as (_ & Ht & Hk). split.
    - intros c Hc. rewrite Forall_forall in Hk. exact (Hk c Hc).
    - intros x a f Hx. exact (Ht x (a, f) Hx). }
  destruct (negb (error_ _)); eexists; (split; [reflexivity|]); apply Hfin; reflexivity.
Qed.
